(** * Kou–Markowsky–Berman Steiner tree heuristic (heuristic_steiner_tree)

    A shallow embedding of [heuristic_steiner_tree/kou_et_al.py] together
    with the parts of the networkx graph engine the three functions call
    ([Graph], [astar_path], [astar_path_length], [minimum_spanning_tree]).

    Layout:
    - insertion-ordered dictionaries (Python [dict]) as association lists;
    - graph values: the [_adj] dict-of-dicts of [networkx.Graph];
    - the search and spanning-tree primitives on graph values;
    - a store of graph objects and a state-and-exception monad, in which
      the three functions of the module are written the way the Python is;
    - the heuristic of the test suite ([test_kou.py]);
    - a small program logic and the theorems.

    Nodes are natural numbers (opaque hashable values); edge weights and
    heuristic values are integers. *)

From Stdlib Require Import ZArith Lia.
From stdpp Require Import base decidable option strings numbers gmap list.

Open Scope Z_scope.
Open Scope string_scope.
Open Scope list_scope.
Open Scope nat_scope.

(** ** Insertion-ordered dictionaries *)

Section dict.
Context {K V : Type} `{EqDecision K}.

Fixpoint dict_get (k : K) (d : list (K * V)) : option V :=
  match d with
  | [] => None
  | (k', v) :: d' => if decide (k = k') then Some v else dict_get k d'
  end.

(** [d[k] = v]: an existing key keeps its position, a new key goes last. *)
Fixpoint dict_set (k : K) (v : V) (d : list (K * V)) : list (K * V) :=
  match d with
  | [] => [(k, v)]
  | (k', v') :: d' =>
      if decide (k = k') then (k, v) :: d' else (k', v') :: dict_set k v d'
  end.

(** [del d[k]] for a key that may be absent. *)
Fixpoint dict_del (k : K) (d : list (K * V)) : list (K * V) :=
  match d with
  | [] => []
  | (k', v') :: d' =>
      if decide (k = k') then dict_del k d' else (k', v') :: dict_del k d'
  end.

Definition dict_keys (d : list (K * V)) : list K := d.*1.

Definition dict_has (k : K) (d : list (K * V)) : bool :=
  bool_decide (is_Some (dict_get k d)).

(** [d.update(d')] *)
Definition dict_update (d d' : list (K * V)) : list (K * V) :=
  fold_left (λ acc kv, dict_set kv.1 kv.2 acc) d' d.
End dict.

(** ** Graph values *)

Abbreviation node := nat (only parsing).

(** An edge attribute dictionary, e.g. [{"weight": 3}]. *)
Abbreviation attrs := (list (string * Z)) (only parsing).

(** [networkx.Graph._adj]: node -> (neighbour -> attributes). The keys of
    the outer dictionary are the nodes of the graph, in insertion order. *)
Abbreviation Graph := (list (node * list (node * attrs))) (only parsing).

Definition empty_graph : Graph := [].

Definition nodes (g : Graph) : list node := dict_keys g.

Definition has_node (n : node) (g : Graph) : bool := dict_has n g.

Definition add_node (n : node) (g : Graph) : Graph :=
  if has_node n g then g else g ++ [(n, [])].

Definition add_nodes_from (ns : list node) (g : Graph) : Graph :=
  fold_left (λ acc n, add_node n acc) ns g.

(** The inner dictionary [g[u]] (empty for a node that is absent). *)
Definition adj_of (u : node) (g : Graph) : list (node * attrs) :=
  default [] (dict_get u g).

(** [g.add_edge(u, v, **dd)]: both endpoints are created when missing, the
    attributes are merged into the ones the edge already has, and the same
    dictionary is stored under [g[u][v]] and [g[v][u]]. *)
Definition add_edge (u v : node) (dd : attrs) (g : Graph) : Graph :=
  let g1 := add_node v (add_node u g) in
  let datadict := dict_update (default [] (dict_get v (adj_of u g1))) dd in
  let g2 := dict_set u (dict_set v datadict (adj_of u g1)) g1 in
  dict_set v (dict_set u datadict (adj_of v g2)) g2.

Definition add_edges_from (es : list (node * node * attrs)) (g : Graph) : Graph :=
  fold_left (λ acc e, add_edge e.1.1 e.1.2 e.2 acc) es g.

(** [g.remove_node(n)] for a node that is present: the node's own entry and
    every back entry in its neighbours' dictionaries go. *)
Definition remove_node (n : node) (g : Graph) : Graph :=
  let nbrs := dict_keys (adj_of n g) in
  let g1 := fold_left (λ acc u, dict_set u (dict_del n (adj_of u acc)) acc) nbrs g in
  dict_del n g1.

Definition neighbors (n : node) (g : Graph) : list node := dict_keys (adj_of n g).

(** [g.degree(n)]: a self-loop counts twice. *)
Definition degree (n : node) (g : Graph) : nat :=
  let nbrs := adj_of n g in
  length nbrs + (if dict_has n nbrs then 1 else 0).

(** [g.edges(data=True)]: every edge once, reported from the endpoint that
    comes first in node order. *)
Fixpoint edges_from (seen : list node) (g : Graph) : list (node * node * attrs) :=
  match g with
  | [] => []
  | (n, nbrs) :: g' =>
      omap (λ vd : node * attrs,
              if decide (vd.1 ∈ seen) then None else Some (n, vd.1, vd.2)) nbrs
      ++ edges_from (n :: seen) g'
  end.

Definition edges_data (g : Graph) : list (node * node * attrs) := edges_from [] g.

Definition edges (g : Graph) : list (node * node) := (edges_data g).*1.

(** [g.number_of_edges()], that is [g.size()]: half the sum of the degrees. *)
Definition number_of_edges (g : Graph) : nat :=
  sum_list (map (λ n, degree n g) (nodes g)) / 2.

Definition has_edge (u v : node) (g : Graph) : bool := dict_has v (adj_of u g).

(** [networkx.Graph(g)]: a new graph with the nodes of [g], then its edges
    added from each node's adjacency in turn. *)
Definition adjacency_items (g : Graph) : list (node * node * attrs) :=
  flat_map (λ un : node * list (node * attrs),
              map (λ vd : node * attrs, (un.1, vd.1, vd.2)) un.2) g.

Definition graph_copy (g : Graph) : Graph :=
  add_edges_from (adjacency_items g) (add_nodes_from (nodes g) empty_graph).

(** The weight function networkx derives from a key: the attribute under
    that key, 1 when the edge does not have it. *)
Definition weight_of (weight : string) (dd : attrs) : Z :=
  default 1%Z (dict_get weight dd).

(** ** Exceptions and results *)

(** The exceptions the program can end with. [Diverge] is not a Python
    exception: it marks a loop that does not finish within the bound the
    model gives it. [NoSuchObject] is a reference to no object, which no
    reference handed out by the store is. *)
Inductive exn : Set :=
  | NodeNotFound | NetworkXNoPath | NetworkXError | KeyError
  | StopIteration | ValueError | Diverge | NoSuchObject.

Inductive res (A : Type) : Type :=
  | Ok (a : A)
  | Err (e : exn).
Arguments Ok {A} a.
Arguments Err {A} e.

#[global] Instance exn_eq_dec : EqDecision exn.
Proof. solve_decision. Defined.

(** ** Heuristic shortest-path search (networkx [astar_path]) *)

(** A queue item [(priority, next(c), node, cost to reach, parent)]. *)
Record entry : Set := Entry {
  e_prio : Z; e_cnt : nat; e_node : node; e_dist : Z; e_parent : option node
}.

(** Tuple comparison as [heapq] does it: the counter is unique, so the
    comparison never looks past the second component. *)
Definition entry_leb (a b : entry) : bool :=
  (e_prio a <? e_prio b)%Z || ((e_prio a =? e_prio b)%Z && (e_cnt a <=? e_cnt b)).

(** [heappop]: the least item and the remaining items. The heap is kept as
    a plain list; only which item is least can be observed. *)
Fixpoint heappop (q : list entry) : option (entry * list entry) :=
  match q with
  | [] => None
  | e :: q' =>
      match heappop q' with
      | None => Some (e, [])
      | Some (m, r) => if entry_leb e m then Some (e, q') else Some (m, e :: r)
      end
  end.

Record astar_state : Type := AStar {
  queue : list entry;
  enqueued : gmap node (Z * Z);          (* node -> (cost, heuristic) *)
  explored : gmap node (option node);    (* node -> parent *)
  counter : nat                          (* next value of count() *)
}.

Definition astar_push (st : astar_state) (n : node) (ncost h : Z) (parent : node)
  : astar_state :=
  {| queue := Entry (ncost + h) (counter st) n ncost (Some parent) :: queue st;
     enqueued := <[n := (ncost, h)]> (enqueued st);
     explored := explored st;
     counter := S (counter st) |}.

Section astar.
Variable heuristic : node → node → Z.
Variable weight : string.
Variable target : node.

(** The body of [for neighbor, w in G_succ[curnode].items()]. *)
Definition astar_relax (curnode : node) (dist : Z) (st : astar_state)
    (nw : node * attrs) : astar_state :=
  let neighbor := nw.1 in
  let ncost := (dist + weight_of weight nw.2)%Z in
  match enqueued st !! neighbor with
  | Some (qcost, h) =>
      if (qcost <=? ncost)%Z then st else astar_push st neighbor ncost h curnode
  | None => astar_push st neighbor ncost (heuristic neighbor target) curnode
  end.

(** The walk back along [explored] once the target is popped. It ends at
    the entry whose parent is [None]; a cycle of parents never ends. *)
Fixpoint astar_walk_back (fuel : nat) (expl : gmap node (option node))
    (n : option node) (path : list node) : res (list node) :=
  match n with
  | None => Ok (reverse path)
  | Some m =>
      match fuel with
      | O => Err Diverge
      | S fuel' =>
          match expl !! m with
          | None => Err KeyError
          | Some p => astar_walk_back fuel' expl p (path ++ [m])
          end
      end
  end.

(** Whether a popped item is dropped: [None] stands for the [KeyError]
    of [enqueued[curnode]]. *)
Definition astar_skip (st : astar_state) (curnode : node) (dist : Z)
  : option bool :=
  match explored st !! curnode with
  | None => Some false
  | Some None => Some true   (* do not override the parent of the start *)
  | Some (Some _) =>
      match enqueued st !! curnode with
      | Some (qcost, _) => Some (qcost <? dist)%Z
      | None => None
      end
  end.

(** One round of [while queue:]: either the search ends ([inl]) or it
    goes on from a new state ([inr]). *)
Definition astar_step (g : Graph) (st : astar_state)
  : res (list node) + astar_state :=
  match heappop (queue st) with
  | None => inl (Err NetworkXNoPath)
  | Some (e, q') =>
      let curnode := e_node e in
      let dist := e_dist e in
      if decide (curnode = target) then
        inl (astar_walk_back (S (size (explored st))) (explored st)
               (e_parent e) [curnode])
      else
        match astar_skip st curnode dist with
        | None => inl (Err KeyError)
        | Some true =>
            inr {| queue := q'; enqueued := enqueued st;
                   explored := explored st; counter := counter st |}
        | Some false =>
            match dict_get curnode g with
            | None => inl (Err KeyError)
            | Some nbrs =>
                inr (fold_left (astar_relax curnode dist) nbrs
                       {| queue := q'; enqueued := enqueued st;
                          explored := <[curnode := e_parent e]> (explored st);
                          counter := counter st |})
            end
        end
  end.

(** [while queue: ...] *)
Fixpoint astar_loop (fuel : nat) (g : Graph) (st : astar_state) : res (list node) :=
  match fuel with
  | O => Err Diverge
  | S fuel' =>
      match astar_step g st with
      | inl r => r
      | inr st' => astar_loop fuel' g st'
      end
  end.
End astar.

(** The largest weight the search can see on an edge of [g]. *)
Definition max_weight (weight : string) (g : Graph) : Z :=
  foldr Z.max 0%Z (map (λ vd : node * attrs, weight_of weight vd.2) (flat_map snd g)).

(** A bound on the iterations of the search loop when no weight is
    negative: every push lowers the recorded cost of a node, and no cost
    exceeds [max_weight * number of nodes]. *)
Definition astar_fuel (weight : string) (g : Graph) : nat :=
  let n := length g in
  n * S (Z.to_nat (max_weight weight g) * n) + 2.

Definition astar_init (source : node) : astar_state :=
  {| queue := [Entry 0 0 source 0 None]; enqueued := ∅; explored := ∅; counter := 1 |}.

Definition astar_path (g : Graph) (source target : node)
    (heuristic : node → node → Z) (weight : string) : res (list node) :=
  if negb (has_node source g) then Err NodeNotFound
  else if negb (has_node target g) then Err NodeNotFound
  else astar_loop heuristic weight target (astar_fuel weight g) g (astar_init source).

(** [zip(path[:-1], path[1:])], also [itertools.pairwise]. *)
Fixpoint pairwise {A} (l : list A) : list (A * A) :=
  match l with
  | a :: (b :: _) as l' => (a, b) :: pairwise l'
  | _ => []
  end.

(** [g[u][v]]: the attributes of an edge, [KeyError] when there is none. *)
Definition edge_data (u v : node) (g : Graph) : res attrs :=
  match dict_get u g with
  | None => Err KeyError
  | Some nbrs => match dict_get v nbrs with None => Err KeyError | Some dd => Ok dd end
  end.

Fixpoint path_weight (g : Graph) (weight : string) (ps : list (node * node)) : res Z :=
  match ps with
  | [] => Ok 0%Z
  | (u, v) :: ps' =>
      match edge_data u v g with
      | Err e => Err e
      | Ok dd =>
          match path_weight g weight ps' with
          | Err e => Err e
          | Ok s => Ok (weight_of weight dd + s)%Z
          end
      end
  end.

Definition astar_path_length (g : Graph) (source target : node)
    (heuristic : node → node → Z) (weight : string) : res Z :=
  if negb (has_node source g && has_node target g) then Err NodeNotFound
  else match astar_path g source target heuristic weight with
       | Err e => Err e
       | Ok path => path_weight g weight (pairwise path)
       end.

(** ** Minimum spanning tree (networkx [minimum_spanning_tree], Kruskal) *)

(** [sorted(edges, key=itemgetter(0))]: a stable sort on the weight. *)
Fixpoint insert_by_weight (weight : string) (e : node * node * attrs)
    (l : list (node * node * attrs)) : list (node * node * attrs) :=
  match l with
  | [] => [e]
  | x :: l' =>
      if (weight_of weight e.2 <=? weight_of weight x.2)%Z then e :: l
      else x :: insert_by_weight weight e l'
  end.

Definition sort_by_weight (weight : string) (l : list (node * node * attrs))
  : list (node * node * attrs) :=
  foldr (insert_by_weight weight) [] l.

(** Kruskal's loop. The union-find structure is a labelling of the nodes
    by a representative; [subtrees[u] != subtrees[v]] compares labels and
    [union] relabels one class. *)
Fixpoint kruskal (es : list (node * node * attrs)) (subtrees : node → node)
  : list (node * node * attrs) :=
  match es with
  | [] => []
  | (u, v, d) :: es' =>
      if decide (subtrees u = subtrees v) then kruskal es' subtrees
      else
        let ru := subtrees u in
        let rv := subtrees v in
        (u, v, d) :: kruskal es' (λ x, if decide (subtrees x = rv) then ru else subtrees x)
  end.

Definition minimum_spanning_edges (g : Graph) (weight : string)
  : list (node * node * attrs) :=
  kruskal (sort_by_weight weight (edges_data g)) (λ x, x).

Definition minimum_spanning_tree (g : Graph) (weight : string) : Graph :=
  add_edges_from (minimum_spanning_edges g weight)
    (add_nodes_from (nodes g) empty_graph).

(** [itertools.combinations(l, 2)] *)
Fixpoint combinations2 {A} (l : list A) : list (A * A) :=
  match l with
  | [] => []
  | a :: l' => map (pair a) l' ++ combinations2 l'
  end.

(** ** The store of graph objects and the monad of the program *)

(** A reference to a graph object is its index in the store; a new object
    is appended, so a reference is never reused. *)
Abbreviation ref := nat (only parsing).
Abbreviation store := (list Graph) (only parsing).

Definition M (A : Type) : Type := store → res A * store.

#[global] Instance M_ret : MRet M := λ A a σ, (Ok a, σ).
#[global] Instance M_bind : MBind M := λ A B f m σ,
  match m σ with
  | (Ok a, σ') => f a σ'
  | (Err e, σ') => (Err e, σ')
  end.

Definition raise {A} (e : exn) : M A := λ σ, (Err e, σ).

Definition lift {A} (r : res A) : M A := λ σ, (r, σ).

(** [nx.Graph()] *)
Definition Graph_new : M ref := λ σ, (Ok (length σ), σ ++ [empty_graph]).

(** Read the current value of an object. *)
Definition get_graph (r : ref) : M Graph := λ σ,
  match σ !! r with
  | Some g => (Ok g, σ)
  | None => (Err NoSuchObject, σ)
  end.

(** Update an object in place. *)
Definition update_graph (r : ref) (f : Graph → Graph) : M unit := λ σ,
  match σ !! r with
  | Some g => (Ok tt, <[r := f g]> σ)
  | None => (Err NoSuchObject, σ)
  end.

(** [nx.Graph(g)] *)
Definition Graph_copy (r : ref) : M ref :=
  g ← get_graph r;
  r' ← Graph_new;
  update_graph r' (λ _, graph_copy g);;
  mret r'.

(** [for x in xs: body(x)] *)
Fixpoint for_ {A} (xs : list A) (body : A → M unit) : M unit :=
  match xs with
  | [] => mret tt
  | x :: xs' => body x;; for_ xs' body
  end.

(** A [for] loop that updates a local variable. *)
Fixpoint for_acc {A S} (xs : list A) (s : S) (body : S → A → M S) : M S :=
  match xs with
  | [] => mret s
  | x :: xs' => s' ← body s x; for_acc xs' s' body
  end.

Definition m_astar_path_length (g : ref) (source target : node)
    (heuristic : node → node → Z) (weight : string) : M Z :=
  gv ← get_graph g; lift (astar_path_length gv source target heuristic weight).

Definition m_astar_path (g : ref) (source target : node)
    (heuristic : node → node → Z) (weight : string) : M (list node) :=
  gv ← get_graph g; lift (astar_path gv source target heuristic weight).

(** [nx.minimum_spanning_tree(g, weight)]: the tree is a new graph. *)
Definition m_minimum_spanning_tree (g : ref) (weight : string) : M ref :=
  gv ← get_graph g;
  t ← Graph_new;
  update_graph t (λ _, minimum_spanning_tree gv weight);;
  mret t.

(** [g[u][v][key]] *)
Definition m_edge_attr (g : ref) (u v : node) (key : string) : M Z :=
  gv ← get_graph g;
  dd ← lift (edge_data u v gv);
  match dict_get key dd with
  | Some w => mret w
  | None => raise KeyError
  end.

(** [next(g.neighbors(n))] *)
Definition m_first_neighbor (g : ref) (n : node) : M node :=
  gv ← get_graph g;
  if negb (has_node n gv) then raise NetworkXError
  else match neighbors n gv with
       | [] => raise StopIteration
       | nb :: _ => mret nb
       end.

(** [g.remove_node(n)] *)
Definition m_remove_node (g : ref) (n : node) : M unit :=
  gv ← get_graph g;
  if negb (has_node n gv) then raise NetworkXError
  else update_graph g (remove_node n).

(** [l.remove(x)]: the first occurrence goes, [ValueError] when there is none. *)
Fixpoint list_remove (x : node) (l : list node) : res (list node) :=
  match l with
  | [] => Err ValueError
  | y :: l' =>
      if decide (x = y) then Ok l'
      else match list_remove x l' with
           | Ok r => Ok (y :: r)
           | Err e => Err e
           end
  end.

(** ** The module [kou_et_al.py] *)

Definition get_complete_distance_graph (g_original : ref)
    (terminal_nodes : list node) (heuristic_function : node → node → Z)
    (weight : string) : M ref :=
  g ← Graph_new;
  (* adding terminal nodes *)
  update_graph g (add_nodes_from terminal_nodes);;
  (* computing distances among terminals *)
  for_ (combinations2 terminal_nodes) (λ p,
    shortest_path_length ←
      m_astar_path_length g_original p.1 p.2 heuristic_function weight;
    update_graph g (add_edge p.1 p.2 [("weight", shortest_path_length)]));;
  mret g.

(** The body of [for node in leaf_non_terminal_nodes[:]]. *)
Definition prune_node (g : ref) (terminal_nodes : list node)
    (leaf_non_terminal_nodes : list node) (n : node) : M (list node) :=
  neighbour ← m_first_neighbor g n;
  let leaf_non_terminal_nodes :=
    if decide (neighbour ∈ terminal_nodes) then leaf_non_terminal_nodes
    else leaf_non_terminal_nodes ++ [neighbour] in
  leaf_non_terminal_nodes ← lift (list_remove n leaf_non_terminal_nodes);
  m_remove_node g n;;
  mret leaf_non_terminal_nodes.

(** [while leaf_non_terminal_nodes: for node in leaf_non_terminal_nodes[:]: ...] *)
Fixpoint prune_loop (fuel : nat) (g : ref) (terminal_nodes : list node)
    (leaf_non_terminal_nodes : list node) : M unit :=
  match leaf_non_terminal_nodes with
  | [] => mret tt
  | _ :: _ =>
      match fuel with
      | O => raise Diverge
      | S fuel' =>
          l ← for_acc leaf_non_terminal_nodes leaf_non_terminal_nodes
                 (prune_node g terminal_nodes);
          prune_loop fuel' g terminal_nodes l
      end
  end.

Definition is_leaf_non_terminal (gv : Graph) (terminal_nodes : list node)
    (n : node) : bool :=
  bool_decide (degree n gv = 1) && negb (bool_decide (n ∈ terminal_nodes)).

Definition remove_redundant_nodes (g_original : ref)
    (terminal_nodes : list node) : M ref :=
  g ← Graph_copy g_original;
  (* collecting all leaf non-terminal nodes *)
  gv ← get_graph g;
  let leaf_non_terminal_nodes :=
    filter (λ n, is_leaf_non_terminal gv terminal_nodes n = true) (nodes gv) in
  (* retrace the chain of neighbors until a terminal node is encountered *)
  prune_loop (S (length (nodes gv))) g terminal_nodes leaf_non_terminal_nodes;;
  mret g.

Definition kou_et_al (g_original : ref) (heuristic_function : node → node → Z)
    (terminal_points : list node) (weight : string) : M ref :=
  (* construct the complete undirected distance graph *)
  g1 ← get_complete_distance_graph g_original terminal_points
         heuristic_function weight;
  (* find the MST *)
  g2 ← m_minimum_spanning_tree g1 weight;
  (* use the MST as a guide to construct the subgraph of the original graph *)
  g3 ← Graph_new;
  (* for each edge, search shortest from begin to target and add it *)
  g2v ← get_graph g2;
  for_ (edges g2v) (λ se,
    shortest_path ← m_astar_path g_original se.1 se.2 heuristic_function weight;
    for_ (pairwise shortest_path) (λ e,
      w ← m_edge_attr g_original e.1 e.2 weight;
      update_graph g3 (add_edge e.1 e.2 [("weight", w)])));;
  (* apply the MST on the sub graph *)
  g4 ← m_minimum_spanning_tree g3 weight;
  (* construct the steiner tree by pruning the MST of the subgraph *)
  g5 ← remove_redundant_nodes g4 terminal_points;
  mret g5.

(** ** The heuristic of the test suite ([test_kou.py]) *)

(** [KouTests.__taxicab_distance]: grid nodes are pairs of integers. *)
Definition taxicab_distance (p1 p2 : Z * Z) : Z :=
  let '(x1, y1) := p1 in
  let '(x2, y2) := p2 in
  (Z.abs (x1 - x2) + Z.abs (y1 - y2))%Z.

(** ** Observations on runs, and the program logic *)

(** The graph a run returns, read from the final store. *)
Definition result_graph (out : res ref * store) : res Graph :=
  match out with
  | (Ok r, σ) => match σ !! r with Some g => Ok g | None => Err NoSuchObject end
  | (Err e, _) => Err e
  end.

Definition is_failure {A} (out : res A * store) : Prop :=
  match out with (Err _, _) => True | (Ok _, _) => False end.

(** [hoare P m Q E]: from a store satisfying [P], [m] either returns a
    value and a store satisfying [Q], or raises an exception satisfying
    [E]. Runs are total functions, so this is total correctness. *)
Definition hoare {A} (P : store → Prop) (m : M A)
    (Q : A → store → Prop) (E : exn → store → Prop) : Prop :=
  ∀ σ, P σ → match m σ with (Ok a, σ') => Q a σ' | (Err e, σ') => E e σ' end.

(** ** Graph predicates *)

(** [g[u].get(v)] *)
Definition edge_lookup (g : Graph) (u v : node) : option attrs :=
  dict_get v (adj_of u g).

(** The attributes [add_edge] stores for the edge. *)
Definition merged_attrs (g : Graph) (u v : node) (dd : attrs) : attrs :=
  dict_update (default [] (edge_lookup g u v)) dd.

(** Equality of graphs as networkx has it: the same nodes and the same
    adjacency, whatever the insertion order of the dictionaries. *)
Definition graph_equal (g1 g2 : Graph) : Prop :=
  (∀ n, has_node n g1 = has_node n g2) ∧
  (∀ u v, edge_lookup g1 u v = edge_lookup g2 u v).

(** The shape every graph built through the networkx interface has: no key
    twice in any dictionary, and [g[u][v]] and [g[v][u]] the same. *)
Definition wf_graph (g : Graph) : bool :=
  bool_decide (NoDup (nodes g)) &&
  forallb (λ un : node * list (node * attrs),
    bool_decide (NoDup (dict_keys un.2)) &&
    forallb (λ vd : node * attrs,
      bool_decide (NoDup (dict_keys vd.2)) &&
      bool_decide (edge_lookup g vd.1 un.1 = Some vd.2)) un.2) g.

(** No edge of [g] has a negative weight under the key [weight]. *)
Definition nonneg_weights (weight : string) (g : Graph) : bool :=
  forallb (λ vd : node * attrs, (0 <=? weight_of weight vd.2)%Z) (flat_map snd g).


(** There is a path from [u] to [v] in [g]. *)
Inductive reachable (g : Graph) : node → node → Prop :=
  | reach_refl u : has_node u g = true → reachable g u u
  | reach_step u v w :
      has_node u g = true → has_edge u v g = true → reachable g v w → reachable g u w.

Definition connected (g : Graph) : Prop :=
  ∀ u v, u ∈ nodes g → v ∈ nodes g → reachable g u v.

(** [wf_graph] spelled out through lookups. *)
Definition WF (g : Graph) : Prop :=
  NoDup (nodes g) ∧
  (∀ u, NoDup (dict_keys (adj_of u g))) ∧
  (∀ u v dd, edge_lookup g u v = Some dd →
     NoDup (dict_keys dd) ∧ edge_lookup g v u = Some dd).

(** [g'] is [g] restricted to some of its nodes: no new node, and between
    the nodes that are left the edges of [g], with their attributes. *)
Definition induced_subgraph (g' g : Graph) : Prop :=
  (∀ n, n ∈ nodes g' → n ∈ nodes g) ∧
  (∀ x y, x ∈ nodes g' → y ∈ nodes g' → edge_lookup g' x y = edge_lookup g x y).

(** [g'] is made of nodes and edges of [G], each edge carrying the one
    attribute ["weight"] with the value [G] has for it under [weight]. *)
Definition weighted_subgraph (G : Graph) (weight : string) (g' : Graph) : Prop :=
  (∀ n, n ∈ nodes g' → n ∈ nodes G) ∧
  ∀ x y dd, edge_lookup g' x y = Some dd →
    ∃ w ddG, dd = [("weight", w)] ∧ edge_lookup G x y = Some ddG
             ∧ dict_get weight ddG = Some w.

(** Every node of degree 1 is a terminal. *)
Definition no_non_terminal_leaf (g : Graph) (terminals : list node) : bool :=
  forallb (λ n, negb (is_leaf_non_terminal g terminals n)) (nodes g).

(** ** Example inputs *)

Definition unit_weight (z : Z) : attrs := [("weight", z)].

(** Terminals 0, 1, 2 and Steiner points 3, 4, 5. The two routes from 1 to
    3, through 5 and through 4, close a cycle; the direct edge 0–2 is long. *)
Definition G_cycle : Graph :=
  add_edges_from
    [(0, 3, unit_weight 1); (2, 3, unit_weight 1); (3, 5, unit_weight 1);
     (5, 1, unit_weight 1); (3, 4, unit_weight 1); (4, 1, unit_weight 2);
     (0, 2, unit_weight 100)]
    empty_graph.

(** A heuristic that overestimates towards target 2 at nodes 5 and 3. *)
Definition h_over (n target : node) : Z :=
  if decide (target = 2) then
    if decide (n = 5) then 5000%Z else if decide (n = 3) then 1000%Z else 0%Z
  else 0%Z.

Definition h_zero (n target : node) : Z := 0%Z.

(** The spanning tree of the expanded paths on [G_cycle] (the value of
    [g4] in that run): a star around 3 with leaf 4 and the arm 3–5–1. *)
Definition T_star : Graph :=
  add_edges_from
    [(1, 5, unit_weight 1); (5, 3, unit_weight 1); (3, 0, unit_weight 1);
     (3, 4, unit_weight 1); (3, 2, unit_weight 1)]
    (add_nodes_from [1; 5; 3; 0; 4; 2] empty_graph).

(** The tree 3–0, 3–4, 3–5, 5–1: the terminals 0 and 1 hang on the Steiner
    nodes 3 and 5, and 4 is a leaf at 3. *)
Definition T_branch : Graph :=
  add_edges_from
    [(3, 0, unit_weight 1); (3, 4, unit_weight 1); (3, 5, unit_weight 1);
     (5, 1, unit_weight 1)]
    empty_graph.

(** One edge without any attribute, and the same edge with weight 1. *)
Definition G_bare : Graph := add_edge 0 1 [] empty_graph.
Definition G_unit : Graph := add_edge 0 1 (unit_weight 1) empty_graph.

(** Two components: 0–1 and 2–3. *)
Definition G_split : Graph :=
  add_edges_from [(0, 1, unit_weight 1); (2, 3, unit_weight 1)] empty_graph.

(** The path graph 0–1–2 of Scenario B. *)
Definition G_path : Graph :=
  add_edges_from [(0, 1, unit_weight 1); (1, 2, unit_weight 1)] empty_graph.

(** ** Frames *)

(** [preserves σ0 m Q]: run from any store that extends [σ0], [m] leaves
    the objects of [σ0] as they are, whether it returns or raises, and a
    returned value satisfies [Q]. *)
Definition preserves {A} (σ0 : store) (m : M A) (Q : A → Prop) : Prop :=
  hoare (λ σ, σ0 `prefix_of` σ) m
    (λ a σ, σ0 `prefix_of` σ ∧ Q a) (λ _ σ, σ0 `prefix_of` σ).

(** A reference that is not one of the objects of [σ0]. *)
Definition fresh_for (σ0 : store) (r : ref) : Prop := length σ0 ≤ r.

(** ** The invariant of the search loop *)

(** The order in which the walk back descends: a smaller cost at the last
    expansion, or the same cost and an earlier expansion. *)
Definition lex_lt (a b : Z * nat) : Prop :=
  (a.1 < b.1)%Z ∨ (a.1 = b.1 ∧ a.2 < b.2).

Definition cost_cap (weight : string) (g : Graph) : nat :=
  Z.to_nat (max_weight weight g) * length g.

Definition node_potential (weight : string) (g : Graph)
    (enq : gmap node (Z * Z)) (v : node) : nat :=
  match enq !! v with
  | Some (c, _) => Z.to_nat c
  | None => S (cost_cap weight g)
  end.

(** What is left to do: every push lowers the potential of a node, every
    pop shortens the queue. *)
Definition astar_measure (weight : string) (g : Graph) (st : astar_state) : nat :=
  sum_list (map (node_potential weight g (enqueued st)) (nodes g))
  + length (queue st).

Definition entry_key (e : entry) : node * Z := (e_node e, e_dist e).

Section astar_invariant.
Variables (weight : string) (g : Graph) (source target : node).

(** [rank v] is the cost and the time of the last expansion of [v],
    [clock] the time of the next one; [pending u v] excuses the
    neighbours of the node under expansion that are still to be relaxed. *)
Record astar_inv (rank : node → Z * nat) (clock : nat)
    (pending : node → node → Prop) (st : astar_state) : Prop := {
  inv_enq_bound : ∀ v c h, enqueued st !! v = Some (c, h) →
    v ∈ nodes g ∧ (0 ≤ c ≤ max_weight weight g * Z.of_nat (size (enqueued st)))%Z;
  inv_queue_bound : ∀ e, e ∈ queue st →
    (0 ≤ e_dist e ≤ max_weight weight g * Z.of_nat (size (enqueued st)))%Z;
  inv_queue_reach : ∀ e, e ∈ queue st → reachable g source (e_node e);
  inv_first : ∀ e, e ∈ queue st → e_parent e = None →
    queue st = [e] ∧ explored st = ∅ ∧ e_node e = source;
  inv_source : is_Some (explored st !! source)
               ∨ ∃ e, e ∈ queue st ∧ e_node e = source;
  inv_target : explored st !! target = None;
  inv_enq_cover : ∀ v, is_Some (enqueued st !! v) →
    is_Some (explored st !! v) ∨ ∃ e, e ∈ queue st ∧ e_node e = v;
  inv_closed : ∀ u v, is_Some (explored st !! u) →
    is_Some (edge_lookup g u v) →
    is_Some (enqueued st !! v) ∨ pending u v;
  inv_queue_parent : ∀ e p, e ∈ queue st → e_parent e = Some p →
    is_Some (explored st !! p) ∧ ((rank p).1 ≤ e_dist e)%Z ∧
    is_Some (edge_lookup g p (e_node e)) ∧
    ∃ c h, enqueued st !! e_node e = Some (c, h) ∧ (c ≤ e_dist e)%Z;
  inv_parent : ∀ v p, explored st !! v = Some (Some p) →
    is_Some (explored st !! p) ∧ lex_lt (rank p) (rank v) ∧
    is_Some (edge_lookup g p v) ∧
    (∃ c h, enqueued st !! v = Some (c, h) ∧ (c ≤ (rank v).1)%Z) ∧
    (∀ e, e ∈ queue st → e_node e = v → e_dist e ≠ (rank v).1);
  inv_clock : ∀ v, is_Some (explored st !! v) → (rank v).2 < clock;
  inv_queue_nodup : NoDup (map entry_key (queue st))
}.

Definition astar_ok (st : astar_state) : Prop :=
  ∃ rank clock, astar_inv rank clock (λ _ _, False) st.
End astar_invariant.

(** The explored nodes that do not rank above [m]. *)
Definition rank_below (rank : node → Z * nat) (expl : gmap node (option node))
    (m : node) : gset node :=
  filter (λ v, ¬ lex_lt (rank m) (rank v)) (dom expl).

(** * Properties *)

(** ** Rules of the program logic *)

Section logic.
Context {A B : Type}.

Lemma hoare_ret (a : A) (Q : A → store → Prop) E :
  hoare (Q a) (mret a) Q E.
Proof. intros σ H. exact H. Qed.

Lemma hoare_raise (e : exn) (Q : A → store → Prop) (E : exn → store → Prop) :
  hoare (E e) (raise e) Q E.
Proof. intros σ H. exact H. Qed.

Lemma hoare_bind (P : store → Prop) (m : M A) (k : A → M B)
    (R : A → store → Prop) (Q : B → store → Prop) E :
  hoare P m R E → (∀ a, hoare (R a) (k a) Q E) → hoare P (m ≫= k) Q E.
Proof.
  intros Hm Hk σ HP. specialize (Hm σ HP).
  unfold mbind, M_bind. destruct (m σ) as [[a|e] σ']; [|exact Hm].
  apply (Hk a σ' Hm).
Qed.

Lemma hoare_conseq (P P' : store → Prop) (m : M A)
    (Q Q' : A → store → Prop) (E E' : exn → store → Prop) :
  hoare P' m Q' E' → (∀ σ, P σ → P' σ) → (∀ a σ, Q' a σ → Q a σ) →
  (∀ e σ, E' e σ → E e σ) → hoare P m Q E.
Proof.
  intros Hm HP HQ HE σ H. specialize (Hm σ (HP σ H)).
  destruct (m σ) as [[a|e] σ']; eauto.
Qed.

Lemma hoare_lift (r : res A) (P : store → Prop) :
  hoare P (lift r)
    (λ a σ, r = Ok a ∧ P σ) (λ e σ, r = Err e ∧ P σ).
Proof. intros σ H. unfold lift. destruct r; auto. Qed.
End logic.

Lemma hoare_for {A} (xs : list A) (body : A → M unit)
    (I : list A → store → Prop) (E : exn → store → Prop) :
  (∀ done x, (∃ rest, xs = done ++ x :: rest) →
     hoare (I done) (body x) (λ _, I (done ++ [x])) E) →
  hoare (I []) (for_ xs body) (λ _, I xs) E.
Proof.
  intros Hbody.
  cut (∀ rest done, xs = done ++ rest →
         hoare (I done) (for_ rest body) (λ _, I xs) E).
  { intros H. apply (H xs []). reflexivity. }
  induction rest as [|x rest IH]; intros done Hxs; simpl.
  - rewrite app_nil_r in Hxs. subst. intros σ H. exact H.
  - eapply hoare_bind.
    + apply Hbody. eauto.
    + intros []. apply IH. rewrite <- app_assoc. exact Hxs.
Qed.

Lemma hoare_for_acc {A S} (xs : list A) (s : S) (body : S → A → M S)
    (I : S → store → Prop) (E : exn → store → Prop) :
  (∀ s x, x ∈ xs → hoare (I s) (body s x) I E) →
  hoare (I s) (for_acc xs s body) I E.
Proof.
  revert s. induction xs as [|x xs IH]; intros s Hbody; simpl.
  - intros σ H. exact H.
  - eapply hoare_bind.
    + apply Hbody. left.
    + intros s'. apply IH. intros s0 y Hy. apply Hbody. right. exact Hy.
Qed.

(** ** Primitive operations on the store *)

Lemma hoare_Graph_new (P : store → Prop) :
  hoare P Graph_new
    (λ r σ', ∃ σ, P σ ∧ r = length σ ∧ σ' = σ ++ [empty_graph]) (λ _ _, False).
Proof. intros σ H. simpl. eauto. Qed.

Lemma hoare_get_graph (r : ref) (P : store → Prop) :
  hoare P (get_graph r)
    (λ g σ, σ !! r = Some g ∧ P σ) (λ e σ, e = NoSuchObject ∧ σ !! r = None ∧ P σ).
Proof. intros σ H. unfold get_graph. destruct (σ !! r) eqn:Hr; auto. Qed.

Lemma hoare_update_graph (r : ref) (f : Graph → Graph) (P : store → Prop) :
  hoare P (update_graph r f)
    (λ _ σ', ∃ σ g, P σ ∧ σ !! r = Some g ∧ σ' = <[r := f g]> σ)
    (λ e σ, e = NoSuchObject ∧ σ !! r = None ∧ P σ).
Proof. intros σ H. unfold update_graph. destruct (σ !! r) eqn:Hr; eauto. Qed.

(** ** Frame rules: what a run leaves untouched *)

Lemma prefix_insert_fresh (σ0 σ : store) (r : ref) (g : Graph) :
  σ0 `prefix_of` σ → fresh_for σ0 r → σ0 `prefix_of` <[r := g]> σ.
Proof.
  intros [τ ->] Hr. unfold fresh_for in Hr.
  rewrite insert_app_r_alt by lia. by eexists.
Qed.

Lemma prefix_snoc (σ0 σ : store) (g : Graph) :
  σ0 `prefix_of` σ → σ0 `prefix_of` σ ++ [g].
Proof. intros [τ ->]. rewrite <- app_assoc. by eexists. Qed.

Lemma preserves_ret {A} σ0 (a : A) (Q : A → Prop) :
  Q a → preserves σ0 (mret a) Q.
Proof. intros HQ σ H. split; assumption. Qed.

Lemma preserves_raise {A} σ0 (e : exn) (Q : A → Prop) :
  preserves σ0 (raise e) Q.
Proof. intros σ H. exact H. Qed.

Lemma preserves_lift {A} σ0 (r : res A) :
  preserves σ0 (lift r) (λ _, True).
Proof. intros σ H. unfold lift. destruct r; auto. Qed.

Lemma preserves_bind {A B} σ0 (m : M A) (k : A → M B)
    (R : A → Prop) (Q : B → Prop) :
  preserves σ0 m R → (∀ a, R a → preserves σ0 (k a) Q) →
  preserves σ0 (m ≫= k) Q.
Proof.
  intros Hm Hk σ HP. specialize (Hm σ HP).
  unfold mbind, M_bind. destruct (m σ) as [[a|e] σ']; [|exact Hm].
  destruct Hm as [Hpre HR]. apply (Hk a HR σ' Hpre).
Qed.

Lemma preserves_weaken {A} σ0 (m : M A) (Q Q' : A → Prop) :
  preserves σ0 m Q → (∀ a, Q a → Q' a) → preserves σ0 m Q'.
Proof.
  intros Hm HQ σ HP. specialize (Hm σ HP).
  destruct (m σ) as [[a|e] σ']; [|exact Hm]. destruct Hm; auto.
Qed.

Lemma preserves_Graph_new σ0 : preserves σ0 Graph_new (fresh_for σ0).
Proof.
  intros σ H. simpl. split; [by apply prefix_snoc|].
  unfold fresh_for. by apply prefix_length.
Qed.

Lemma preserves_get_graph σ0 r : preserves σ0 (get_graph r) (λ _, True).
Proof. intros σ H. unfold get_graph. destruct (σ !! r); auto. Qed.

Lemma preserves_update_graph σ0 r f :
  fresh_for σ0 r → preserves σ0 (update_graph r f) (λ _, True).
Proof.
  intros Hr σ H. unfold update_graph. destruct (σ !! r); auto.
  split; [by apply prefix_insert_fresh|done].
Qed.

Lemma preserves_for {A} σ0 (xs : list A) (body : A → M unit) :
  (∀ x, preserves σ0 (body x) (λ _, True)) →
  preserves σ0 (for_ xs body) (λ _, True).
Proof.
  intros Hbody. induction xs as [|x xs IH]; simpl.
  - by apply preserves_ret.
  - eapply preserves_bind; [apply Hbody|]. intros _ _. exact IH.
Qed.

Lemma preserves_for_acc {A S} σ0 (xs : list A) (s : S) (body : S → A → M S) :
  (∀ s x, preserves σ0 (body s x) (λ _, True)) →
  preserves σ0 (for_acc xs s body) (λ _, True).
Proof.
  intros Hbody. revert s. induction xs as [|x xs IH]; intros s; simpl.
  - by apply preserves_ret.
  - eapply preserves_bind; [apply Hbody|]. intros s' _. apply IH.
Qed.

Create HintDb frame discriminated.
#[local] Hint Resolve preserves_lift preserves_get_graph preserves_update_graph
  preserves_raise : frame.

Ltac frame_step :=
  first
    [ eapply preserves_bind;
      [ first [ apply preserves_Graph_new | apply preserves_get_graph
              | apply preserves_lift | apply preserves_update_graph; assumption ]
      | intros ? ? ]
    | apply preserves_raise
    | by apply preserves_ret
    | apply preserves_lift
    | apply preserves_update_graph; assumption ].

Lemma preserves_Graph_copy σ0 r : preserves σ0 (Graph_copy r) (fresh_for σ0).
Proof. unfold Graph_copy. repeat frame_step. Qed.

Lemma preserves_minimum_spanning_tree σ0 r weight :
  preserves σ0 (m_minimum_spanning_tree r weight) (fresh_for σ0).
Proof. unfold m_minimum_spanning_tree. repeat frame_step. Qed.

Lemma preserves_astar_path_length σ0 r s t h weight :
  preserves σ0 (m_astar_path_length r s t h weight) (λ _, True).
Proof. unfold m_astar_path_length. repeat frame_step. Qed.

Lemma preserves_astar_path σ0 r s t h weight :
  preserves σ0 (m_astar_path r s t h weight) (λ _, True).
Proof. unfold m_astar_path. repeat frame_step. Qed.

Lemma preserves_edge_attr σ0 r u v key :
  preserves σ0 (m_edge_attr r u v key) (λ _, True).
Proof.
  unfold m_edge_attr. repeat frame_step.
  destruct (dict_get key _); repeat frame_step.
Qed.

Lemma preserves_first_neighbor σ0 r n :
  preserves σ0 (m_first_neighbor r n) (λ _, True).
Proof.
  unfold m_first_neighbor. repeat frame_step.
  destruct (negb _); [frame_step|]. destruct (neighbors _ _); frame_step.
Qed.

Lemma preserves_remove_node σ0 r n :
  fresh_for σ0 r → preserves σ0 (m_remove_node r n) (λ _, True).
Proof.
  intros Hr. unfold m_remove_node. repeat frame_step.
  destruct (negb _); frame_step.
Qed.

Lemma preserves_get_complete_distance_graph σ0 r T h weight :
  preserves σ0 (get_complete_distance_graph r T h weight) (fresh_for σ0).
Proof.
  unfold get_complete_distance_graph. repeat frame_step.
  eapply preserves_bind.
  { apply preserves_for. intros p.
    eapply preserves_bind; [apply preserves_astar_path_length|].
    intros; frame_step. }
  intros; frame_step.
Qed.

Lemma preserves_prune_node σ0 g T l n :
  fresh_for σ0 g → preserves σ0 (prune_node g T l n) (λ _, True).
Proof.
  intros Hg. unfold prune_node.
  eapply preserves_bind; [apply preserves_first_neighbor|]. intros nb _.
  repeat frame_step.
  eapply preserves_bind; [by apply preserves_remove_node|].
  intros; frame_step.
Qed.

Lemma preserves_prune_loop σ0 fuel g T l :
  fresh_for σ0 g → preserves σ0 (prune_loop fuel g T l) (λ _, True).
Proof.
  intros Hg. revert l. induction fuel as [|fuel IH]; intros [|n l];
    cbn [prune_loop].
  1,3: by apply preserves_ret.
  { apply preserves_raise. }
  eapply preserves_bind.
  { apply preserves_for_acc. intros. by apply preserves_prune_node. }
  intros; apply IH.
Qed.

Lemma preserves_remove_redundant_nodes σ0 r T :
  preserves σ0 (remove_redundant_nodes r T) (fresh_for σ0).
Proof.
  unfold remove_redundant_nodes.
  eapply preserves_bind; [apply preserves_Graph_copy|]. intros g Hg.
  repeat frame_step.
  eapply preserves_bind; [by apply preserves_prune_loop|].
  intros; frame_step.
Qed.

Lemma preserves_kou_et_al σ0 r h T weight :
  preserves σ0 (kou_et_al r h T weight) (fresh_for σ0).
Proof.
  unfold kou_et_al.
  eapply preserves_bind; [apply preserves_get_complete_distance_graph|].
  intros g1 _.
  eapply preserves_bind; [apply preserves_minimum_spanning_tree|].
  intros g2 _.
  repeat frame_step.
  eapply preserves_bind.
  { apply preserves_for. intros se.
    eapply preserves_bind; [apply preserves_astar_path|]. intros path _.
    apply preserves_for. intros e.
    eapply preserves_bind; [apply preserves_edge_attr|].
    intros; frame_step. }
  intros _ _.
  eapply preserves_bind; [apply preserves_minimum_spanning_tree|].
  intros g4 _.
  eapply preserves_bind; [apply preserves_remove_redundant_nodes|].
  intros g5 Hg5. frame_step.
Qed.

(** ** Running the primitives *)

Lemma run_bind {A B} (m : M A) (k : A → M B) σ a σ' :
  m σ = (Ok a, σ') → (m ≫= k) σ = k a σ'.
Proof. intros H. unfold mbind, M_bind. by rewrite H. Qed.

Lemma run_bind_err {A B} (m : M A) (k : A → M B) σ e σ' :
  m σ = (Err e, σ') → (m ≫= k) σ = (Err e, σ').
Proof. intros H. unfold mbind, M_bind. by rewrite H. Qed.

Lemma lookup_snoc_fresh (σ : store) (g : Graph) : (σ ++ [g]) !! length σ = Some g.
Proof. by rewrite lookup_app_r, Nat.sub_diag. Qed.

Lemma run_get_graph (σ : store) r g :
  σ !! r = Some g → get_graph r σ = (Ok g, σ).
Proof. intros H. unfold get_graph. by rewrite H. Qed.

Lemma run_update_fresh (σ : store) (g : Graph) f :
  update_graph (length σ) f (σ ++ [g]) = (Ok tt, σ ++ [f g]).
Proof.
  unfold update_graph. rewrite lookup_snoc_fresh.
  rewrite insert_app_r_alt, Nat.sub_diag by lia. reflexivity.
Qed.

Lemma run_Graph_copy (σ : store) r g :
  σ !! r = Some g → Graph_copy r σ = (Ok (length σ), σ ++ [graph_copy g]).
Proof.
  intros H. unfold Graph_copy.
  rewrite (run_bind _ _ _ _ _ (run_get_graph _ _ _ H)).
  unfold mbind at 1, M_bind, Graph_new.
  unfold mbind, M_bind. rewrite run_update_fresh. reflexivity.
Qed.

Lemma run_minimum_spanning_tree (σ : store) r g weight :
  σ !! r = Some g →
  m_minimum_spanning_tree r weight σ
  = (Ok (length σ), σ ++ [minimum_spanning_tree g weight]).
Proof.
  intros H. unfold m_minimum_spanning_tree.
  rewrite (run_bind _ _ _ _ _ (run_get_graph _ _ _ H)).
  unfold mbind at 1, M_bind, Graph_new.
  unfold mbind, M_bind. rewrite run_update_fresh. reflexivity.
Qed.

(** With no leaf to prune, the pruner returns the copy it made. *)
Lemma run_remove_redundant_nodes_no_leaf (σ : store) r g T :
  σ !! r = Some g →
  filter (λ n, is_leaf_non_terminal (graph_copy g) T n = true)
    (nodes (graph_copy g)) = [] →
  remove_redundant_nodes r T σ = (Ok (length σ), σ ++ [graph_copy g]).
Proof.
  intros H Hleaf. unfold remove_redundant_nodes.
  rewrite (run_bind _ _ _ _ _ (run_Graph_copy _ _ _ H)).
  rewrite (run_bind _ _ _ _ _ (run_get_graph _ _ _ (lookup_snoc_fresh _ _))).
  rewrite Hleaf. reflexivity.
Qed.

(** The distance graph of fewer than two terminals has no edge to compute. *)
Lemma run_get_complete_distance_graph_short (σ : store) r T h weight :
  combinations2 T = [] →
  get_complete_distance_graph r T h weight σ
  = (Ok (length σ), σ ++ [add_nodes_from T empty_graph]).
Proof.
  intros HT. unfold get_complete_distance_graph.
  unfold mbind at 1, M_bind, Graph_new.
  rewrite (run_bind _ _ _ _ _ (run_update_fresh _ _ _)).
  rewrite HT. reflexivity.
Qed.

(** [kou_et_al] on a terminal list without a pair: the accumulator of
    expanded paths stays empty, and so does everything after it. *)
Lemma run_kou_et_al_short (σ : store) r h T weight :
  combinations2 T = [] →
  result_graph (kou_et_al r h T weight σ) = Ok empty_graph.
Proof.
  intros HT. unfold kou_et_al.
  rewrite (run_bind _ _ _ _ _ (run_get_complete_distance_graph_short _ _ _ _ _ HT)).
  rewrite (run_bind _ _ _ _ _
             (run_minimum_spanning_tree _ _ _ _ (lookup_snoc_fresh _ _))).
  unfold mbind at 1, M_bind, Graph_new.
  assert (Hg2 : (((σ ++ [add_nodes_from T empty_graph])
                  ++ [minimum_spanning_tree (add_nodes_from T empty_graph) weight])
                  ++ [empty_graph])
                !! length (σ ++ [add_nodes_from T empty_graph])
                = Some (minimum_spanning_tree (add_nodes_from T empty_graph) weight)).
  { rewrite lookup_app_l by (rewrite !length_app; simpl; lia).
    apply lookup_snoc_fresh. }
  rewrite (run_bind _ _ _ _ _ (run_get_graph _ _ _ Hg2)).
  assert (He : edges (minimum_spanning_tree (add_nodes_from T empty_graph) weight) = []).
  { destruct T as [|t [|t' T]]; [reflexivity| |discriminate HT].
    unfold minimum_spanning_tree, minimum_spanning_edges, add_nodes_from. simpl.
    unfold add_node. simpl. reflexivity. }
  rewrite He. cbn [for_]. unfold mbind at 1, M_bind, mret, M_ret.
  rewrite (run_bind _ _ _ _ _
             (run_minimum_spanning_tree _ _ _ _ (lookup_snoc_fresh _ _))).
  change (minimum_spanning_tree empty_graph weight) with empty_graph.
  rewrite (run_bind _ _ _ _ _
             (run_remove_redundant_nodes_no_leaf _ _ empty_graph T
                (lookup_snoc_fresh _ _) eq_refl)).
  unfold mret, M_ret, result_graph. rewrite lookup_snoc_fresh. reflexivity.
Qed.

(** ** Dictionaries *)

Section dict_facts.
Context {K V : Type} `{EqDecision K}.
Implicit Types (k : K) (v : V) (d : list (K * V)).

Lemma dict_get_set k k' v d :
  dict_get k' (dict_set k v d) = if decide (k' = k) then Some v else dict_get k' d.
Proof.
  induction d as [|[k0 v0] d IH]; simpl.
  - repeat case_decide; congruence.
  - destruct (decide (k = k0)) as [->|Hne]; simpl.
    + repeat case_decide; congruence.
    + rewrite IH. repeat case_decide; congruence.
Qed.

Lemma dict_get_set_eq k v d : dict_get k (dict_set k v d) = Some v.
Proof. rewrite dict_get_set. by rewrite decide_True. Qed.

Lemma dict_get_set_ne k k' v d :
  k' ≠ k → dict_get k' (dict_set k v d) = dict_get k' d.
Proof. intros. rewrite dict_get_set. by rewrite decide_False. Qed.

Lemma dict_get_None k d : dict_get k d = None ↔ k ∉ dict_keys d.
Proof.
  unfold dict_keys. induction d as [|[k0 v0] d IH]; simpl.
  - split; [intros _; apply not_elem_of_nil|done].
  - case_decide as Hk.
    + split; [done|]. intros Hn. exfalso. apply Hn. subst. left.
    + rewrite IH. split; intros Hn.
      * intros Hin. apply elem_of_cons in Hin as [?|?]; [done|by apply Hn].
      * intros Hin. apply Hn. by right.
Qed.

Lemma dict_get_is_Some k d : is_Some (dict_get k d) ↔ k ∈ dict_keys d.
Proof.
  rewrite <- not_eq_None_Some, dict_get_None.
  split; [apply dec_stable|auto].
Qed.

Lemma dict_has_true k d : dict_has k d = true ↔ k ∈ dict_keys d.
Proof.
  unfold dict_has. rewrite <- dict_get_is_Some.
  split; [apply bool_decide_eq_true_1|apply bool_decide_eq_true_2].
Qed.

Lemma dict_has_false k d : dict_has k d = false ↔ k ∉ dict_keys d.
Proof.
  rewrite <- dict_has_true. destruct (dict_has k d); split; congruence.
Qed.

Lemma dict_get_elem_of k v d : dict_get k d = Some v → (k, v) ∈ d.
Proof.
  induction d as [|[k0 v0] d IH]; simpl; [done|].
  case_decide.
  - intros [= ->]. subst. left.
  - intros. right. auto.
Qed.

Lemma elem_of_dict_get k v d :
  NoDup (dict_keys d) → (k, v) ∈ d → dict_get k d = Some v.
Proof.
  unfold dict_keys. induction d as [|[k0 v0] d IH]; simpl.
  - intros _ H. by apply elem_of_nil in H.
  - rewrite NoDup_cons. intros [Hk0 Hnd] Hin.
    apply elem_of_cons in Hin as [[= -> ->]|Hin].
    + by rewrite decide_True.
    + rewrite decide_False; [auto|]. intros ->. apply Hk0.
      apply list_elem_of_fmap. by exists (k0, v).
Qed.

Lemma dict_get_app k d1 d2 :
  dict_get k (d1 ++ d2)
  = match dict_get k d1 with Some v => Some v | None => dict_get k d2 end.
Proof.
  induction d1 as [|[k0 v0] d1 IH]; simpl; [done|]. by case_decide.
Qed.

Lemma dict_set_id k v d : dict_get k d = Some v → dict_set k v d = d.
Proof.
  induction d as [|[k0 v0] d IH]; simpl; [done|].
  case_decide.
  - intros [= ->]. by subst.
  - intros. f_equal. auto.
Qed.

Lemma dict_set_fresh k v d : dict_get k d = None → dict_set k v d = d ++ [(k, v)].
Proof.
  induction d as [|[k0 v0] d IH]; simpl; [done|].
  case_decide; [done|]. intros. f_equal. auto.
Qed.

Lemma dict_keys_set_old k v d :
  k ∈ dict_keys d → dict_keys (dict_set k v d) = dict_keys d.
Proof.
  unfold dict_keys. induction d as [|[k0 v0] d IH]; simpl.
  - intros H. by apply elem_of_nil in H.
  - intros Hin. case_decide; simpl; [by subst|].
    f_equal. apply IH. apply elem_of_cons in Hin as [?|?]; [done|assumption].
Qed.

Lemma dict_keys_set_new k v d :
  k ∉ dict_keys d → dict_keys (dict_set k v d) = dict_keys d ++ [k].
Proof.
  intros Hk. apply dict_get_None in Hk. rewrite dict_set_fresh by done.
  unfold dict_keys. by rewrite fmap_app.
Qed.

Lemma dict_keys_set_NoDup k v d :
  NoDup (dict_keys d) → NoDup (dict_keys (dict_set k v d)).
Proof.
  intros Hnd. destruct (decide (k ∈ dict_keys d)).
  - by rewrite dict_keys_set_old.
  - rewrite dict_keys_set_new by done. apply NoDup_app.
    split; [done|]. split; [|apply NoDup_singleton].
    intros x Hx Hx'. apply list_elem_of_singleton in Hx'. by subst.
Qed.

Lemma elem_of_dict_keys_set k k' v d :
  k' ∈ dict_keys (dict_set k v d) ↔ k' = k ∨ k' ∈ dict_keys d.
Proof.
  rewrite <- !dict_get_is_Some, dict_get_set. case_decide.
  - split; [auto|]. intros _. eauto.
  - split; [auto|]. by intros [?|?].
Qed.

(** Updating a dictionary by one it already agrees with changes nothing. *)
Lemma dict_update_agree d d' :
  (∀ k v, (k, v) ∈ d' → dict_get k d = Some v) → dict_update d d' = d.
Proof.
  unfold dict_update. revert d. induction d' as [|[k v] d' IH]; intros d H; simpl.
  - done.
  - rewrite dict_set_id by (apply H; left). apply IH.
    intros k' v' Hin. apply H. by right.
Qed.

Lemma dict_update_same d : NoDup (dict_keys d) → dict_update d d = d.
Proof. intros Hnd. apply dict_update_agree. intros. by apply elem_of_dict_get. Qed.

Lemma dict_update_fresh d d' :
  NoDup (dict_keys d') → (∀ k, k ∈ dict_keys d' → k ∉ dict_keys d) →
  dict_update d d' = d ++ d'.
Proof.
  unfold dict_update, dict_keys. revert d.
  induction d' as [|[k v] d' IH]; intros d Hnd Hdisj; simpl.
  - by rewrite app_nil_r.
  - simpl in Hnd. apply NoDup_cons in Hnd as [Hk Hnd].
    rewrite dict_set_fresh.
    2:{ apply dict_get_None. apply Hdisj. left. }
    rewrite IH; [by rewrite <- app_assoc|done|].
    intros k' Hk'. unfold dict_keys. rewrite fmap_app, elem_of_app.
    intros [?|Heq]; [by eapply Hdisj; [right|]|].
    simpl in Heq. apply list_elem_of_singleton in Heq. by subst.
Qed.

Lemma dict_update_nil d : NoDup (dict_keys d) → dict_update [] d = d.
Proof.
  intros Hnd. rewrite dict_update_fresh; [done..|].
  intros k _. apply not_elem_of_nil.
Qed.

(** Two dictionaries with the same lookups list the same items. *)
Lemma dict_ext_Permutation d1 d2 :
  NoDup (dict_keys d1) → NoDup (dict_keys d2) →
  (∀ k, dict_get k d1 = dict_get k d2) → d1 ≡ₚ d2.
Proof.
  intros H1 H2 Hext. apply NoDup_Permutation.
  - eapply NoDup_fmap_1. exact H1.
  - eapply NoDup_fmap_1. exact H2.
  - intros [k v]. split; intros Hin.
    + apply dict_get_elem_of. rewrite <- Hext. by apply elem_of_dict_get.
    + apply dict_get_elem_of. rewrite Hext. by apply elem_of_dict_get.
Qed.
End dict_facts.

(** ** Graph values: nodes and adjacency after each update *)

Lemma has_node_true n (g : Graph) : has_node n g = true ↔ n ∈ nodes g.
Proof. apply dict_has_true. Qed.

Lemma has_node_false n (g : Graph) : has_node n g = false ↔ n ∉ nodes g.
Proof. apply dict_has_false. Qed.

Lemma nodes_add_node_old n (g : Graph) : n ∈ nodes g → add_node n g = g.
Proof. intros H. unfold add_node. apply has_node_true in H. by rewrite H. Qed.

Lemma nodes_add_node_new n (g : Graph) :
  n ∉ nodes g → add_node n g = g ++ [(n, [])].
Proof. intros H. unfold add_node. apply has_node_false in H. by rewrite H. Qed.

Lemma elem_of_nodes_add_node m n (g : Graph) :
  m ∈ nodes (add_node n g) ↔ m = n ∨ m ∈ nodes g.
Proof.
  destruct (decide (n ∈ nodes g)).
  - rewrite nodes_add_node_old by done. split; [auto|]. intros [->|?]; done.
  - rewrite nodes_add_node_new by done. unfold nodes, dict_keys.
    rewrite fmap_app, elem_of_app. simpl. rewrite list_elem_of_singleton. tauto.
Qed.

Lemma adj_of_add_node x n (g : Graph) : adj_of x (add_node n g) = adj_of x g.
Proof.
  destruct (decide (n ∈ nodes g)) as [Hin|Hnin].
  - by rewrite nodes_add_node_old.
  - rewrite nodes_add_node_new by done. unfold adj_of.
    rewrite dict_get_app. destruct (dict_get x g) eqn:Hx; [done|].
    simpl. by case_decide.
Qed.

Lemma NoDup_nodes_add_node n (g : Graph) :
  NoDup (nodes g) → NoDup (nodes (add_node n g)).
Proof.
  intros Hnd. destruct (decide (n ∈ nodes g)).
  - by rewrite nodes_add_node_old.
  - rewrite nodes_add_node_new by done. unfold nodes, dict_keys.
    rewrite fmap_app. apply NoDup_app. split; [done|].
    split; [|apply NoDup_singleton].
    intros x Hx Hx'. apply list_elem_of_singleton in Hx'. by subst.
Qed.

Lemma adj_of_dict_set x u nbrs (g : Graph) :
  adj_of x (dict_set u nbrs g) = if decide (x = u) then nbrs else adj_of x g.
Proof. unfold adj_of. rewrite dict_get_set. by case_decide. Qed.

Lemma adj_of_nil_not_node x (g : Graph) : x ∉ nodes g → adj_of x g = [].
Proof. intros H. unfold adj_of. apply dict_get_None in H. by rewrite H. Qed.

Lemma adj_of_add_edge x u v dd (g : Graph) :
  adj_of x (add_edge u v dd g)
  = if decide (x = v) then
      dict_set u (merged_attrs g u v dd)
        (if decide (v = u) then dict_set v (merged_attrs g u v dd) (adj_of u g)
         else adj_of v g)
    else if decide (x = u) then dict_set v (merged_attrs g u v dd) (adj_of u g)
    else adj_of x g.
Proof.
  unfold add_edge, merged_attrs, edge_lookup.
  rewrite !adj_of_dict_set, !adj_of_add_node. repeat case_decide; congruence.
Qed.

Lemma edge_lookup_add_edge x y u v dd (g : Graph) :
  edge_lookup (add_edge u v dd g) x y
  = if decide ((x = u ∧ y = v) ∨ (x = v ∧ y = u))
    then Some (merged_attrs g u v dd) else edge_lookup g x y.
Proof.
  unfold edge_lookup at 1. rewrite adj_of_add_edge.
  repeat case_decide; subst; rewrite ?dict_get_set; repeat case_decide;
    try done; exfalso; intuition congruence.
Qed.

Lemma nodes_add_edge u v dd (g : Graph) :
  nodes (add_edge u v dd g) = nodes (add_node v (add_node u g)).
Proof.
  unfold add_edge, nodes.
  rewrite !dict_keys_set_old; [done|..].
  - apply elem_of_nodes_add_node. right. apply elem_of_nodes_add_node. by left.
  - apply elem_of_dict_keys_set. right. apply elem_of_nodes_add_node. by left.
Qed.

Lemma nodes_add_edge_old u v dd (g : Graph) :
  u ∈ nodes g → v ∈ nodes g → nodes (add_edge u v dd g) = nodes g.
Proof.
  intros Hu Hv. rewrite nodes_add_edge.
  rewrite (nodes_add_node_old u) by done. by rewrite nodes_add_node_old.
Qed.

Lemma nodes_add_nodes_from ns (g : Graph) :
  NoDup ns → (∀ n, n ∈ ns → n ∉ nodes g) →
  nodes (add_nodes_from ns g) = nodes g ++ ns.
Proof.
  unfold add_nodes_from. revert g.
  induction ns as [|n ns IH]; intros g Hnd Hdisj; simpl.
  - by rewrite app_nil_r.
  - apply NoDup_cons in Hnd as [Hn Hnd].
    rewrite IH; [|done|].
    + rewrite nodes_add_node_new by (apply Hdisj; left).
      unfold nodes, dict_keys. rewrite fmap_app. simpl. by rewrite <- app_assoc.
    + intros m Hm. rewrite elem_of_nodes_add_node.
      intros [->|?]; [done|]. by eapply Hdisj; [right|].
Qed.

Lemma adj_of_add_nodes_from x ns (g : Graph) :
  adj_of x (add_nodes_from ns g) = adj_of x g.
Proof.
  unfold add_nodes_from. revert g. induction ns as [|n ns IH]; intros g; simpl.
  - done.
  - by rewrite IH, adj_of_add_node.
Qed.

Lemma elem_of_nodes_add_nodes_from m ns (g : Graph) :
  m ∈ nodes (add_nodes_from ns g) ↔ m ∈ ns ∨ m ∈ nodes g.
Proof.
  unfold add_nodes_from. revert g. induction ns as [|n ns IH]; intros g; simpl.
  - split; [auto|]. intros [H|?]; [by apply elem_of_nil in H|done].
  - rewrite IH, elem_of_nodes_add_node, elem_of_cons. tauto.
Qed.

Lemma NoDup_nodes_add_nodes_from ns (g : Graph) :
  NoDup (nodes g) → NoDup (nodes (add_nodes_from ns g)).
Proof.
  unfold add_nodes_from. revert g. induction ns as [|n ns IH]; intros g H; simpl.
  - done.
  - apply IH. by apply NoDup_nodes_add_node.
Qed.

(** ** Well-formed graphs *)

Lemma edge_lookup_node (g : Graph) u v dd :
  edge_lookup g u v = Some dd → u ∈ nodes g.
Proof.
  unfold edge_lookup, adj_of. intros H.
  apply dict_get_is_Some. destruct (dict_get u g); [done|]. simpl in H. done.
Qed.

Lemma WF_edge_nodes (g : Graph) u v dd :
  WF g → edge_lookup g u v = Some dd → u ∈ nodes g ∧ v ∈ nodes g.
Proof.
  intros (_ & _ & Hsym) H. split; [by eapply edge_lookup_node|].
  apply Hsym in H as [_ H]. by eapply edge_lookup_node.
Qed.

Lemma wf_graph_WF (g : Graph) : wf_graph g = true → WF g.
Proof.
  unfold wf_graph. rewrite andb_true_iff, bool_decide_eq_true.
  intros [Hnd Hall]. rewrite forallb_forall in Hall.
  assert (Hget : ∀ u nbrs, dict_get u g = Some nbrs →
            NoDup (dict_keys nbrs) ∧
            ∀ v dd, (v, dd) ∈ nbrs →
              NoDup (dict_keys dd) ∧ edge_lookup g v u = Some dd).
  { intros u nbrs Hu. apply dict_get_elem_of, list_elem_of_In, Hall in Hu.
    simpl in Hu. apply andb_true_iff in Hu as [Hk Hu].
    apply bool_decide_eq_true in Hk. split; [done|].
    rewrite forallb_forall in Hu. intros v dd Hv.
    apply list_elem_of_In, Hu in Hv. simpl in Hv.
    apply andb_true_iff in Hv as [H1 H2].
    by apply bool_decide_eq_true in H1, H2. }
  split; [done|]. split.
  - intros u. unfold adj_of. destruct (dict_get u g) eqn:Hu; simpl.
    + by apply Hget in Hu as [? _].
    + apply NoDup_nil_2.
  - intros u v dd. unfold edge_lookup at 1, adj_of.
    destruct (dict_get u g) eqn:Hu; simpl; [|done].
    intros Hv. apply Hget in Hu as [_ Hu]. by apply Hu, dict_get_elem_of.
Qed.

Lemma WF_add_nodes_from_empty ns : WF (add_nodes_from ns empty_graph).
Proof.
  split; [|split].
  - apply NoDup_nodes_add_nodes_from. apply NoDup_nil_2.
  - intros u. rewrite adj_of_add_nodes_from. apply NoDup_nil_2.
  - intros u v dd. unfold edge_lookup. by rewrite adj_of_add_nodes_from.
Qed.

Lemma merged_attrs_NoDup (g : Graph) u v dd :
  WF g → NoDup (dict_keys (merged_attrs g u v dd)).
Proof.
  intros (_ & _ & Hsym). unfold merged_attrs, dict_update.
  assert (H0 : NoDup (dict_keys (default [] (edge_lookup g u v)))).
  { destruct (edge_lookup g u v) eqn:He; simpl.
    - by apply Hsym in He as [? _].
    - apply NoDup_nil_2. }
  revert H0. generalize (default [] (edge_lookup g u v)).
  induction dd as [|[k z] dd IH]; intros d Hd; simpl; [done|].
  apply IH. by apply dict_keys_set_NoDup.
Qed.

Lemma WF_add_edge u v dd (g : Graph) : WF g → WF (add_edge u v dd g).
Proof.
  intros Hwf. pose proof Hwf as (Hnd & Hadj & Hsym). split; [|split].
  - rewrite nodes_add_edge. by do 2 apply NoDup_nodes_add_node.
  - intros x. rewrite adj_of_add_edge.
    repeat case_decide; repeat apply dict_keys_set_NoDup; apply Hadj.
  - intros x y a. rewrite !edge_lookup_add_edge.
    destruct (decide ((x = u ∧ y = v) ∨ (x = v ∧ y = u))) as [Hxy|Hxy].
    + intros [= <-]. split; [by apply merged_attrs_NoDup|].
      rewrite decide_True; [done|]. tauto.
    + intros Ha. rewrite decide_False by tauto. by apply Hsym.
Qed.

(** ** Copying a graph *)

Lemma elem_of_adjacency_items (g : Graph) x y dd :
  WF g → (x, y, dd) ∈ adjacency_items g ↔ edge_lookup g x y = Some dd.
Proof.
  intros (Hnd & Hadj & _). unfold adjacency_items.
  rewrite list_elem_of_In, in_flat_map. split.
  - intros [[u nbrs] [Hu Hin]]. simpl in Hin.
    apply in_map_iff in Hin as [[v a] [[= -> -> ->] Hv]].
    apply list_elem_of_In in Hu, Hv.
    apply elem_of_dict_get in Hu; [|done].
    unfold edge_lookup. specialize (Hadj x). unfold adj_of in *.
    rewrite Hu in *. simpl in *. by apply elem_of_dict_get.
  - unfold edge_lookup, adj_of. destruct (dict_get x g) as [nbrs|] eqn:Hx; [|done].
    simpl. intros Hy. exists (x, nbrs). split.
    + by apply list_elem_of_In, dict_get_elem_of.
    + simpl. apply in_map_iff. exists (y, dd). split; [done|].
      by apply list_elem_of_In, dict_get_elem_of.
Qed.

Lemma add_edges_from_agree (g : Graph) es (acc : Graph) :
  WF g → WF acc → nodes acc = nodes g →
  (∀ e, e ∈ es → edge_lookup g e.1.1 e.1.2 = Some e.2) →
  (∀ x y, edge_lookup acc x y = None ∨ edge_lookup acc x y = edge_lookup g x y) →
  WF (add_edges_from es acc) ∧ nodes (add_edges_from es acc) = nodes g ∧
  (∀ x y, edge_lookup (add_edges_from es acc) x y = None
          ∨ edge_lookup (add_edges_from es acc) x y = edge_lookup g x y) ∧
  (∀ x y a, edge_lookup acc x y = Some a →
            edge_lookup (add_edges_from es acc) x y = Some a) ∧
  (∀ e, e ∈ es → edge_lookup (add_edges_from es acc) e.1.1 e.1.2 = Some e.2).
Proof.
  intros Hg. unfold add_edges_from. revert acc.
  induction es as [|[[u v] dd] es IH]; intros acc Hacc Hnodes Hes Hagree; simpl.
  - split; [done|]. split; [done|]. split; [done|]. split; [done|].
    intros e He. by apply elem_of_nil in He.
  - pose proof (Hes (u, v, dd) ltac:(left)) as Huv. simpl in Huv.
    pose proof Hg as (_ & _ & Hsym).
    destruct (Hsym _ _ _ Huv) as [Hdd Hvu].
    destruct (WF_edge_nodes _ _ _ _ Hg Huv) as [Hu Hv].
    assert (Hm : merged_attrs acc u v dd = dd).
    { unfold merged_attrs. destruct (Hagree u v) as [Hn|Hs].
      - rewrite Hn. simpl. by apply dict_update_nil.
      - rewrite Hs, Huv. simpl. by apply dict_update_same. }
    assert (Hlook : ∀ x y, edge_lookup (add_edge u v dd acc) x y
              = if decide ((x = u ∧ y = v) ∨ (x = v ∧ y = u))
                then Some dd else edge_lookup acc x y).
    { intros. by rewrite edge_lookup_add_edge, Hm. }
    assert (Hnew : ∀ x y, (x = u ∧ y = v) ∨ (x = v ∧ y = u) →
              edge_lookup g x y = Some dd).
    { intros x y [[-> ->]|[-> ->]]; done. }
    destruct (IH (add_edge u v dd acc)) as (H1 & H2 & H3 & H4 & H5).
    + by apply WF_add_edge.
    + rewrite nodes_add_edge_old; [done|by rewrite Hnodes..].
    + intros e He. apply Hes. by right.
    + intros x y. rewrite Hlook. case_decide as Hc; [|apply Hagree].
      right. by rewrite (Hnew _ _ Hc).
    + split; [done|]. split; [done|]. split; [done|]. split.
      * intros x y a Ha. apply H4. rewrite Hlook. case_decide as Hc; [|done].
        destruct (Hagree x y) as [Hn|Hs]; [congruence|].
        rewrite <- Ha, Hs. symmetry. by apply Hnew.
      * intros e He. apply elem_of_cons in He as [->|He]; [|by apply H5].
        simpl. apply H4. rewrite Hlook, decide_True; [done|]. by left.
Qed.

Lemma graph_copy_spec (g : Graph) :
  WF g →
  WF (graph_copy g) ∧ nodes (graph_copy g) = nodes g ∧
  ∀ x y, edge_lookup (graph_copy g) x y = edge_lookup g x y.
Proof.
  intros Hg. unfold graph_copy.
  destruct (add_edges_from_agree g (adjacency_items g)
              (add_nodes_from (nodes g) empty_graph)) as (H1 & H2 & H3 & _ & H5).
  - done.
  - apply WF_add_nodes_from_empty.
  - rewrite nodes_add_nodes_from; [done|by destruct Hg|].
    intros n _. apply not_elem_of_nil.
  - intros [[x y] dd] He. simpl. by apply elem_of_adjacency_items.
  - intros x y. left. unfold edge_lookup. by rewrite adj_of_add_nodes_from.
  - split; [done|]. split; [done|]. intros x y.
    destruct (edge_lookup g x y) as [dd|] eqn:He.
    + apply (H5 (x, y, dd)). by apply elem_of_adjacency_items.
    + destruct (H3 x y) as [Hn|Hs]; congruence.
Qed.

Lemma graph_copy_equal (g : Graph) : WF g → graph_equal (graph_copy g) g.
Proof.
  intros Hg. destruct (graph_copy_spec g Hg) as (_ & Hn & He).
  split; [|done]. intros n. unfold has_node.
  apply bool_decide_ext. rewrite !dict_get_is_Some.
  change (n ∈ nodes (graph_copy g) ↔ n ∈ nodes g). by rewrite Hn.
Qed.

Lemma degree_ext (g1 g2 : Graph) x :
  WF g1 → WF g2 → (∀ y, edge_lookup g1 x y = edge_lookup g2 x y) →
  degree x g1 = degree x g2.
Proof.
  intros (_ & H1 & _) (_ & H2 & _) He. unfold degree.
  assert (Hp : adj_of x g1 ≡ₚ adj_of x g2).
  { apply dict_ext_Permutation; [apply H1|apply H2|apply He]. }
  rewrite (Permutation_length Hp). f_equal.
  unfold dict_has. specialize (He x). unfold edge_lookup in He.
  by rewrite He.
Qed.

Lemma filter_none {A} (P : A → Prop) `{∀ x, Decision (P x)} (l : list A) :
  (∀ x, x ∈ l → ¬ P x) → filter P l = [].
Proof.
  induction l as [|x l IH]; intros Hl; [done|].
  rewrite filter_cons_False by (apply Hl; left).
  apply IH. intros y Hy. apply Hl. by right.
Qed.

(** On a graph whose leaves are all terminals the pruner's worklist starts
    empty: the copy has the same nodes and the same degrees. *)
Lemma no_leaf_worklist_empty (g : Graph) T :
  WF g → no_non_terminal_leaf g T = true →
  filter (λ n, is_leaf_non_terminal (graph_copy g) T n = true)
    (nodes (graph_copy g)) = [].
Proof.
  intros Hg Hleaf. destruct (graph_copy_spec g Hg) as (Hc & Hn & He).
  apply filter_none. rewrite Hn. intros n Hin.
  unfold no_non_terminal_leaf in Hleaf. rewrite forallb_forall in Hleaf.
  apply list_elem_of_In, Hleaf in Hin. apply negb_true_iff in Hin.
  unfold is_leaf_non_terminal in *.
  rewrite (degree_ext (graph_copy g) g n) by done. congruence.
Qed.

(** ** The search: queue and potential *)

Lemma heappop_None q : heappop q = None ↔ q = [].
Proof.
  destruct q as [|e q]; simpl; [done|].
  destruct (heappop q) as [[m r]|]; [|done]. by destruct (entry_leb e m).
Qed.

Lemma heappop_Permutation q e q' : heappop q = Some (e, q') → q ≡ₚ e :: q'.
Proof.
  revert e q'. induction q as [|x q IH]; intros e q'; simpl; [done|].
  destruct (heappop q) as [[m r]|] eqn:Hq.
  - destruct (entry_leb x m); intros [= <- <-]; [done|].
    rewrite (IH _ _ eq_refl). apply perm_swap.
  - apply heappop_None in Hq. subst. by intros [= <- <-].
Qed.

Lemma sum_list_update (l : list node) (f f' : node → nat) v :
  NoDup l → v ∈ l → (∀ x, x ≠ v → f' x = f x) → f' v ≤ f v →
  sum_list (map f' l) + (f v - f' v) = sum_list (map f l).
Proof.
  intros Hnd Hin Hother Hle. induction l as [|x l IH]; simpl.
  - by apply elem_of_nil in Hin.
  - apply NoDup_cons in Hnd as [Hx Hnd].
    apply elem_of_cons in Hin as [->|Hin].
    + assert (Hl : map f' l = map f l).
      { apply map_ext_in. intros y Hy. apply Hother. intros ->.
        by apply Hx, list_elem_of_In. }
      rewrite Hl. lia.
    + rewrite (Hother x) by (intros ->; done). specialize (IH Hnd Hin). lia.
Qed.

Lemma max_weight_nonneg weight (g : Graph) : (0 ≤ max_weight weight g)%Z.
Proof.
  unfold max_weight. generalize (flat_map snd g). intros l.
  induction l as [|x l IH]; simpl; lia.
Qed.

Lemma max_weight_ge weight (g : Graph) u nbrs v (dd : attrs) :
  dict_get u g = Some nbrs → (v, dd) ∈ nbrs →
  (weight_of weight dd ≤ max_weight weight g)%Z.
Proof.
  intros Hu Hv. unfold max_weight.
  assert (Hin : (v, dd) ∈ flat_map snd g).
  { apply list_elem_of_In, in_flat_map. exists (u, nbrs).
    split; [by apply list_elem_of_In, dict_get_elem_of|by apply list_elem_of_In]. }
  revert Hin. generalize (flat_map snd g). intros l Hin.
  induction l as [|x l IH]; simpl.
  - by apply elem_of_nil in Hin.
  - apply elem_of_cons in Hin as [<-|Hin]; simpl; [lia|].
    specialize (IH Hin). lia.
Qed.

Lemma nonneg_weights_ge weight (g : Graph) u nbrs v (dd : attrs) :
  nonneg_weights weight g = true → dict_get u g = Some nbrs → (v, dd) ∈ nbrs →
  (0 ≤ weight_of weight dd)%Z.
Proof.
  unfold nonneg_weights. rewrite forallb_forall. intros Hall Hu Hv.
  assert (Hin : In (v, dd) (flat_map snd g)).
  { apply in_flat_map. exists (u, nbrs).
    split; [by apply list_elem_of_In, dict_get_elem_of|by apply list_elem_of_In]. }
  apply Hall in Hin. simpl in Hin. lia.
Qed.

Lemma size_enqueued_le (g : Graph) (enq : gmap node (Z * Z)) :
  (∀ v x, enq !! v = Some x → v ∈ nodes g) → size enq ≤ length (nodes g).
Proof.
  intros Hsub. rewrite <- size_dom.
  unfold size, set_size. simpl.
  apply submseteq_length, NoDup_submseteq; [apply NoDup_elements|].
  intros v Hv. apply elem_of_elements, elem_of_dom in Hv as [x Hx]. eauto.
Qed.

(** ** The search: reachability and edges *)

Lemma reachable_has_node_r (g : Graph) a b :
  reachable g a b → has_node b g = true.
Proof. induction 1; auto. Qed.

Lemma reachable_snoc (g : Graph) a b c :
  reachable g a b → has_edge b c g = true → has_node c g = true →
  reachable g a c.
Proof.
  intros Hab Hbc Hc. induction Hab as [u Hu|u v w Hu Huv Hvw IH].
  - apply (reach_step g u c c); [done..|]. by apply reach_refl.
  - apply (reach_step g u v c); auto.
Qed.

Lemma has_edge_true (g : Graph) u v :
  has_edge u v g = true ↔ is_Some (edge_lookup g u v).
Proof.
  unfold has_edge, edge_lookup, dict_has.
  split; [apply bool_decide_eq_true_1|apply bool_decide_eq_true_2].
Qed.

Lemma adjacency_edge_lookup (g : Graph) u nbrs v (dd : attrs) :
  WF g → dict_get u g = Some nbrs → (v, dd) ∈ nbrs →
  edge_lookup g u v = Some dd.
Proof.
  intros (_ & Hadj & _) Hu Hv. specialize (Hadj u).
  unfold edge_lookup, adj_of in *. rewrite Hu in *. simpl in *.
  by apply elem_of_dict_get.
Qed.

Lemma edge_lookup_adjacency (g : Graph) u v :
  is_Some (edge_lookup g u v) →
  ∃ nbrs, dict_get u g = Some nbrs ∧ v ∈ dict_keys nbrs.
Proof.
  unfold edge_lookup, adj_of. intros Hv.
  destruct (dict_get u g) as [nbrs|]; simpl in Hv.
  - exists nbrs. split; [done|]. by apply dict_get_is_Some.
  - by destruct Hv.
Qed.

Lemma WF_edge_target_node (g : Graph) u v :
  WF g → is_Some (edge_lookup g u v) → has_node v g = true.
Proof.
  intros Hwf [dd Hd]. apply has_node_true.
  by destruct (WF_edge_nodes g u v dd Hwf Hd).
Qed.

Lemma reachable_closed (g : Graph) (P : node → Prop) a b :
  reachable g a b → P a →
  (∀ u v, P u → is_Some (edge_lookup g u v) → P v) → P b.
Proof.
  intros Hab Ha Hstep. induction Hab as [|u v w Hu Huv Hvw IH]; [done|].
  apply IH. apply (Hstep u v Ha). by apply has_edge_true.
Qed.

(** ** The search: one relaxation keeps the invariant *)

Lemma node_potential_insert_ne weight (g : Graph) (enq : gmap node (Z * Z)) v x u :
  u ≠ v → node_potential weight g (<[v := x]> enq) u = node_potential weight g enq u.
Proof. intros Hne. unfold node_potential. by rewrite lookup_insert_ne. Qed.

Lemma astar_measure_push weight (g : Graph) st nb nc hv cur :
  NoDup (nodes g) → nb ∈ nodes g →
  node_potential weight g (<[nb := (nc, hv)]> (enqueued st)) nb
  < node_potential weight g (enqueued st) nb →
  astar_measure weight g (astar_push st nb nc hv cur) ≤ astar_measure weight g st.
Proof.
  intros Hnd Hin Hlt. unfold astar_measure, astar_push. simpl.
  pose proof (sum_list_update (nodes g)
                (node_potential weight g (enqueued st))
                (node_potential weight g (<[nb := (nc, hv)]> (enqueued st)))
                nb Hnd Hin) as Hsum.
  rewrite <- Hsum; [lia| |lia].
  intros x Hx. by apply node_potential_insert_ne.
Qed.

Section search_relax.
Variables (weight : string) (g : Graph) (source target : node).
Hypothesis Hwf : WF g.
Hypothesis Hnn : nonneg_weights weight g = true.

Lemma astar_push_inv rank clock cur d nbrs nb dd rest hv st :
  dict_get cur g = Some nbrs → (nb, dd) ∈ nbrs →
  astar_inv weight g source target rank clock
    (λ u v, u = cur ∧ v ∈ nb :: rest) st →
  is_Some (explored st !! cur) →
  ((rank cur).1 ≤ d)%Z →
  (0 ≤ d ≤ max_weight weight g * Z.of_nat (size (enqueued st)))%Z →
  reachable g source cur →
  (enqueued st !! nb = None
   ∨ ∃ qc hq, enqueued st !! nb = Some (qc, hq)
              ∧ (d + weight_of weight dd < qc)%Z) →
  astar_inv weight g source target rank clock (λ u v, u = cur ∧ v ∈ rest)
    (astar_push st nb (d + weight_of weight dd) hv cur)
  ∧ astar_measure weight g (astar_push st nb (d + weight_of weight dd) hv cur)
    ≤ astar_measure weight g st
  ∧ size (enqueued st)
    ≤ size (enqueued (astar_push st nb (d + weight_of weight dd) hv cur)).
Proof.
  intros Hcur Hnb Hinv Hexp Hrank Hd Hreach Hcase.
  destruct Hinv as [Ieb Iqb Iqr Ifi Iso Ita Iec Icl Iqp Ipa Ick Ind].
  pose proof (nonneg_weights_ge _ _ _ _ _ _ Hnn Hcur Hnb) as Hw0.
  pose proof (max_weight_ge weight _ _ _ _ _ Hcur Hnb) as Hwm.
  pose proof (max_weight_nonneg weight g) as Hm.
  pose proof (adjacency_edge_lookup _ _ _ _ _ Hwf Hcur Hnb) as Hedge.
  destruct (WF_edge_nodes _ _ _ _ Hwf Hedge) as [_ Hnbn].
  set (w := weight_of weight dd) in *. set (nc := (d + w)%Z) in *.
  set (m := max_weight weight g) in *.
  set (enq' := <[nb := (nc, hv)]> (enqueued st)).
  assert (F1 : size (enqueued st) ≤ size enq').
  { unfold enq'. rewrite map_size_insert. destruct (enqueued st !! nb); simpl; lia. }
  assert (F3 : ∀ c hc, enqueued st !! nb = Some (c, hc) → (nc < c)%Z).
  { intros c hc Hc. destruct Hcase as [Hn|(qc & hq & Hs & Hlt)]; [congruence|].
    rewrite Hs in Hc. by injection Hc as -> ->. }
  assert (F2 : (0 ≤ nc ≤ m * Z.of_nat (size enq'))%Z).
  { split; [lia|]. destruct Hcase as [Hn|(qc & hq & Hs & Hlt)].
    - unfold enq'. rewrite map_size_insert, Hn. simpl. nia.
    - destruct (Ieb _ _ _ Hs) as [_ Hqc]. nia. }
  assert (Hkeys : ∀ v x, enq' !! v = Some x → v ∈ nodes g).
  { intros v [c hc]. unfold enq'. rewrite lookup_insert.
    case_decide; [intros _; by subst|]. intros Hv. by destruct (Ieb _ _ _ Hv). }
  assert (F4 : node_potential weight g enq' nb
               < node_potential weight g (enqueued st) nb).
  { unfold node_potential, enq'. rewrite lookup_insert_eq.
    destruct (enqueued st !! nb) as [[c hc]|] eqn:Hc.
    - specialize (F3 _ _ eq_refl). lia.
    - pose proof (size_enqueued_le g enq' Hkeys) as Hsz.
      unfold cost_cap. unfold nodes, dict_keys in Hsz. rewrite length_fmap in Hsz.
      assert ((nc ≤ m * Z.of_nat (length g))%Z) by nia.
      assert (Z.to_nat (m * Z.of_nat (length g)) = Z.to_nat m * length g) as Heq.
      { rewrite Z2Nat.inj_mul by lia. by rewrite Nat2Z.id. }
      fold m. lia. }
  assert (Hnew_reach : reachable g source nb).
  { eapply reachable_snoc; [exact Hreach| |].
    - apply has_edge_true. by rewrite Hedge.
    - by apply has_node_true. }
  split; [|split].
  - constructor; simpl; fold enq'.
    + (* inv_enq_bound *)
      intros v c hc. unfold enq'. rewrite lookup_insert. case_decide.
      * intros [= <- <-]. subst v. split; [done|]. exact F2.
      * intros Hv. destruct (Ieb _ _ _ Hv) as [? ?]. split; [done|].
        fold enq'. nia.
    + (* inv_queue_bound *)
      intros e He. apply elem_of_cons in He as [->|He]; simpl; [exact F2|].
      specialize (Iqb _ He). nia.
    + (* inv_queue_reach *)
      intros e He. apply elem_of_cons in He as [->|He]; simpl; auto.
    + (* inv_first *)
      intros e He Hp. apply elem_of_cons in He as [->|He]; [done|].
      destruct (Ifi _ He Hp) as (_ & Hemp & _). rewrite Hemp in Hexp.
      rewrite lookup_empty in Hexp. by destruct Hexp.
    + (* inv_source *)
      destruct Iso as [?|(e & He & Hs)]; [by left|].
      right. exists e. split; [by right|done].
    + done.
    + (* inv_enq_cover *)
      intros v. unfold enq'. rewrite lookup_insert. case_decide.
      * intros _. right. eexists. split; [left|]. simpl. done.
      * intros Hv. destruct (Iec _ Hv) as [?|(e & He & Hs)]; [by left|].
        right. exists e. split; [by right|done].
    + (* inv_closed *)
      intros u v Hu Huv. destruct (decide (v = nb)) as [->|Hne].
      * left. unfold enq'. by rewrite lookup_insert_eq.
      * destruct (Icl _ _ Hu Huv) as [Hv|[-> Hv]].
        -- left. unfold enq'. by rewrite lookup_insert_ne.
        -- right. split; [done|].
           apply elem_of_cons in Hv as [?|?]; [done|assumption].
    + (* inv_queue_parent *)
      intros e p He Hp. apply elem_of_cons in He as [->|He]; simpl in *.
      * injection Hp as <-. split; [done|]. split; [lia|].
        split; [by rewrite Hedge|].
        exists nc, hv. split; [unfold enq'; by rewrite lookup_insert_eq|lia].
      * destruct (Iqp _ _ He Hp) as (H1 & H2 & H3 & c & hc & H4 & H5).
        split; [done|]. split; [done|]. split; [done|].
        unfold enq'. rewrite lookup_insert. case_decide as Hn.
        -- exists nc, hv. split; [done|]. rewrite <- Hn in H4.
           specialize (F3 _ _ H4). lia.
        -- by exists c, hc.
    + (* inv_parent *)
      intros v p Hv. destruct (Ipa _ _ Hv) as (H1 & H2 & H3 & (c & hc & H4 & H5) & H6).
      split; [done|]. split; [done|]. split; [done|]. split.
      * unfold enq'. rewrite lookup_insert. case_decide as Hn.
        -- exists nc, hv. split; [done|]. rewrite <- Hn in H4.
           specialize (F3 _ _ H4). lia.
        -- by exists c, hc.
      * intros e He Hen. apply elem_of_cons in He as [->|He]; [|by apply H6].
        simpl in *. subst v. specialize (F3 _ _ H4). lia.
    + done.
    + (* inv_queue_nodup *)
      apply NoDup_cons. split; [|done]. unfold entry_key at 1. simpl.
      intros Hin. apply list_elem_of_fmap in Hin as (e & Hk & He).
      unfold entry_key in Hk. injection Hk as Hk1 Hk2.
      destruct (e_parent e) as [p|] eqn:Hp.
      * destruct (Iqp _ _ He Hp) as (_ & _ & _ & c & hc & H4 & H5).
        rewrite <- Hk1 in H4. specialize (F3 _ _ H4). lia.
      * destruct (Ifi _ He Hp) as (_ & Hemp & _). rewrite Hemp in Hexp.
        rewrite lookup_empty in Hexp. by destruct Hexp.
  - apply astar_measure_push; [by destruct Hwf|done|exact F4].
  - exact F1.
Qed.

Lemma astar_inv_pending rank clock (P Q : node → node → Prop) st :
  astar_inv weight g source target rank clock P st →
  (∀ u v, P u v → is_Some (enqueued st !! v) ∨ Q u v) →
  astar_inv weight g source target rank clock Q st.
Proof.
  intros [Ieb Iqb Iqr Ifi Iso Ita Iec Icl Iqp Ipa Ick Ind] HPQ.
  constructor; try done.
  intros u v Hu Huv. destruct (Icl _ _ Hu Huv) as [?|HP]; [by left|].
  by apply HPQ.
Qed.

Lemma astar_relax_inv h rank clock cur d nbrs nb dd rest st :
  dict_get cur g = Some nbrs → (nb, dd) ∈ nbrs →
  astar_inv weight g source target rank clock
    (λ u v, u = cur ∧ v ∈ nb :: rest) st →
  is_Some (explored st !! cur) →
  ((rank cur).1 ≤ d)%Z →
  (0 ≤ d ≤ max_weight weight g * Z.of_nat (size (enqueued st)))%Z →
  reachable g source cur →
  astar_inv weight g source target rank clock (λ u v, u = cur ∧ v ∈ rest)
    (astar_relax h weight target cur d st (nb, dd))
  ∧ astar_measure weight g (astar_relax h weight target cur d st (nb, dd))
    ≤ astar_measure weight g st
  ∧ size (enqueued st)
    ≤ size (enqueued (astar_relax h weight target cur d st (nb, dd)))
  ∧ explored (astar_relax h weight target cur d st (nb, dd)) = explored st.
Proof.
  intros Hcur Hnb Hinv Hexp Hrank Hd Hreach.
  unfold astar_relax. simpl.
  destruct (enqueued st !! nb) as [[qc hq]|] eqn:Henq.
  - destruct (Z.leb_spec qc (d + weight_of weight dd)) as [Hle|Hlt].
    + split; [|split; [lia|split; [lia|done]]].
      eapply astar_inv_pending; [exact Hinv|].
      intros u v [-> Hv]. apply elem_of_cons in Hv as [->|Hv].
      * left. by rewrite Henq.
      * by right.
    + destruct (astar_push_inv rank clock cur d nbrs nb dd rest hq st)
        as (H1 & H2 & H3); try done.
      right. by exists qc, hq.
  - destruct (astar_push_inv rank clock cur d nbrs nb dd rest (h nb target) st)
      as (H1 & H2 & H3); try done.
    by left.
Qed.

Lemma astar_relax_fold_inv h rank clock cur d nbrs rest st :
  dict_get cur g = Some nbrs → (∀ x, x ∈ rest → x ∈ nbrs) →
  astar_inv weight g source target rank clock
    (λ u v, u = cur ∧ v ∈ rest.*1) st →
  is_Some (explored st !! cur) →
  ((rank cur).1 ≤ d)%Z →
  (0 ≤ d ≤ max_weight weight g * Z.of_nat (size (enqueued st)))%Z →
  reachable g source cur →
  astar_inv weight g source target rank clock (λ _ _, False)
    (fold_left (astar_relax h weight target cur d) rest st)
  ∧ astar_measure weight g (fold_left (astar_relax h weight target cur d) rest st)
    ≤ astar_measure weight g st.
Proof.
  intros Hcur. revert st.
  induction rest as [|[nb dd] rest IH]; intros st Hsub Hinv Hexp Hrank Hd Hreach.
  - simpl. split; [|lia]. eapply astar_inv_pending; [exact Hinv|].
    intros u v [_ Hv]. by apply elem_of_nil in Hv.
  - simpl.
    destruct (astar_relax_inv h rank clock cur d nbrs nb dd (rest.*1) st)
      as (H1 & H2 & H3 & H4); try done.
    { apply Hsub. left. }
    destruct (IH (astar_relax h weight target cur d st (nb, dd)))
      as [H5 H6]; try done.
    + intros x Hx. apply Hsub. by right.
    + by rewrite H4.
    + pose proof (max_weight_nonneg weight g). nia.
    + split; [done|lia].
Qed.
End search_relax.

(** ** The search: one round of the loop keeps the invariant *)

Section search_step.
Variables (weight : string) (g : Graph) (source target : node).
Hypothesis Hwf : WF g.
Hypothesis Hnn : nonneg_weights weight g = true.

Lemma popped_queue_facts (q q' : list entry) e :
  q ≡ₚ e :: q' → NoDup (map entry_key q) →
  e ∈ q ∧ (∀ x, x ∈ q' → x ∈ q) ∧ (∀ x, x ∈ q → x = e ∨ x ∈ q') ∧
  length q = S (length q') ∧ NoDup (map entry_key q') ∧
  (∀ x, x ∈ q' → entry_key x ≠ entry_key e).
Proof.
  intros Hperm Hnd. rewrite Hperm in Hnd. simpl in Hnd.
  apply NoDup_cons in Hnd as [Hnotin Hnd].
  split; [rewrite Hperm; left|]. split; [intros x Hx; rewrite Hperm; by right|].
  split; [intros x Hx; rewrite Hperm in Hx; by apply elem_of_cons in Hx|].
  split; [by rewrite Hperm|]. split; [done|].
  intros x Hx Heq. apply Hnotin. rewrite <- Heq.
  apply list_elem_of_fmap. by exists x.
Qed.

(** Dropping a popped item whose node is explored already. *)
Lemma astar_drop_inv rank clock st e q' :
  astar_inv weight g source target rank clock (λ _ _, False) st →
  queue st ≡ₚ e :: q' → is_Some (explored st !! e_node e) →
  astar_inv weight g source target rank clock (λ _ _, False)
    {| queue := q'; enqueued := enqueued st; explored := explored st;
       counter := counter st |}.
Proof.
  intros [Ieb Iqb Iqr Ifi Iso Ita Iec Icl Iqp Ipa Ick Ind] Hperm Hexp.
  destruct (popped_queue_facts _ _ _ Hperm Ind)
    as (He & Hsub & Hcases & Hlen & Hnd & Hkey).
  constructor; simpl; try done.
  - intros x Hx. apply Iqb. by apply Hsub.
  - intros x Hx. apply Iqr. by apply Hsub.
  - intros x Hx Hp. destruct (Ifi x (Hsub _ Hx) Hp) as (Hq & _ & _).
    rewrite Hq in Hlen. simpl in Hlen. destruct q'; [|simpl in Hlen; lia].
    by apply elem_of_nil in Hx.
  - destruct Iso as [?|(x & Hx & Hs)]; [by left|].
    destruct (Hcases _ Hx) as [->|Hx']; [left; by rewrite <- Hs|].
    right. by exists x.
  - intros v Hv. destruct (Iec _ Hv) as [?|(x & Hx & Hs)]; [by left|].
    destruct (Hcases _ Hx) as [->|Hx']; [left; by rewrite <- Hs|].
    right. by exists x.
  - intros x p Hx Hp. apply (Iqp x p); [by apply Hsub|done].
  - intros v p Hv. destruct (Ipa _ _ Hv) as (H1 & H2 & H3 & H4 & H5).
    repeat (split; [done|]). intros x Hx. apply H5. by apply Hsub.
Qed.

(** Recording the popped node as explored, before its neighbours are
    relaxed: its rank becomes the cost and the time of this expansion. *)
Lemma astar_expand_inv rank clock st e q' nbrs :
  astar_inv weight g source target rank clock (λ _ _, False) st →
  queue st ≡ₚ e :: q' → e_node e ≠ target →
  dict_get (e_node e) g = Some nbrs →
  (explored st !! e_node e = None
   ∨ ∃ p0 c hc, explored st !! e_node e = Some (Some p0)
                ∧ enqueued st !! e_node e = Some (c, hc) ∧ (e_dist e ≤ c)%Z) →
  astar_inv weight g source target
    (λ v, if decide (v = e_node e) then (e_dist e, clock) else rank v) (S clock)
    (λ u v, u = e_node e ∧ v ∈ nbrs.*1)
    {| queue := q'; enqueued := enqueued st;
       explored := <[e_node e := e_parent e]> (explored st);
       counter := counter st |}.
Proof.
  intros [Ieb Iqb Iqr Ifi Iso Ita Iec Icl Iqp Ipa Ick Ind] Hperm Hnt Hadj Hcase.
  destruct (popped_queue_facts _ _ _ Hperm Ind)
    as (He & Hsub & Hcases & Hlen & Hnd & Hkey).
  set (cur := e_node e) in *. set (d := e_dist e) in *.
  assert (Hstrict : is_Some (explored st !! cur) → (d < (rank cur).1)%Z).
  { intros Hsome. destruct Hcase as [Hn|(p0 & c & hc & Hp0 & Hc & Hdc)].
    - rewrite Hn in Hsome. by destruct Hsome.
    - destruct (Ipa _ _ Hp0) as (_ & _ & _ & (c' & hc' & Hc' & Hle) & Hne).
      rewrite Hc in Hc'. injection Hc' as <- <-.
      specialize (Hne e He eq_refl). fold d in Hne. lia. }
  assert (Hmono : ∀ v, is_Some (explored st !! v) →
            is_Some (<[cur := e_parent e]> (explored st) !! v)).
  { intros v Hv. rewrite lookup_insert. by case_decide. }
  constructor; simpl; try done.
  - intros x Hx. apply Iqb. by apply Hsub.
  - intros x Hx. apply Iqr. by apply Hsub.
  - intros x Hx Hp. destruct (Ifi x (Hsub _ Hx) Hp) as (Hq & _ & _).
    rewrite Hq in Hlen. simpl in Hlen. destruct q'; [|simpl in Hlen; lia].
    by apply elem_of_nil in Hx.
  - destruct Iso as [?|(x & Hx & Hs)]; [left; by apply Hmono|].
    destruct (Hcases _ Hx) as [->|Hx'].
    + left. fold cur in Hs. rewrite <- Hs. by rewrite lookup_insert_eq.
    + right. by exists x.
  - by rewrite lookup_insert_ne.
  - intros v Hv. destruct (Iec _ Hv) as [?|(x & Hx & Hs)]; [left; by apply Hmono|].
    destruct (Hcases _ Hx) as [->|Hx'].
    + left. fold cur in Hs. rewrite <- Hs. by rewrite lookup_insert_eq.
    + right. by exists x.
  - intros u v Hu Huv. destruct (decide (u = cur)) as [->|Hne].
    + right. split; [done|].
      destruct (edge_lookup_adjacency _ _ _ Huv) as (nbrs' & Hn' & Hin).
      rewrite Hadj in Hn'. by injection Hn' as <-.
    + rewrite lookup_insert_ne in Hu by done.
      destruct (Icl _ _ Hu Huv) as [?|[]]. by left.
  - intros x p Hx Hp.
    destruct (Iqp x p (Hsub _ Hx) Hp) as (H1 & H2 & H3 & H4).
    split; [by apply Hmono|]. split; [|by split].
    case_decide as Hpc; [|done]. simpl. subst p.
    specialize (Hstrict H1). lia.
  - intros v p. rewrite lookup_insert. case_decide as Hv.
    + intros [= Hp]. subst v.
      destruct (Iqp e p He Hp) as (H1 & H2 & H3 & c & hc & H4 & H5).
      assert (Hpc : p ≠ cur).
      { intros ->. specialize (Hstrict H1). fold d in H2. lia. }
      split; [by apply Hmono|]. rewrite (decide_True (P := cur = cur)) by done.
      rewrite decide_False by done. split; [|split; [done|split]].
      * unfold lex_lt. simpl. fold d in H2.
        destruct (decide ((rank p).1 = d)) as [Heq|Hneq]; [|left; lia].
        right. split; [done|]. by apply Ick.
      * exists c, hc. split; [done|]. simpl. by fold d in H5.
      * intros x Hx Hxn. simpl. intros Hxd.
        apply (Hkey x Hx). unfold entry_key. by rewrite Hxn, Hxd.
    + intros Hvp. destruct (Ipa _ _ Hvp) as (H1 & H2 & H3 & H4 & H5).
      split; [by apply Hmono|]. rewrite (decide_False (P := v = cur)) by done.
      split; [|split; [done|split; [done|]]].
      * case_decide as Hpc; [|done]. subst p.
        specialize (Hstrict H1). unfold lex_lt in *. simpl. lia.
      * intros x Hx. apply H5. by apply Hsub.
  - intros v. rewrite lookup_insert. case_decide as Hv.
    + intros _. rewrite decide_True by done. simpl. lia.
    + intros Hs. rewrite decide_False by done. specialize (Ick _ Hs). lia.
Qed.

Lemma astar_expand_ok h rank clock st e q' :
  astar_inv weight g source target rank clock (λ _ _, False) st →
  queue st ≡ₚ e :: q' → e_node e ≠ target →
  (explored st !! e_node e = None
   ∨ ∃ p0 c hc, explored st !! e_node e = Some (Some p0)
                ∧ enqueued st !! e_node e = Some (c, hc) ∧ (e_dist e ≤ c)%Z) →
  ∃ nbrs, dict_get (e_node e) g = Some nbrs ∧
    astar_ok weight g source target
      (fold_left (astar_relax h weight target (e_node e) (e_dist e)) nbrs
         {| queue := q'; enqueued := enqueued st;
            explored := <[e_node e := e_parent e]> (explored st);
            counter := counter st |}) ∧
    astar_measure weight g
      (fold_left (astar_relax h weight target (e_node e) (e_dist e)) nbrs
         {| queue := q'; enqueued := enqueued st;
            explored := <[e_node e := e_parent e]> (explored st);
            counter := counter st |})
    < astar_measure weight g st.
Proof.
  intros Hinv Hperm Hnt Hcase.
  pose proof (inv_queue_nodup _ _ _ _ _ _ _ _ Hinv) as Ind.
  destruct (popped_queue_facts _ _ _ Hperm Ind)
    as (He & Hsub & Hcases & Hlen & Hnd & Hkey).
  pose proof (inv_queue_reach _ _ _ _ _ _ _ _ Hinv e He) as Hreach.
  pose proof (inv_queue_bound _ _ _ _ _ _ _ _ Hinv e He) as Hbound.
  assert (∃ nbrs, dict_get (e_node e) g = Some nbrs) as [nbrs Hadj].
  { apply reachable_has_node_r, has_node_true, dict_get_is_Some in Hreach.
    destruct Hreach as [nbrs ?]. by exists nbrs. }
  exists nbrs. split; [done|].
  pose proof (astar_expand_inv rank clock st e q' nbrs Hinv Hperm Hnt Hadj Hcase)
    as Hinv2.
  destruct (astar_relax_fold_inv weight g source target Hwf Hnn h _ _
              (e_node e) (e_dist e) nbrs nbrs _ Hadj (λ x H, H) Hinv2)
    as [Hinv3 Hmeas].
  - simpl. by rewrite lookup_insert_eq.
  - rewrite decide_True by done. simpl. lia.
  - simpl. exact Hbound.
  - exact Hreach.
  - split; [by eexists _, _|].
    eapply Nat.le_lt_trans; [exact Hmeas|].
    unfold astar_measure. simpl. lia.
Qed.

Lemma astar_step_ok h st :
  astar_ok weight g source target st →
  match astar_step h weight target g st with
  | inl r =>
      (r = Err NetworkXNoPath ∧ queue st = [])
      ∨ (∃ e, e ∈ queue st ∧ e_node e = target ∧
              r = astar_walk_back (S (size (explored st))) (explored st)
                    (e_parent e) [target])
  | inr st' =>
      astar_ok weight g source target st'
      ∧ astar_measure weight g st' < astar_measure weight g st
  end.
Proof.
  intros (rank & clock & Hinv). unfold astar_step.
  destruct (heappop (queue st)) as [[e q']|] eqn:Hpop.
  2:{ left. split; [done|]. by apply heappop_None. }
  pose proof (heappop_Permutation _ _ _ Hpop) as Hperm.
  pose proof (inv_queue_nodup _ _ _ _ _ _ _ _ Hinv) as Ind.
  destruct (popped_queue_facts _ _ _ Hperm Ind)
    as (He & Hsub & Hcases & Hlen & Hnd & Hkey).
  case_decide as Ht.
  { right. exists e. rewrite Ht. by split. }
  assert (Hdrop : is_Some (explored st !! e_node e) →
    astar_ok weight g source target
      {| queue := q'; enqueued := enqueued st; explored := explored st;
         counter := counter st |}
    ∧ astar_measure weight g
        {| queue := q'; enqueued := enqueued st; explored := explored st;
           counter := counter st |} < astar_measure weight g st).
  { intros Hexp. split.
    - exists rank, clock. by eapply astar_drop_inv.
    - unfold astar_measure. simpl. lia. }
  unfold astar_skip.
  destruct (explored st !! e_node e) as [[p0|]|] eqn:Hex.
  - destruct (inv_parent _ _ _ _ _ _ _ _ Hinv _ _ Hex)
      as (_ & _ & _ & (c & hc & Hc & _) & _).
    rewrite Hc. destruct (Z.ltb_spec c (e_dist e)) as [Hlt|Hge].
    + by apply Hdrop.
    + destruct (astar_expand_ok h rank clock st e q' Hinv Hperm Ht)
        as (nbrs & Hadj & Hok & Hmeas).
      { right. by exists p0, c, hc. }
      rewrite Hadj. by split.
  - by apply Hdrop.
  - destruct (astar_expand_ok h rank clock st e q' Hinv Hperm Ht)
      as (nbrs & Hadj & Hok & Hmeas); [by left|].
    rewrite Hadj. by split.
Qed.

(** The loop, with fuel above the measure, ends the way some round ends. *)
Lemma astar_loop_ok h (Q : res (list node) → Prop) fuel st :
  astar_ok weight g source target st →
  astar_measure weight g st < fuel →
  (∀ st', astar_ok weight g source target st' →
     ∀ r, astar_step h weight target g st' = inl r → Q r) →
  Q (astar_loop h weight target fuel g st).
Proof.
  intros Hok Hfuel HQ. revert st Hok Hfuel.
  induction fuel as [|fuel IH]; intros st Hok Hfuel; [lia|].
  simpl. pose proof (astar_step_ok h st Hok) as Hstep.
  destruct (astar_step h weight target g st) as [r|st'] eqn:Hs.
  - by eapply HQ.
  - destruct Hstep as [Hok' Hm]. apply IH; [done|lia].
Qed.

Lemma astar_init_ok :
  has_node source g = true → astar_ok weight g source target (astar_init source)
  ∨ source = target.
Proof.
  intros Hs. destruct (decide (source = target)) as [|Hne]; [by right|].
  left. exists (λ _, (0%Z, 0)), 0.
  pose proof (max_weight_nonneg weight g).
  constructor; simpl.
  - intros v c hc Hv. by rewrite lookup_empty in Hv.
  - intros e He. apply list_elem_of_singleton in He as ->. simpl. lia.
  - intros e He. apply list_elem_of_singleton in He as ->. simpl.
    by apply reach_refl.
  - intros e He _. by apply list_elem_of_singleton in He as ->.
  - right. eexists. split; [left|done].
  - apply lookup_empty.
  - intros v Hv. rewrite lookup_empty in Hv. by destruct Hv.
  - intros u v Hu. rewrite lookup_empty in Hu. by destruct Hu.
  - intros e p He. apply list_elem_of_singleton in He as ->. done.
  - intros v p Hv. by rewrite lookup_empty in Hv.
  - intros v Hv. rewrite lookup_empty in Hv. by destruct Hv.
  - apply NoDup_singleton.
Qed.

Lemma astar_init_measure :
  astar_measure weight g (astar_init source) < astar_fuel weight g.
Proof.
  unfold astar_measure, astar_fuel, astar_init. simpl.
  assert (Hconst : ∀ (l : list node) c, sum_list (map (λ _, c) l) = length l * c).
  { intros l c. induction l as [|y l IH]; simpl; lia. }
  assert (Hsum : sum_list (map (node_potential weight g ∅) (nodes g))
                 = length g * S (cost_cap weight g)).
  { rewrite (map_ext _ (λ _, S (cost_cap weight g))).
    - rewrite Hconst. unfold nodes, dict_keys. by rewrite length_fmap.
    - intros v. unfold node_potential. by rewrite lookup_empty. }
  rewrite Hsum. unfold cost_cap. lia.
Qed.
End search_step.

(** ** The search: how it ends *)

Lemma pairwise_snoc {A} (l : list A) a b :
  pairwise (l ++ [a; b]) = pairwise (l ++ [a]) ++ [(a, b)].
Proof.
  induction l as [|x l IH]; [done|].
  destruct l as [|y l]; [done|].
  change (pairwise ((x :: y :: l) ++ [a; b]))
    with ((x, y) :: pairwise ((y :: l) ++ [a; b])).
  change (pairwise ((x :: y :: l) ++ [a]))
    with ((x, y) :: pairwise ((y :: l) ++ [a])).
  by rewrite IH.
Qed.

Lemma pairwise_reverse_Forall {A} (P : A * A → Prop) (l : list A) :
  Forall (λ ab, P (ab.2, ab.1)) (pairwise l) → Forall P (pairwise (reverse l)).
Proof.
  induction l as [|x l IH]; [done|].
  destruct l as [|y l]; [done|].
  change (pairwise (x :: y :: l)) with ((x, y) :: pairwise (y :: l)).
  intros Hall. apply Forall_cons in Hall as [Hxy Hall]. simpl in Hxy.
  specialize (IH Hall).
  rewrite (reverse_cons (y :: l) x). rewrite (reverse_cons l y) in *.
  rewrite <- app_assoc. simpl. rewrite pairwise_snoc.
  apply Forall_app. split; [done|]. by apply Forall_singleton.
Qed.

Lemma lex_lt_irrefl a : ¬ lex_lt a a.
Proof. unfold lex_lt. lia. Qed.

Lemma lex_lt_trans a b c : lex_lt a b → lex_lt b c → lex_lt a c.
Proof. unfold lex_lt. lia. Qed.

Lemma rank_below_size_lt rank (expl : gmap node (option node)) p m :
  is_Some (expl !! m) → lex_lt (rank p) (rank m) →
  size (rank_below rank expl p) < size (rank_below rank expl m).
Proof.
  intros Hm Hlt. apply subset_size. apply strict_spec_alt. split.
  - intros v. unfold rank_below. rewrite !elem_of_filter.
    intros [Hv Hd]. split; [|done]. intros Hmv. apply Hv.
    by eapply lex_lt_trans.
  - intros Heq.
    assert (Hin : m ∈ rank_below rank expl m).
    { unfold rank_below. apply elem_of_filter. split; [apply lex_lt_irrefl|].
      by apply elem_of_dom. }
    rewrite <- Heq in Hin. unfold rank_below in Hin.
    apply elem_of_filter in Hin as [Hn _]. done.
Qed.

Lemma rank_below_size_le rank (expl : gmap node (option node)) m :
  size (rank_below rank expl m) ≤ size expl.
Proof.
  rewrite <- (size_dom expl). apply subseteq_size.
  intros v. unfold rank_below. rewrite elem_of_filter. by intros [_ ?].
Qed.

Lemma path_weight_Ok (g : Graph) weight ps :
  Forall (λ uv : node * node, is_Some (edge_lookup g uv.1 uv.2)) ps →
  ∃ len, path_weight g weight ps = Ok len.
Proof.
  induction ps as [|[u v] ps IH]; intros Hall; simpl; [by eexists|].
  apply Forall_cons in Hall as [[dd Hd] Hall]. simpl in Hd.
  destruct (IH Hall) as [len Hlen]. rewrite Hlen.
  unfold edge_data. unfold edge_lookup, adj_of in Hd.
  destruct (dict_get u g) as [nbrs|]; simpl in Hd; [|done].
  rewrite Hd. by eexists.
Qed.

Section search_end.
Variables (weight : string) (g : Graph) (source target : node).
Hypothesis Hwf : WF g.
Hypothesis Hnn : nonneg_weights weight g = true.

Lemma astar_empty_queue_unreachable rank clock st :
  astar_inv weight g source target rank clock (λ _ _, False) st →
  queue st = [] → ¬ reachable g source target.
Proof.
  intros [Ieb Iqb Iqr Ifi Iso Ita Iec Icl Iqp Ipa Ick Ind] Hq Hreach.
  assert (Hnone : ∀ v, ¬ ∃ e, e ∈ queue st ∧ e_node e = v).
  { intros v (e & He & _). rewrite Hq in He. by apply elem_of_nil in He. }
  assert (Ht : is_Some (explored st !! target)).
  { apply (reachable_closed g (λ v, is_Some (explored st !! v)) source target).
    - done.
    - destruct Iso as [?|?]; [done|]. by destruct (Hnone source).
    - intros u v Hu Huv. destruct (Icl _ _ Hu Huv) as [Hv|[]].
      destruct (Iec _ Hv) as [?|?]; [done|]. by destruct (Hnone v). }
  rewrite Ita in Ht. by destruct Ht.
Qed.

Lemma astar_walk_back_ok rank clock st fuel :
  astar_inv weight g source target rank clock (λ _ _, False) st →
  ∀ m l z,
    is_Some (explored st !! m) →
    size (rank_below rank (explored st) m) ≤ fuel →
    is_Some (edge_lookup g m z) →
    Forall (λ ab : node * node, is_Some (edge_lookup g ab.2 ab.1))
      (pairwise (l ++ [z])) →
    ∃ p, astar_walk_back fuel (explored st) (Some m) (l ++ [z]) = Ok p ∧
         Forall (λ uv : node * node, is_Some (edge_lookup g uv.1 uv.2))
           (pairwise p) ∧
         length (l ++ [z]) < length p.
Proof.
  intros Hinv. induction fuel as [|fuel IH]; intros m l z Hm Hsize Hedge Hall.
  - exfalso.
    assert (Hin : m ∈ rank_below rank (explored st) m).
    { unfold rank_below. apply elem_of_filter. split; [apply lex_lt_irrefl|].
      by apply elem_of_dom. }
    assert (Hemp : rank_below rank (explored st) m ≡ ∅).
    { apply size_empty_inv. lia. }
    rewrite Hemp in Hin. by apply not_elem_of_empty in Hin.
  - simpl. destruct Hm as [po Hpo]. rewrite Hpo.
    assert (Hall' : Forall (λ ab : node * node, is_Some (edge_lookup g ab.2 ab.1))
                      (pairwise ((l ++ [z]) ++ [m]))).
    { rewrite <- app_assoc. simpl. rewrite pairwise_snoc.
      apply Forall_app. split; [done|]. by apply Forall_singleton. }
    destruct po as [p|].
    + destruct (inv_parent _ _ _ _ _ _ _ _ Hinv _ _ Hpo) as (Hp & Hlt & He & _).
      destruct (IH p (l ++ [z]) m) as (q & Hq & Hall'' & Hlen); [done| |done|done|].
      { pose proof (rank_below_size_lt rank (explored st) p m
                      ltac:(by eexists) Hlt). lia. }
      exists q. split; [done|]. split; [done|].
      rewrite length_app in Hlen. simpl in Hlen. lia.
    + destruct fuel; simpl; eexists; (split; [done|]);
        (split; [by apply pairwise_reverse_Forall|]);
        rewrite length_reverse, (length_app (l ++ [z])); simpl; lia.
Qed.
End search_end.

(** ** The search primitives *)

Section search_results.
Variables (h : node → node → Z) (weight : string) (g : Graph).
Hypothesis Hwf : wf_graph g = true.
Hypothesis Hnn : nonneg_weights weight g = true.

(** The search on a pair without a path raises [NetworkXNoPath]. *)
Lemma astar_path_unreachable source target :
  has_node source g = true → has_node target g = true →
  ¬ reachable g source target →
  astar_path g source target h weight = Err NetworkXNoPath.
Proof.
  intros Hs Ht Hnr. apply wf_graph_WF in Hwf.
  unfold astar_path. rewrite Hs, Ht. simpl.
  destruct (astar_init_ok weight g source target Hs) as [Hok|Heq].
  2:{ exfalso. apply Hnr. subst. by apply reach_refl. }
  apply (astar_loop_ok weight g source target Hwf Hnn h
           (λ r, r = Err NetworkXNoPath)); [done|apply astar_init_measure|].
  intros st' Hok' r Hstep.
  pose proof (astar_step_ok weight g source target Hwf Hnn h st' Hok') as H.
  rewrite Hstep in H. destruct H as [[-> _]|(e & He & Hnode & _)]; [done|].
  exfalso. apply Hnr. destruct Hok' as (rank & clock & Hinv).
  rewrite <- Hnode. by apply (inv_queue_reach _ _ _ _ _ _ _ _ Hinv).
Qed.

(** The search on a connected pair returns a path made of edges of [g],
    with an edge at least when the two nodes differ. *)
Lemma astar_path_reachable_steps source target :
  reachable g source target →
  ∃ p, astar_path g source target h weight = Ok p ∧
       Forall (λ uv : node * node, is_Some (edge_lookup g uv.1 uv.2))
         (pairwise p) ∧
       (source ≠ target → 2 ≤ length p).
Proof.
  intros Hreach. pose proof (wf_graph_WF _ Hwf) as HWF.
  assert (Hs : has_node source g = true) by (by inversion Hreach).
  pose proof (reachable_has_node_r _ _ _ Hreach) as Ht.
  unfold astar_path. rewrite Hs, Ht. simpl.
  destruct (astar_init_ok weight g source target Hs) as [Hok|Heq].
  - apply (astar_loop_ok weight g source target HWF Hnn h
             (λ r, ∃ p, r = Ok p ∧
                Forall (λ uv : node * node, is_Some (edge_lookup g uv.1 uv.2))
                  (pairwise p) ∧
                (source ≠ target → 2 ≤ length p)));
        [done|apply astar_init_measure|].
    intros st' Hok' r Hstep.
    pose proof (astar_step_ok weight g source target HWF Hnn h st' Hok') as H.
    rewrite Hstep in H. destruct Hok' as (rank & clock & Hinv).
    destruct H as [[_ Hq]|(e & He & Hnode & ->)].
    + exfalso. by eapply astar_empty_queue_unreachable.
    + destruct (e_parent e) as [p|] eqn:Hp.
      * destruct (inv_queue_parent _ _ _ _ _ _ _ _ Hinv e p He Hp)
          as (Hpe & _ & Hedge & _).
        rewrite Hnode in Hedge.
        destruct (astar_walk_back_ok weight g source target rank clock st'
                    (S (size (explored st'))) Hinv p [] target)
          as (q & Hq & Hall & Hlen); [done| |done| |].
        -- pose proof (rank_below_size_le rank (explored st') p). lia.
        -- simpl. constructor.
        -- exists q. split; [done|]. split; [done|]. intros _.
           simpl in Hlen. lia.
      * simpl. eexists. split; [done|]. split; [simpl; constructor|].
        intros Hne. exfalso. apply Hne.
        destruct (inv_first _ _ _ _ _ _ _ _ Hinv e He Hp) as (_ & _ & <-).
        done.
  - subst target. unfold astar_fuel.
    replace (length g * S (Z.to_nat (max_weight weight g) * length g) + 2)
      with (S (length g * S (Z.to_nat (max_weight weight g) * length g) + 1))
      by lia.
    unfold astar_init. cbn [astar_loop]. unfold astar_step.
    cbn [queue heappop e_node e_parent]. rewrite decide_True by done.
    cbn [astar_walk_back]. eexists. split; [done|].
    split; [simpl; constructor|done].
Qed.

Lemma astar_path_reachable source target :
  reachable g source target →
  ∃ p, astar_path g source target h weight = Ok p ∧
       Forall (λ uv : node * node, is_Some (edge_lookup g uv.1 uv.2))
         (pairwise p).
Proof.
  intros Hreach.
  destruct (astar_path_reachable_steps source target Hreach) as (p & ? & ? & _).
  by exists p.
Qed.

Lemma astar_path_length_unreachable source target :
  has_node source g = true → has_node target g = true →
  ¬ reachable g source target →
  astar_path_length g source target h weight = Err NetworkXNoPath.
Proof.
  intros Hs Ht Hnr. unfold astar_path_length. rewrite Hs, Ht. simpl.
  by rewrite astar_path_unreachable.
Qed.

Lemma astar_path_length_reachable source target :
  reachable g source target →
  ∃ len, astar_path_length g source target h weight = Ok len.
Proof.
  intros Hreach.
  assert (Hs : has_node source g = true) by (by inversion Hreach).
  pose proof (reachable_has_node_r _ _ _ Hreach) as Ht.
  unfold astar_path_length. rewrite Hs, Ht. simpl.
  destruct (astar_path_reachable source target Hreach) as (p & -> & Hall).
  by apply path_weight_Ok.
Qed.
End search_results.

(** ** Pairs of terminals *)

Lemma reachable_sym (g : Graph) a b : WF g → reachable g a b → reachable g b a.
Proof.
  intros Hwf Hab. induction Hab as [u Hu|u v w Hu Huv Hvw IH].
  - by apply reach_refl.
  - eapply reachable_snoc; [exact IH| |done].
    apply has_edge_true. apply has_edge_true in Huv as [dd Hd].
    destruct Hwf as (_ & _ & Hsym). destruct (Hsym _ _ _ Hd) as [_ H].
    by rewrite H.
Qed.

Lemma elem_of_combinations2 {A} (l : list A) a b :
  (a, b) ∈ combinations2 l → a ∈ l ∧ b ∈ l.
Proof.
  induction l as [|x l IH]; simpl; [intros H; by apply elem_of_nil in H|].
  rewrite elem_of_app. intros [H|H].
  - apply list_elem_of_fmap in H as (y & [= -> ->] & Hy). split; [left|by right].
  - destruct (IH H). split; by right.
Qed.

Lemma combinations2_cover {A} (l : list A) a b :
  a ∈ l → b ∈ l → a ≠ b → (a, b) ∈ combinations2 l ∨ (b, a) ∈ combinations2 l.
Proof.
  induction l as [|x l IH]; intros Ha Hb Hne; [by apply elem_of_nil in Ha|].
  simpl. rewrite !elem_of_app.
  apply elem_of_cons in Ha as [->|Ha]; apply elem_of_cons in Hb as [->|Hb].
  - done.
  - left. left. apply list_elem_of_fmap. by exists b.
  - right. left. apply list_elem_of_fmap. by exists a.
  - destruct (IH Ha Hb Hne); [left|right]; by right.
Qed.

Lemma combinations2_length {A} (l : list A) :
  length (combinations2 l) * 2 = length l * (length l - 1).
Proof.
  induction l as [|x l IH]; simpl; [done|].
  rewrite length_app, length_map, Nat.sub_0_r.
  destruct l as [|y l]; simpl in *; [done|].
  rewrite Nat.sub_0_r in IH. lia.
Qed.

Lemma combinations2_distinct {A} (l : list A) a b :
  NoDup l → (a, b) ∈ combinations2 l → a ≠ b.
Proof.
  induction l as [|x l IH]; simpl; [intros _ H; by apply elem_of_nil in H|].
  intros Hnd. apply NoDup_cons in Hnd as [Hx Hnd].
  rewrite elem_of_app. intros [H|H]; [|by apply IH].
  apply list_elem_of_fmap in H as (y & [= -> ->] & Hy). by intros ->.
Qed.

(** No pair of a duplicate-free list comes twice, in either order. *)
Lemma combinations2_NoDup {A} (l : list A) :
  NoDup l → NoDup (combinations2 l ++ (prod_swap <$> combinations2 l)).
Proof.
  induction l as [|x l IH]; intros Hnd; simpl; [constructor|].
  apply NoDup_cons in Hnd as [Hx Hnd]. specialize (IH Hnd).
  rewrite fmap_app.
  assert (Hperm :
    (map (pair x) l ++ combinations2 l)
      ++ (prod_swap <$> map (pair x) l) ++ (prod_swap <$> combinations2 l)
    ≡ₚ (map (pair x) l ++ (prod_swap <$> map (pair x) l))
      ++ (combinations2 l ++ (prod_swap <$> combinations2 l))).
  { rewrite <- !app_assoc. apply Permutation_app_head.
    rewrite !app_assoc. apply Permutation_app_tail. apply Permutation_app_comm. }
  rewrite Hperm. clear Hperm.
  assert (Hstar : ∀ a b, (a, b) ∈ map (pair x) l → a = x ∧ b ∈ l).
  { intros a b H. by apply list_elem_of_fmap in H as (y & [= -> ->] & Hy). }
  assert (Hstar' : ∀ a b, (a, b) ∈ prod_swap <$> map (pair x) l → b = x ∧ a ∈ l).
  { intros a b H. apply list_elem_of_fmap in H as ([a' b'] & [= -> ->] & H).
    by apply Hstar in H. }
  apply NoDup_app. split; [|split; [|done]].
  - apply NoDup_app. split; [|split].
    + by apply (NoDup_fmap_2 (pair x)).
    + intros [a b] H1 H2. apply Hstar in H1 as [-> Hb].
      apply Hstar' in H2 as [-> Ha]. done.
    + apply (NoDup_fmap_2 prod_swap). by apply (NoDup_fmap_2 (pair x)).
  - intros [a b] H1 H2.
    assert (Hl : a ∈ l ∧ b ∈ l).
    { apply elem_of_app in H2 as [H2|H2]; [by apply elem_of_combinations2|].
      apply list_elem_of_fmap in H2 as ([a' b'] & [= -> ->] & H2).
      apply elem_of_combinations2 in H2. tauto. }
    destruct Hl as [Ha Hb].
    apply elem_of_app in H1 as [H1|H1].
    + apply Hstar in H1 as [-> _]. done.
    + apply Hstar' in H1 as [-> _]. done.
Qed.

(** ** Degrees after a new edge *)

Lemma degree_add_edge_new x u v dd (g : Graph) :
  u ≠ v → edge_lookup g u v = None → edge_lookup g v u = None →
  degree x (add_edge u v dd g)
  = degree x g + (if decide (x = u) then 1 else 0)
    + (if decide (x = v) then 1 else 0).
Proof.
  intros Hne Huv Hvu. unfold degree. rewrite adj_of_add_edge.
  assert (Hhas : ∀ (a b : node) (m : attrs) (d : list (node * attrs)),
            a ≠ b → dict_has a (dict_set b m d) = dict_has a d).
  { intros. unfold dict_has. by rewrite dict_get_set_ne. }
  unfold edge_lookup in Huv, Hvu.
  destruct (decide (x = v)) as [->|Hxv].
  - rewrite !(decide_False (P := v = u)) by done.
    rewrite Hhas by done. rewrite dict_set_fresh by done.
    rewrite length_app. simpl. lia.
  - destruct (decide (x = u)) as [->|Hxu].
    + rewrite Hhas by done. rewrite dict_set_fresh by done.
      rewrite length_app. simpl. lia.
    + lia.
Qed.

Lemma sum_list_indicator (l : list node) (f : node → nat) u :
  NoDup l → u ∈ l →
  sum_list (map (λ x, f x + (if decide (x = u) then 1 else 0)) l)
  = S (sum_list (map f l)).
Proof.
  intros Hnd Hin. induction l as [|x l IH]; simpl.
  - by apply elem_of_nil in Hin.
  - apply NoDup_cons in Hnd as [Hx Hnd].
    apply elem_of_cons in Hin as [->|Hin].
    + rewrite decide_True by done.
      assert (Hl : map (λ y, f y + (if decide (y = x) then 1 else 0)) l = map f l).
      { apply map_ext_in. intros y Hy. rewrite decide_False; [lia|].
        intros ->. by apply Hx, list_elem_of_In. }
      rewrite Hl. lia.
    + rewrite decide_False by (intros ->; done). rewrite IH by done. lia.
Qed.

Lemma degree_sum_add_edge_new u v dd (g : Graph) :
  WF g → u ≠ v → u ∈ nodes g → v ∈ nodes g → edge_lookup g u v = None →
  sum_list (map (λ n, degree n (add_edge u v dd g)) (nodes (add_edge u v dd g)))
  = 2 + sum_list (map (λ n, degree n g) (nodes g)).
Proof.
  intros Hwf Hne Hu Hv Huv. pose proof Hwf as (Hnd & _ & Hsym).
  assert (Hvu : edge_lookup g v u = None).
  { destruct (edge_lookup g v u) as [a|] eqn:Ha; [|done].
    apply Hsym in Ha as [_ Ha]. congruence. }
  rewrite nodes_add_edge_old by done.
  rewrite (map_ext _ (λ n, (degree n g + (if decide (n = u) then 1 else 0))
                           + (if decide (n = v) then 1 else 0))).
  2:{ intros n. by apply degree_add_edge_new. }
  rewrite (sum_list_indicator (nodes g)
             (λ n, degree n g + (if decide (n = u) then 1 else 0)) v) by done.
  rewrite (sum_list_indicator (nodes g) (λ n, degree n g) u) by done.
  lia.
Qed.

(** ** The distance graph *)

(** Adding the edges of pairs that are new and join nodes the graph has:
    the node list stays, every pair gets its edge in both directions, the
    degrees sum to twice the number of edges, and no other edge appears. *)
Lemma distance_edges_spec (len : node * node → Z) ps (D : Graph) n0 :
  WF D →
  (∀ p, p ∈ ps → p.1 ∈ nodes D ∧ p.2 ∈ nodes D ∧ p.1 ≠ p.2) →
  NoDup (ps ++ (prod_swap <$> ps)) →
  (∀ p, p ∈ ps → edge_lookup D p.1 p.2 = None) →
  sum_list (map (λ n, degree n D) (nodes D)) = 2 * n0 →
  let D' := add_edges_from (map (λ p, (p.1, p.2, [("weight", len p)])) ps) D in
  WF D' ∧ nodes D' = nodes D ∧
  sum_list (map (λ n, degree n D') (nodes D')) = 2 * (n0 + length ps) ∧
  (∀ x y dd, edge_lookup D x y = Some dd → edge_lookup D' x y = Some dd) ∧
  (∀ p, p ∈ ps → edge_lookup D' p.1 p.2 = Some [("weight", len p)]
                 ∧ edge_lookup D' p.2 p.1 = Some [("weight", len p)]) ∧
  (∀ x y dd, edge_lookup D' x y = Some dd →
     edge_lookup D x y = Some dd
     ∨ ∃ p, p ∈ ps ∧ dd = [("weight", len p)]
            ∧ ((x, y) = p ∨ (y, x) = p)).
Proof.
  unfold add_edges_from. revert D n0.
  induction ps as [|[u v] ps IH]; intros D n0 Hwf Hps Hnd Hnone Hsum; simpl.
  - split; [done|]. split; [done|]. split; [by rewrite Nat.add_0_r|].
    split; [done|]. split; [intros p Hp; by apply elem_of_nil in Hp|]. auto.
  - pose proof Hwf as (_ & _ & Hsym).
    destruct (Hps (u, v) ltac:(left)) as (Hu & Hv & Hne). simpl in Hu, Hv, Hne.
    pose proof (Hnone (u, v) ltac:(left)) as Huv. simpl in Huv.
    simpl in Hnd. apply NoDup_cons in Hnd as [Hp1 Hnd].
    apply NoDup_app in Hnd as (Hnd1 & Hdisj & Hnd2).
    apply NoDup_cons in Hnd2 as [Hp2 Hnd2].
    assert (Hp3 : (u, v) ∉ ps).
    { intros H. apply Hp1. apply elem_of_app. by left. }
    assert (Hp4 : (v, u) ∉ ps).
    { intros H. apply (Hdisj _ H). left. }
    set (dd := [("weight", len (u, v))]).
    assert (Hm : merged_attrs D u v dd = dd).
    { unfold merged_attrs. rewrite Huv. simpl. reflexivity. }
    assert (Hlook : ∀ x y, edge_lookup (add_edge u v dd D) x y
              = if decide ((x = u ∧ y = v) ∨ (x = v ∧ y = u))
                then Some dd else edge_lookup D x y).
    { intros. by rewrite edge_lookup_add_edge, Hm. }
    destruct (IH (add_edge u v dd D) (S n0)) as (H1 & H2 & H3 & H4 & H5 & H6).
    + by apply WF_add_edge.
    + intros p Hp. rewrite nodes_add_edge_old by done. apply Hps. by right.
    + apply NoDup_app. split; [done|]. split; [|done].
      intros p Hp Hp'. apply (Hdisj _ Hp). by right.
    + intros [a b] Hp. simpl. rewrite Hlook. rewrite decide_False.
      * apply (Hnone (a, b)). by right.
      * intros [[-> ->]|[-> ->]]; done.
    + rewrite degree_sum_add_edge_new by done. lia.
    + rewrite nodes_add_edge_old in H2 by done.
      split; [done|]. split; [done|]. split; [rewrite H3; f_equal; lia|].
      split; [|split].
      * intros x y a Ha. apply H4. rewrite Hlook. rewrite decide_False; [done|].
        intros [[-> ->]|[-> ->]]; [congruence|].
        apply Hsym in Ha as [_ Ha]. congruence.
      * intros p Hp. apply elem_of_cons in Hp as [->|Hp]; [|by apply H5].
        simpl. split; apply H4; rewrite Hlook; rewrite decide_True; auto.
      * intros x y a Ha. apply H6 in Ha as [Ha|(p & Hp & -> & Hxy)].
        -- rewrite Hlook in Ha. case_decide as Hc; [|by left].
           injection Ha as <-. right. exists (u, v). split; [left|].
           split; [done|]. destruct Hc as [[-> ->]|[-> ->]]; auto.
        -- right. exists p. split; [by right|done].
Qed.

(** ** Running the loop of the distance graph *)

Lemma run_astar_path_length (σ : store) r (G : Graph) u v h weight :
  σ !! r = Some G →
  m_astar_path_length r u v h weight σ = (astar_path_length G u v h weight, σ).
Proof.
  intros Hr. unfold m_astar_path_length.
  by rewrite (run_bind _ _ _ _ _ (run_get_graph _ _ _ Hr)).
Qed.

Lemma run_distance_loop (σ : store) r (G : Graph) h weight
    (len : node * node → Z) ps (D : Graph) :
  σ !! r = Some G →
  (∀ p, p ∈ ps → astar_path_length G p.1 p.2 h weight = Ok (len p)) →
  for_ ps (λ p,
    shortest_path_length ← m_astar_path_length r p.1 p.2 h weight;
    update_graph (length σ) (add_edge p.1 p.2 [("weight", shortest_path_length)]))
    (σ ++ [D])
  = (Ok tt, σ ++ [add_edges_from
                    (map (λ p, (p.1, p.2, [("weight", len p)])) ps) D]).
Proof.
  intros Hr. revert D. induction ps as [|p ps IH]; intros D Hlen; [done|].
  cbn [for_].
  assert (Hr' : (σ ++ [D]) !! r = Some G) by (by apply lookup_app_l_Some).
  unfold mbind at 1, M_bind.
  unfold mbind at 1, M_bind.
  rewrite (run_astar_path_length _ _ _ _ _ _ _ Hr').
  rewrite (Hlen p) by left. rewrite run_update_fresh.
  rewrite IH by (intros q Hq; apply Hlen; by right). reflexivity.
Qed.

Section distance_failure.
Variables (h : node → node → Z) (weight : string) (G : Graph).
Hypothesis Hwf : wf_graph G = true.
Hypothesis Hnn : nonneg_weights weight G = true.

(** The search decides reachability. *)
Lemma astar_path_length_cases u v :
  has_node u G = true → has_node v G = true →
  (reachable G u v ∧ ∃ len, astar_path_length G u v h weight = Ok len)
  ∨ (¬ reachable G u v ∧ astar_path_length G u v h weight = Err NetworkXNoPath).
Proof.
  intros Hu Hv.
  destruct (astar_path G u v h weight) as [p|e] eqn:Hp.
  - left. assert (Hr : reachable G u v).
    { destruct (decide (u = v)) as [->|Hne]; [by apply reach_refl|].
      unfold astar_path in Hp. rewrite Hu, Hv in Hp. simpl in Hp.
      pose proof (wf_graph_WF _ Hwf) as HWF.
      destruct (astar_init_ok weight G u v Hu) as [Hok|Heq]; [|done].
      revert Hp.
      apply (astar_loop_ok weight G u v HWF Hnn h
               (λ r, r = Ok p → reachable G u v));
        [done|apply astar_init_measure|].
      intros st' Hok' r Hstep.
      pose proof (astar_step_ok weight G u v HWF Hnn h st' Hok') as H.
      rewrite Hstep in H. destruct H as [[-> _]|(e & He & Hnode & _)]; [done|].
      intros _. destruct Hok' as (rank & clock & Hinv).
      rewrite <- Hnode. by apply (inv_queue_reach _ _ _ _ _ _ _ _ Hinv). }
    split; [done|]. by apply astar_path_length_reachable.
  - right. assert (Hnr : ¬ reachable G u v).
    { intros Hr. destruct (astar_path_reachable h weight G Hwf Hnn u v Hr)
        as (p & Hp' & _). congruence. }
    split; [done|]. by apply astar_path_length_unreachable.
Qed.

Lemma run_distance_loop_unreachable (σ : store) r ps (D : Graph) :
  σ !! r = Some G →
  (∀ p, p ∈ ps → has_node p.1 G = true ∧ has_node p.2 G = true) →
  (∃ p, p ∈ ps ∧ ¬ reachable G p.1 p.2) →
  ∃ σ', for_ ps (λ p,
    shortest_path_length ← m_astar_path_length r p.1 p.2 h weight;
    update_graph (length σ) (add_edge p.1 p.2 [("weight", shortest_path_length)]))
    (σ ++ [D]) = (Err NetworkXNoPath, σ').
Proof.
  intros Hr. revert D. induction ps as [|p ps IH]; intros D Hnodes (q & Hq & Hnr).
  - by apply elem_of_nil in Hq.
  - cbn [for_].
    assert (Hr' : (σ ++ [D]) !! r = Some G) by (by apply lookup_app_l_Some).
    unfold mbind at 1, M_bind.
    unfold mbind at 1, M_bind.
    rewrite (run_astar_path_length _ _ _ _ _ _ _ Hr').
    destruct (Hnodes p ltac:(left)) as [Hp1 Hp2].
    destruct (astar_path_length_cases p.1 p.2 Hp1 Hp2)
      as [(Hreach & len & ->)|(_ & ->)]; [|by eexists].
    rewrite run_update_fresh. apply IH.
    + intros p' Hp'. apply Hnodes. by right.
    + exists q. split; [|done].
      apply elem_of_cons in Hq as [->|Hq]; [done|done].
Qed.

Lemma run_get_complete_distance_graph_unreachable (σ : store) r T u v :
  σ !! r = Some G →
  (∀ t, t ∈ T → has_node t G = true) →
  u ∈ T → v ∈ T → ¬ reachable G u v →
  ∃ σ', get_complete_distance_graph r T h weight σ = (Err NetworkXNoPath, σ').
Proof.
  intros Hr HT Hu Hv Hnr. unfold get_complete_distance_graph.
  unfold mbind at 1, M_bind, Graph_new.
  rewrite (run_bind _ _ _ _ _ (run_update_fresh _ _ _)).
  destruct (run_distance_loop_unreachable σ r (combinations2 T)
              (add_nodes_from T empty_graph) Hr) as [σ' Hσ'].
  - intros [a b] Hp. apply elem_of_combinations2 in Hp as [Ha Hb].
    split; by apply HT.
  - assert (Hne : u ≠ v).
    { intros ->. apply Hnr. apply reach_refl. by apply HT. }
    destruct (combinations2_cover T u v Hu Hv Hne) as [Hc|Hc].
    + by exists (u, v).
    + exists (v, u). split; [done|]. simpl. intros Hvu. apply Hnr.
      apply reachable_sym; [by apply wf_graph_WF|done].
  - exists σ'. by rewrite (run_bind_err _ _ _ _ _ Hσ').
Qed.
End distance_failure.

Lemma not_reachable_by_search (g : Graph) h weight s t :
  wf_graph g = true → nonneg_weights weight g = true →
  astar_path g s t h weight = Err NetworkXNoPath → ¬ reachable g s t.
Proof.
  intros Hwf Hnn Hp Hr.
  destruct (astar_path_reachable h weight g Hwf Hnn s t Hr) as (p & Hp' & _).
  congruence.
Qed.

Lemma reachable_by_search (g : Graph) h weight s t p :
  wf_graph g = true → nonneg_weights weight g = true →
  has_node s g = true → has_node t g = true →
  astar_path g s t h weight = Ok p → reachable g s t.
Proof.
  intros Hwf Hnn Hs Ht Hp.
  destruct (astar_path_length_cases h weight g Hwf Hnn s t Hs Ht)
    as [[Hr _]|[Hnr _]]; [done|].
  rewrite (astar_path_unreachable h weight g Hwf Hnn s t Hs Ht Hnr) in Hp.
  done.
Qed.

Lemma degree_sum_no_edge (g : Graph) :
  (∀ n, adj_of n g = []) → sum_list (map (λ n, degree n g) (nodes g)) = 0.
Proof.
  intros Hadj. induction (nodes g) as [|n l IH]; simpl; [done|].
  rewrite IH. unfold degree. by rewrite Hadj.
Qed.

(** The distance graph of pairwise connected terminals, as a value. *)
Lemma run_get_complete_distance_graph_reachable (σ : store) r (G : Graph)
    h T weight :
  σ !! r = Some G → wf_graph G = true → nonneg_weights weight G = true →
  NoDup T → (∀ u v, u ∈ T → v ∈ T → reachable G u v) →
  ∃ (len : node * node → Z) (D : Graph),
    get_complete_distance_graph r T h weight σ = (Ok (length σ), σ ++ [D]) ∧
    (∀ p, p ∈ combinations2 T →
       astar_path_length G p.1 p.2 h weight = Ok (len p)) ∧
    WF D ∧ nodes D = T ∧
    sum_list (map (λ n, degree n D) (nodes D)) = 2 * length (combinations2 T) ∧
    (∀ p, p ∈ combinations2 T →
       edge_lookup D p.1 p.2 = Some [("weight", len p)]
       ∧ edge_lookup D p.2 p.1 = Some [("weight", len p)]) ∧
    (∀ x y dd, edge_lookup D x y = Some dd →
       ∃ p, p ∈ combinations2 T ∧ dd = [("weight", len p)]
            ∧ ((x, y) = p ∨ (y, x) = p)).
Proof.
  intros Hr Hwf Hnn Hnd Hreach.
  set (len := λ p : node * node,
         match astar_path_length G p.1 p.2 h weight with
         | Ok l => l | Err _ => 0%Z end).
  assert (Hlen : ∀ p, p ∈ combinations2 T →
            astar_path_length G p.1 p.2 h weight = Ok (len p)).
  { intros [u v] Hp. apply elem_of_combinations2 in Hp as [Hu Hv]. simpl.
    destruct (astar_path_length_reachable h weight G Hwf Hnn u v
                (Hreach u v Hu Hv)) as [l Hl].
    unfold len. simpl. by rewrite Hl. }
  set (D0 := add_nodes_from T empty_graph).
  assert (HD0 : nodes D0 = T).
  { unfold D0. rewrite nodes_add_nodes_from; [done|done|].
    intros n _. apply not_elem_of_nil. }
  assert (Hadj0 : ∀ n, adj_of n D0 = []).
  { intros n. unfold D0. by rewrite adj_of_add_nodes_from. }
  destruct (distance_edges_spec len (combinations2 T) D0 0)
    as (H1 & H2 & H3 & _ & H5 & H6).
  - apply WF_add_nodes_from_empty.
  - intros [u v] Hp. rewrite HD0. simpl.
    pose proof (combinations2_distinct T u v Hnd Hp).
    apply elem_of_combinations2 in Hp as [Hu Hv]. done.
  - by apply combinations2_NoDup.
  - intros p _. unfold edge_lookup. by rewrite Hadj0.
  - by rewrite degree_sum_no_edge.
  - exists len, (add_edges_from
                   (map (λ p, (p.1, p.2, [("weight", len p)])) (combinations2 T))
                   D0).
    split.
    { unfold get_complete_distance_graph.
      unfold mbind at 1, M_bind, Graph_new.
      rewrite (run_bind _ _ _ _ _ (run_update_fresh _ _ _)).
      fold D0.
      by rewrite (run_bind _ _ _ _ _
                    (run_distance_loop σ r G h weight len _ D0 Hr Hlen)). }
    split; [done|]. split; [done|]. split; [by rewrite H2|].
    split; [done|]. split; [done|].
    intros x y dd Hd. apply H6 in Hd as [Hd|Hd]; [|done].
    unfold edge_lookup in Hd. by rewrite Hadj0 in Hd.
Qed.

Lemma combinations2_involves {A} (l : list A) t :
  t ∈ l → 2 ≤ length l → ∃ p, p ∈ combinations2 l ∧ (p.1 = t ∨ p.2 = t).
Proof.
  destruct l as [|a [|b l]]; cbn [length]; [lia|lia|]. intros Ht _.
  change (combinations2 (a :: b :: l))
    with (map (pair a) (b :: l) ++ combinations2 (b :: l)).
  apply elem_of_cons in Ht as [->|Ht].
  - exists (a, b). split; [|by left]. apply elem_of_app. left. left.
  - exists (a, t). split; [|by right].
    apply elem_of_app. left. apply list_elem_of_fmap. by exists t.
Qed.

Lemma astar_path_length_missing (G : Graph) u v h weight :
  has_node u G = false ∨ has_node v G = false →
  astar_path_length G u v h weight = Err NodeNotFound.
Proof.
  intros Hm. unfold astar_path_length.
  destruct Hm as [-> | ->]; [done|]. by rewrite andb_false_r.
Qed.

Lemma run_distance_loop_missing (σ : store) r (G : Graph) h weight ps (D : Graph) :
  σ !! r = Some G → wf_graph G = true → nonneg_weights weight G = true →
  (∃ p, p ∈ ps ∧ (has_node p.1 G = false ∨ has_node p.2 G = false)) →
  ∃ e σ', for_ ps (λ p,
    shortest_path_length ← m_astar_path_length r p.1 p.2 h weight;
    update_graph (length σ) (add_edge p.1 p.2 [("weight", shortest_path_length)]))
    (σ ++ [D]) = (Err e, σ') ∧ (e = NodeNotFound ∨ e = NetworkXNoPath).
Proof.
  intros Hr Hwf Hnn. revert D.
  induction ps as [|p ps IH]; intros D (q & Hq & Hm).
  - by apply elem_of_nil in Hq.
  - cbn [for_].
    assert (Hr' : (σ ++ [D]) !! r = Some G) by (by apply lookup_app_l_Some).
    unfold mbind at 1, M_bind.
    unfold mbind at 1, M_bind.
    rewrite (run_astar_path_length _ _ _ _ _ _ _ Hr').
    destruct (has_node p.1 G) eqn:H1; [destruct (has_node p.2 G) eqn:H2|].
    + destruct (astar_path_length_cases h weight G Hwf Hnn p.1 p.2 H1 H2)
        as [(_ & len & ->)|(_ & ->)]; [|eauto].
      rewrite run_update_fresh. apply IH. exists q. split; [|done].
      apply elem_of_cons in Hq as [->|Hq]; [|done].
      destruct Hm; congruence.
    + rewrite astar_path_length_missing by auto. eauto.
    + rewrite astar_path_length_missing by auto. eauto.
Qed.

Lemma elem_of_nodes_add_edges_from_mono es (g : Graph) n :
  n ∈ nodes g → n ∈ nodes (add_edges_from es g).
Proof.
  unfold add_edges_from. revert g.
  induction es as [|[[u v] dd] es IH]; intros g Hn; simpl; [done|].
  apply IH. rewrite nodes_add_edge, !elem_of_nodes_add_node. auto.
Qed.

Lemma elem_of_nodes_graph_copy (g : Graph) n :
  n ∈ nodes g → n ∈ nodes (graph_copy g).
Proof.
  intros Hn. apply elem_of_nodes_add_edges_from_mono.
  apply elem_of_nodes_add_nodes_from. by left.
Qed.

(** ** Removing a node *)

Section dict_del_facts.
Context {K V : Type} `{EqDecision K}.
Implicit Types (k : K) (v : V) (d : list (K * V)).

Lemma dict_get_del k k' d :
  dict_get k (dict_del k' d) = if decide (k = k') then None else dict_get k d.
Proof.
  induction d as [|[k0 v0] d IH]; simpl; [by case_decide|].
  destruct (decide (k' = k0)) as [->|Hne]; simpl.
  - rewrite IH. repeat case_decide; congruence.
  - rewrite IH. repeat case_decide; congruence.
Qed.

Lemma dict_keys_del k d :
  dict_keys (dict_del k d) = filter (λ x, x ≠ k) (dict_keys d).
Proof.
  induction d as [|[k0 v0] d IH]; [done|].
  change (dict_keys ((k0, v0) :: d)) with (k0 :: dict_keys d).
  cbn [dict_del]. destruct (decide (k = k0)) as [->|Hne].
  - rewrite filter_cons_False by (intros H'; by apply H'). exact IH.
  - rewrite filter_cons_True by congruence.
    change (dict_keys ((k0, v0) :: dict_del k d)) with (k0 :: dict_keys (dict_del k d)).
    by rewrite IH.
Qed.

Lemma dict_del_id k d : k ∉ dict_keys d → dict_del k d = d.
Proof.
  unfold dict_keys. induction d as [|[k0 v0] d IH]; simpl; [done|].
  intros Hk. apply not_elem_of_cons in Hk as [Hne Hk].
  rewrite decide_False by done. by rewrite IH.
Qed.

Lemma dict_del_idemp k d : dict_del k (dict_del k d) = dict_del k d.
Proof.
  apply dict_del_id. rewrite dict_keys_del. intros H'.
  by apply list_elem_of_filter in H' as [H' _].
Qed.

Lemma dict_keys_del_NoDup k d :
  NoDup (dict_keys d) → NoDup (dict_keys (dict_del k d)).
Proof. intros Hnd. rewrite dict_keys_del. by apply NoDup_filter. Qed.
End dict_del_facts.

Lemma length_filter_remove (l : list node) n :
  NoDup l → n ∈ l → S (length (filter (λ x, x ≠ n) l)) = length l.
Proof.
  induction l as [|x l IH]; intros Hnd Hin; [by apply elem_of_nil in Hin|].
  apply NoDup_cons in Hnd as [Hx Hnd].
  destruct (decide (x = n)) as [->|Hne].
  - rewrite filter_cons_False by (intros H'; by apply H'). simpl. f_equal.
    clear IH Hin. induction l as [|y l IH]; [done|].
    apply not_elem_of_cons in Hx as [Hny Hx].
    apply NoDup_cons in Hnd as [_ Hnd].
    rewrite filter_cons_True by congruence. simpl. f_equal. by apply IH.
  - rewrite filter_cons_True by done. simpl. f_equal. apply IH; [done|].
    apply elem_of_cons in Hin as [->|Hin]; [done|done].
Qed.

Lemma adj_of_remove_fold x n nbrs (g : Graph) :
  adj_of x (fold_left (λ acc u, dict_set u (dict_del n (adj_of u acc)) acc) nbrs g)
  = if decide (x ∈ nbrs) then dict_del n (adj_of x g) else adj_of x g.
Proof.
  revert g. induction nbrs as [|u nbrs IH]; intros g; cbn [fold_left].
  - destruct (decide (x ∈ [])) as [Hin|]; [|done]. by apply elem_of_nil in Hin.
  - rewrite IH, adj_of_dict_set.
    destruct (decide (x = u)) as [->|Hne].
    + destruct (decide (u ∈ u :: nbrs)) as [_|Hn]; [|exfalso; apply Hn; left].
      destruct (decide (u ∈ nbrs)); [by rewrite dict_del_idemp|done].
    + destruct (decide (x ∈ nbrs)) as [Hin|Hnin];
        destruct (decide (x ∈ u :: nbrs)) as [Hin'|Hnin']; try done.
      * exfalso. apply Hnin'. by right.
      * exfalso. apply elem_of_cons in Hin' as [?|?]; done.
Qed.

Lemma nodes_remove_fold n nbrs (g : Graph) :
  (∀ u, u ∈ nbrs → u ∈ nodes g) →
  nodes (fold_left (λ acc u, dict_set u (dict_del n (adj_of u acc)) acc) nbrs g)
  = nodes g.
Proof.
  revert g. induction nbrs as [|u nbrs IH]; intros g Hsub; simpl; [done|].
  assert (Hk : nodes (dict_set u (dict_del n (adj_of u g)) g) = nodes g).
  { apply dict_keys_set_old. apply Hsub. left. }
  rewrite IH; [done|]. intros v Hv. rewrite Hk. apply Hsub. by right.
Qed.

Section remove_node_facts.
Variables (n : node) (g : Graph).
Hypothesis Hwf : WF g.

Lemma nodes_remove_node : nodes (remove_node n g) = filter (λ x, x ≠ n) (nodes g).
Proof.
  unfold remove_node, nodes. rewrite dict_keys_del. f_equal.
  apply nodes_remove_fold. intros u Hu.
  apply dict_get_is_Some in Hu as [dd Hd].
  by destruct (WF_edge_nodes g n u dd Hwf Hd).
Qed.

Lemma elem_of_nodes_remove_node m :
  m ∈ nodes (remove_node n g) ↔ m ≠ n ∧ m ∈ nodes g.
Proof. by rewrite nodes_remove_node, list_elem_of_filter. Qed.

Lemma adj_of_remove_node x :
  adj_of x (remove_node n g)
  = if decide (x = n) then [] else dict_del n (adj_of x g).
Proof.
  unfold remove_node. unfold adj_of at 1. rewrite dict_get_del.
  case_decide as Hx; [done|].
  change (default [] (dict_get x ?h)) with (adj_of x h).
  rewrite adj_of_remove_fold. case_decide as Hin; [done|].
  symmetry. apply dict_del_id. intros Hn. apply Hin.
  apply dict_get_is_Some in Hn as [dd Hd].
  destruct Hwf as (_ & _ & Hsym).
  destruct (Hsym x n dd Hd) as [_ Hd']. apply dict_get_is_Some.
  unfold edge_lookup in Hd'. by rewrite Hd'.
Qed.

Lemma edge_lookup_remove_node x y :
  edge_lookup (remove_node n g) x y
  = if decide (x = n ∨ y = n) then None else edge_lookup g x y.
Proof.
  unfold edge_lookup. rewrite adj_of_remove_node.
  destruct (decide (x = n)) as [->|Hx].
  - rewrite decide_True by auto. done.
  - rewrite dict_get_del. destruct (decide (y = n)) as [->|Hy].
    + rewrite decide_True by auto. done.
    + rewrite decide_False by tauto. done.
Qed.

Lemma WF_remove_node : WF (remove_node n g).
Proof.
  pose proof Hwf as (Hnd & Hadj & Hsym). split; [|split].
  - rewrite nodes_remove_node. by apply NoDup_filter.
  - intros x. rewrite adj_of_remove_node. case_decide; [apply NoDup_nil_2|].
    apply dict_keys_del_NoDup, Hadj.
  - intros x y dd. rewrite !edge_lookup_remove_node.
    case_decide as Hc; [done|]. intros Hd.
    rewrite decide_False by tauto. by apply Hsym.
Qed.

Lemma length_nodes_remove_node :
  n ∈ nodes g → S (length (nodes (remove_node n g))) = length (nodes g).
Proof.
  intros Hn. rewrite nodes_remove_node. apply length_filter_remove; [|done].
  by destruct Hwf.
Qed.
End remove_node_facts.

Lemma WF_add_edges_from es (g : Graph) : WF g → WF (add_edges_from es g).
Proof.
  unfold add_edges_from. revert g.
  induction es as [|[[u v] dd] es IH]; intros g Hg; simpl; [done|].
  apply IH. by apply WF_add_edge.
Qed.

(** A copy is well formed whatever it is a copy of. *)
Lemma WF_graph_copy (g : Graph) : WF (graph_copy g).
Proof. apply WF_add_edges_from, WF_add_nodes_from_empty. Qed.

(** ** The pruning loop *)

Lemma induced_subgraph_refl (g : Graph) : induced_subgraph g g.
Proof. by split. Qed.

Lemma induced_subgraph_trans (g1 g2 g3 : Graph) :
  induced_subgraph g1 g2 → induced_subgraph g2 g3 → induced_subgraph g1 g3.
Proof.
  intros [N1 E1] [N2 E2]. split; [auto|].
  intros x y Hx Hy. rewrite E1 by done. apply E2; auto.
Qed.

Lemma induced_subgraph_remove_node n (g : Graph) :
  WF g → induced_subgraph (remove_node n g) g.
Proof.
  intros Hwf. split.
  - intros m Hm. by apply elem_of_nodes_remove_node in Hm as [_ ?].
  - intros x y Hx Hy.
    apply elem_of_nodes_remove_node in Hx as [Hx _]; [|done].
    apply elem_of_nodes_remove_node in Hy as [Hy _]; [|done].
    rewrite edge_lookup_remove_node by done. rewrite decide_False; tauto.
Qed.

Lemma list_remove_subseteq x l r :
  list_remove x l = Ok r → ∀ y, y ∈ r → y ∈ l.
Proof.
  revert r. induction l as [|z l IH]; intros r; simpl; [done|].
  case_decide as Hxz.
  - intros [= <-] y Hy. by right.
  - destruct (list_remove x l) as [r'|e]; [|done].
    intros [= <-] y Hy. apply elem_of_cons in Hy as [->|Hy]; [left|].
    right. by eapply IH.
Qed.

Lemma list_remove_Err x l e : list_remove x l = Err e → e = ValueError.
Proof.
  induction l as [|z l IH]; simpl; [by intros [= <-]|].
  case_decide; [done|]. destruct (list_remove x l); [done|].
  intros [= <-]. by apply IH.
Qed.

Lemma run_first_neighbor (σ : store) (gv : Graph) n :
  m_first_neighbor (length σ) n (σ ++ [gv])
  = (if negb (has_node n gv) then Err NetworkXError
     else match neighbors n gv with
          | [] => Err StopIteration
          | nb :: _ => Ok nb
          end, σ ++ [gv]).
Proof.
  unfold m_first_neighbor.
  rewrite (run_bind _ _ _ _ _ (run_get_graph _ _ _ (lookup_snoc_fresh _ _))).
  destruct (negb (has_node n gv)); [done|]. by destruct (neighbors n gv).
Qed.

Lemma run_remove_node (σ : store) (gv : Graph) n :
  has_node n gv = true →
  m_remove_node (length σ) n (σ ++ [gv]) = (Ok tt, σ ++ [remove_node n gv]).
Proof.
  intros Hn. unfold m_remove_node.
  rewrite (run_bind _ _ _ _ _ (run_get_graph _ _ _ (lookup_snoc_fresh _ _))).
  rewrite Hn. simpl. apply run_update_fresh.
Qed.

Lemma list_remove_Ok x l :
  x ∈ l → ∃ r, list_remove x l = Ok r ∧ l ≡ₚ x :: r.
Proof.
  induction l as [|z l IH]; intros Hx; [by apply elem_of_nil in Hx|].
  simpl. case_decide as Hxz.
  - subst. by exists l.
  - apply elem_of_cons in Hx as [?|Hx]; [done|].
    destruct (IH Hx) as (r & -> & Hperm). exists (z :: r). split; [done|].
    rewrite Hperm. apply perm_swap.
Qed.

Section pruning.
Variables (σ : store) (T : list node).

(** One step of the inner loop: the node is on the work list, so
    [remove] finds it; the step raises when the node has left the graph or
    has no neighbour, and removes the node from the graph otherwise. *)
Lemma prune_node_spec l n (gv : Graph) :
  (∀ x, x ∈ l → x ∉ T) → n ∈ l →
  match prune_node (length σ) T l n (σ ++ [gv]) with
  | (Ok l', σ') =>
      σ' = σ ++ [remove_node n gv] ∧ n ∈ nodes gv ∧ (∀ x, x ∈ l' → x ∉ T) ∧
      l ⊆+ n :: l'
  | (Err e, σ') => e = NetworkXError ∨ e = StopIteration
  end.
Proof.
  intros Hl Hnl. unfold prune_node.
  pose proof (run_first_neighbor σ gv n) as Hfn.
  destruct (has_node n gv) eqn:Hn; simpl in Hfn.
  2:{ rewrite (run_bind_err _ _ _ _ _ Hfn). by left. }
  destruct (neighbors n gv) as [|nb nbrs] eqn:Hnb.
  { rewrite (run_bind_err _ _ _ _ _ Hfn). by right. }
  rewrite (run_bind _ _ _ _ _ Hfn).
  set (l1 := if decide (nb ∈ T) then l else l ++ [nb]).
  assert (Hl1 : ∀ x, x ∈ l1 → x ∉ T).
  { intros x Hx. unfold l1 in Hx. case_decide as Hd; [by apply Hl|].
    apply elem_of_app in Hx as [Hx|Hx]; [by apply Hl|].
    apply list_elem_of_singleton in Hx. by subst. }
  assert (Hsub : l ⊆+ l1).
  { unfold l1. case_decide; [done|]. by apply submseteq_inserts_r. }
  assert (Hnl1 : n ∈ l1) by (by eapply elem_of_submseteq).
  destruct (list_remove_Ok n l1 Hnl1) as (l2 & Hrm & Hperm).
  unfold mbind at 1, M_bind. unfold lift at 1. rewrite Hrm.
  rewrite (run_bind _ _ _ _ _ (run_remove_node σ gv n Hn)).
  simpl. split; [done|]. split; [by apply has_node_true|]. split.
  - intros x Hx. apply Hl1. rewrite Hperm. by right.
  - by rewrite <- Hperm.
Qed.

(** One round of the outer loop: every node of the snapshot is removed. *)
Lemma prune_round_spec xs : ∀ l (gv : Graph),
  WF gv → (∀ x, x ∈ l → x ∉ T) → xs ⊆+ l →
  match for_acc xs l (prune_node (length σ) T) (σ ++ [gv]) with
  | (Ok l', σ') =>
      ∃ gv', σ' = σ ++ [gv'] ∧ WF gv' ∧
        length (nodes gv') + length xs = length (nodes gv) ∧
        induced_subgraph gv' gv ∧
        (∀ t, t ∈ T → t ∈ nodes gv → t ∈ nodes gv') ∧
        (∀ x, x ∈ l' → x ∉ T)
  | (Err e, σ') => e = NetworkXError ∨ e = StopIteration
  end.
Proof.
  induction xs as [|n xs IH]; intros l gv Hwf Hl Hxs; cbn [for_acc].
  - exists gv. split; [done|]. split; [done|]. split; [simpl; lia|].
    split; [apply induced_subgraph_refl|]. split; done.
  - assert (Hnl : n ∈ l) by (eapply elem_of_submseteq; [left|done]).
    pose proof (prune_node_spec l n gv Hl Hnl) as Hstep.
    unfold mbind, M_bind.
    destruct (prune_node (length σ) T l n (σ ++ [gv])) as [[l1|e] σ1]; [|done].
    destruct Hstep as (-> & Hn & Hl1 & Hsub1).
    assert (Hwf1 : WF (remove_node n gv)) by (by apply WF_remove_node).
    assert (Hxs1 : xs ⊆+ l1).
    { apply (submseteq_app_inv_l _ _ [n]). simpl. by etrans. }
    specialize (IH l1 (remove_node n gv) Hwf1 Hl1 Hxs1).
    destruct (for_acc xs l1 (prune_node (length σ) T) (σ ++ [remove_node n gv]))
      as [[l2|e] σ2]; [|done].
    destruct IH as (gv' & -> & Hwf' & Hlen & Hsub & Hkeep & Hl2).
    exists gv'. split; [done|]. split; [done|]. split.
    { rewrite <- (length_nodes_remove_node n gv Hwf Hn). simpl. lia. }
    split.
    { eapply induced_subgraph_trans; [exact Hsub|].
      by apply induced_subgraph_remove_node. }
    split; [|done]. intros t Ht Htn. apply Hkeep; [done|].
    apply elem_of_nodes_remove_node; [done|]. split; [|done].
    intros ->. by apply (Hl n).
Qed.

(** The loop ends within the bound: every round that starts with a node
    on the work list removes a node or raises. *)
Lemma prune_loop_spec fuel : ∀ l (gv : Graph),
  WF gv → length (nodes gv) < fuel → (∀ x, x ∈ l → x ∉ T) →
  match prune_loop fuel (length σ) T l (σ ++ [gv]) with
  | (Ok _, σ') =>
      ∃ gv', σ' = σ ++ [gv'] ∧ WF gv' ∧ induced_subgraph gv' gv ∧
        (∀ t, t ∈ T → t ∈ nodes gv → t ∈ nodes gv')
  | (Err e, σ') => e = NetworkXError ∨ e = StopIteration
  end.
Proof.
  induction fuel as [|fuel IH]; intros l gv Hwf Hlen Hl; [lia|].
  destruct l as [|n l]; cbn [prune_loop].
  { exists gv. split; [done|]. split; [done|].
    split; [apply induced_subgraph_refl|done]. }
  pose proof (prune_round_spec (n :: l) (n :: l) gv Hwf Hl ltac:(done)) as Hround.
  unfold mbind, M_bind.
  destruct (for_acc (n :: l) (n :: l) (prune_node (length σ) T) (σ ++ [gv]))
    as [[l1|e] σ1]; [|done].
  destruct Hround as (gv1 & -> & Hwf1 & Hlen1 & Hsub1 & Hkeep1 & Hl1).
  simpl in Hlen1.
  specialize (IH l1 gv1 Hwf1 ltac:(lia) Hl1).
  destruct (prune_loop fuel (length σ) T l1 (σ ++ [gv1])) as [[u|e] σ2]; [|done].
  destruct IH as (gv' & -> & Hwf' & Hsub' & Hkeep').
  exists gv'. split; [done|]. split; [done|]. split.
  { by eapply induced_subgraph_trans. }
  intros t Ht Htn. auto.
Qed.
End pruning.

Lemma remove_redundant_nodes_spec (σ : store) r (g : Graph) T :
  σ !! r = Some g →
  match remove_redundant_nodes r T σ with
  | (Ok r', σ') =>
      ∃ gv', r' = length σ ∧ σ' = σ ++ [gv'] ∧ WF gv' ∧
        induced_subgraph gv' (graph_copy g) ∧
        (∀ t, t ∈ T → t ∈ nodes (graph_copy g) → t ∈ nodes gv')
  | (Err e, σ') => e = NetworkXError ∨ e = StopIteration
  end.
Proof.
  intros Hr. unfold remove_redundant_nodes.
  rewrite (run_bind _ _ _ _ _ (run_Graph_copy _ _ _ Hr)).
  rewrite (run_bind _ _ _ _ _ (run_get_graph _ _ _ (lookup_snoc_fresh _ _))).
  set (gv := graph_copy g).
  set (l := filter (λ n, is_leaf_non_terminal gv T n = true) (nodes gv)).
  assert (Hl : ∀ x, x ∈ l → x ∉ T).
  { intros x Hx. apply list_elem_of_filter in Hx as [Hx _].
    unfold is_leaf_non_terminal in Hx. apply andb_true_iff in Hx as [_ Hx].
    apply negb_true_iff, bool_decide_eq_false in Hx. done. }
  pose proof (prune_loop_spec σ T (S (length (nodes gv))) l gv
                (WF_graph_copy g) ltac:(lia) Hl) as Hloop.
  unfold mbind, M_bind.
  destruct (prune_loop (S (length (nodes gv))) (length σ) T l (σ ++ [gv]))
    as [[u|e] σ1]; [|done].
  destruct Hloop as (gv' & -> & Hwf' & Hsub & Hkeep).
  simpl. exists gv'. done.
Qed.

(** ** The spanning tree *)

Lemma elem_of_insert_by_weight weight e l x :
  x ∈ insert_by_weight weight e l ↔ x = e ∨ x ∈ l.
Proof.
  induction l as [|y l IH]; simpl.
  - rewrite list_elem_of_singleton, elem_of_nil. tauto.
  - destruct (_ <=? _)%Z.
    + by rewrite elem_of_cons.
    + rewrite !elem_of_cons, IH. tauto.
Qed.

Lemma elem_of_sort_by_weight weight l x : x ∈ sort_by_weight weight l ↔ x ∈ l.
Proof.
  unfold sort_by_weight. induction l as [|y l IH]; simpl; [done|].
  rewrite elem_of_insert_by_weight, elem_of_cons, IH. tauto.
Qed.

Lemma kruskal_subseteq es subtrees x : x ∈ kruskal es subtrees → x ∈ es.
Proof.
  revert subtrees. induction es as [|[[u v] d] es IH]; intros subtrees; simpl.
  - done.
  - case_decide.
    + intros Hx. right. by eapply IH.
    + intros Hx. apply elem_of_cons in Hx as [->|Hx]; [left|].
      right. by eapply IH.
Qed.

Lemma elem_of_edges_from seen (g : Graph) u v dd :
  (u, v, dd) ∈ edges_from seen g → ∃ nbrs, (u, nbrs) ∈ g ∧ (v, dd) ∈ nbrs.
Proof.
  revert seen. induction g as [|[n nbrs] g IH]; intros seen; simpl.
  - intros H. by apply elem_of_nil in H.
  - rewrite elem_of_app. intros [H|H].
    + apply list_elem_of_omap in H as ([v' dd'] & Hin & Hsome). simpl in Hsome.
      case_decide; [done|]. injection Hsome as <- <- <-.
      exists nbrs. split; [left|done].
    + apply IH in H as (nbrs' & H1 & H2). exists nbrs'. split; [by right|done].
Qed.

Lemma edges_data_edge_lookup (g : Graph) u v dd :
  WF g → (u, v, dd) ∈ edges_data g → edge_lookup g u v = Some dd.
Proof.
  intros Hwf H. apply elem_of_edges_from in H as (nbrs & Hu & Hv).
  apply (adjacency_edge_lookup g u nbrs v dd Hwf); [|done].
  apply elem_of_dict_get; [by destruct Hwf|done].
Qed.

(** The spanning tree has the nodes of the graph and some of its edges,
    those Kruskal's loop selects. *)
Lemma minimum_spanning_tree_spec (g : Graph) weight :
  WF g →
  WF (minimum_spanning_tree g weight) ∧
  nodes (minimum_spanning_tree g weight) = nodes g ∧
  (∀ x y, edge_lookup (minimum_spanning_tree g weight) x y = None
          ∨ edge_lookup (minimum_spanning_tree g weight) x y = edge_lookup g x y) ∧
  (∀ e, e ∈ minimum_spanning_edges g weight →
        edge_lookup (minimum_spanning_tree g weight) e.1.1 e.1.2 = Some e.2).
Proof.
  intros Hg. unfold minimum_spanning_tree.
  destruct (add_edges_from_agree g (minimum_spanning_edges g weight)
              (add_nodes_from (nodes g) empty_graph)) as (H1 & H2 & H3 & _ & H5).
  - done.
  - apply WF_add_nodes_from_empty.
  - rewrite nodes_add_nodes_from; [done|by destruct Hg|].
    intros n _. apply not_elem_of_nil.
  - intros [[x y] dd] He. simpl. unfold minimum_spanning_edges in He.
    apply kruskal_subseteq, elem_of_sort_by_weight in He.
    by apply edges_data_edge_lookup.
  - intros x y. left. unfold edge_lookup. by rewrite adj_of_add_nodes_from.
  - done.
Qed.




Lemma kruskal_first u v d es :
  u ≠ v → kruskal ((u, v, d) :: es) (λ x, x) ≠ [].
Proof. intros Hne. simpl. by rewrite decide_False. Qed.




(** ** The exceptions of the searches *)

Section search_total.
Variables (h : node → node → Z) (weight : string) (G : Graph).
Hypothesis Hwf : wf_graph G = true.
Hypothesis Hnn : nonneg_weights weight G = true.

Lemma astar_path_errors u v e :
  astar_path G u v h weight = Err e → e = NodeNotFound ∨ e = NetworkXNoPath.
Proof.
  destruct (has_node u G) eqn:Hu;
    [|unfold astar_path; rewrite Hu; intros [= <-]; by left].
  destruct (has_node v G) eqn:Hv;
    [|unfold astar_path; rewrite Hu, Hv; intros [= <-]; by left].
  destruct (astar_path_length_cases h weight G Hwf Hnn u v Hu Hv)
    as [[Hr _]|[Hnr _]].
  - destruct (astar_path_reachable h weight G Hwf Hnn u v Hr) as (p & -> & _).
    done.
  - rewrite (astar_path_unreachable h weight G Hwf Hnn u v Hu Hv Hnr).
    intros [= <-]. by right.
Qed.

Lemma astar_path_length_errors u v e :
  astar_path_length G u v h weight = Err e →
  e = NodeNotFound ∨ e = NetworkXNoPath.
Proof.
  destruct (has_node u G) eqn:Hu;
    [|unfold astar_path_length; rewrite Hu; intros [= <-]; by left].
  destruct (has_node v G) eqn:Hv;
    [|unfold astar_path_length; rewrite Hu, Hv; intros [= <-]; by left].
  destruct (astar_path_length_cases h weight G Hwf Hnn u v Hu Hv)
    as [(_ & len & ->)|[_ ->]]; [done|]. intros [= <-]. by right.
Qed.
End search_total.

(** ** The stages of [kou_et_al] *)

Lemma run_astar_path (σ : store) r (G : Graph) u v h weight :
  σ !! r = Some G →
  m_astar_path r u v h weight σ = (astar_path G u v h weight, σ).
Proof.
  intros Hr. unfold m_astar_path.
  by rewrite (run_bind _ _ _ _ _ (run_get_graph _ _ _ Hr)).
Qed.

Lemma run_edge_attr (σ : store) r (G : Graph) u v key :
  σ !! r = Some G →
  m_edge_attr r u v key σ
  = (match edge_lookup G u v with
     | None => Err KeyError
     | Some dd => match dict_get key dd with
                  | Some w => Ok w
                  | None => Err KeyError
                  end
     end, σ).
Proof.
  intros Hr. unfold m_edge_attr.
  rewrite (run_bind _ _ _ _ _ (run_get_graph _ _ _ Hr)).
  unfold mbind, M_bind, lift, edge_data, edge_lookup, adj_of.
  destruct (dict_get u G) as [nbrs|]; simpl; [|done].
  destruct (dict_get v nbrs) as [dd|]; [|done].
  by destruct (dict_get key dd).
Qed.

Lemma run_update_graph (σ : store) r (g : Graph) f :
  σ !! r = Some g → update_graph r f σ = (Ok tt, <[r := f g]> σ).
Proof. intros Hr. unfold update_graph. by rewrite Hr. Qed.

Section stages.
Variables (h : node → node → Z) (weight : string) (G : Graph) (r : ref).
Hypothesis Hwf : wf_graph G = true.

(** The distance graph is built in the new object, or the call raises. *)
Lemma distance_loop_spec (σ : store) ps : ∀ D : Graph,
  σ !! r = Some G →
  match for_ ps (λ p,
    shortest_path_length ← m_astar_path_length r p.1 p.2 h weight;
    update_graph (length σ) (add_edge p.1 p.2 [("weight", shortest_path_length)]))
    (σ ++ [D]) with
  | (Ok _, σ') => ∃ D', σ' = σ ++ [D']
  | (Err e, _) =>
      nonneg_weights weight G = true → e = NodeNotFound ∨ e = NetworkXNoPath
  end.
Proof.
  intros D Hr. revert D. induction ps as [|p ps IH]; intros D; cbn [for_].
  - by exists D.
  - assert (Hr' : (σ ++ [D]) !! r = Some G) by (by apply lookup_app_l_Some).
    unfold mbind at 1, M_bind.
    unfold mbind at 1, M_bind.
    rewrite (run_astar_path_length _ _ _ _ _ _ _ Hr').
    destruct (astar_path_length G p.1 p.2 h weight) as [len|e] eqn:Hlen.
    + rewrite run_update_fresh. apply IH.
    + intros Hnn.
      by apply (astar_path_length_errors h weight G Hwf Hnn p.1 p.2).
Qed.

Lemma get_complete_distance_graph_spec (σ : store) T :
  σ !! r = Some G →
  match get_complete_distance_graph r T h weight σ with
  | (Ok g1, σ') => g1 = length σ ∧ ∃ D, σ' = σ ++ [D]
  | (Err e, _) =>
      nonneg_weights weight G = true → e = NodeNotFound ∨ e = NetworkXNoPath
  end.
Proof.
  intros Hr. unfold get_complete_distance_graph.
  unfold mbind at 1, M_bind, Graph_new.
  rewrite (run_bind _ _ _ _ _ (run_update_fresh _ _ _)).
  pose proof (distance_loop_spec σ (combinations2 T)
                (add_nodes_from T empty_graph) Hr) as Hloop.
  unfold mbind, M_bind.
  destruct (for_ (combinations2 T) _ (σ ++ [add_nodes_from T empty_graph]))
    as [[u|e] σ1]; [|done].
  simpl. split; [done|]. exact Hloop.
Qed.


(** Adding an edge of [G] with the weight [G] has for it. *)
Lemma weighted_subgraph_add_edge (g3 : Graph) u v w ddG :
  WF g3 → weighted_subgraph G weight g3 →
  edge_lookup G u v = Some ddG → dict_get weight ddG = Some w →
  weighted_subgraph G weight (add_edge u v [("weight", w)] g3).
Proof.
  intros Hg3 [Hn He] Huv Hw. pose proof (wf_graph_WF _ Hwf) as HG.
  destruct (WF_edge_nodes G u v ddG HG Huv) as [Hu Hv].
  pose proof HG as (_ & _ & Hsym). destruct (Hsym _ _ _ Huv) as [_ Hvu].
  split.
  - intros n. rewrite nodes_add_edge, !elem_of_nodes_add_node.
    intros [->|[->|?]]; auto.
  - intros x y dd. rewrite edge_lookup_add_edge. case_decide as Hc; [|apply He].
    intros [= <-].
    assert (Hm : merged_attrs g3 u v [("weight", w)] = [("weight", w)]).
    { unfold merged_attrs. destruct (edge_lookup g3 u v) as [old|] eqn:Hold.
      - destruct (He _ _ _ Hold) as (w' & _ & -> & _). simpl.
        reflexivity.
      - done. }
    rewrite Hm. exists w.
    destruct Hc as [[-> ->]|[-> ->]]; eauto.
Qed.

(** The store while the paths are expanded: [G] under [r], the
    accumulator under [r3]. *)
Lemma expand_path_spec (r3 : ref) ps : ∀ σ : store,
  r ≠ r3 → σ !! r = Some G →
  (∃ g3, σ !! r3 = Some g3 ∧ WF g3 ∧ weighted_subgraph G weight g3) →
  match for_ ps (λ e : node * node,
    w ← m_edge_attr r e.1 e.2 weight;
    update_graph r3 (add_edge e.1 e.2 [("weight", w)])) σ with
  | (Ok _, σ') =>
      length σ' = length σ ∧ σ' !! r = Some G ∧
      ∃ g3, σ' !! r3 = Some g3 ∧ WF g3 ∧ weighted_subgraph G weight g3
  | (Err e, _) => e = KeyError
  end.
Proof.
  induction ps as [|[u v] ps IH]; intros σ Hne Hr (g3 & Hr3 & Hg3 & Hsub);
    cbn [for_].
  - split; [done|]. split; [done|]. by exists g3.
  - unfold mbind at 1, M_bind.
    unfold mbind at 1, M_bind.
    rewrite (run_edge_attr _ _ _ _ _ _ Hr). simpl.
    destruct (edge_lookup G u v) as [ddG|] eqn:Huv; [|done].
    destruct (dict_get weight ddG) as [w|] eqn:Hw; [|done].
    rewrite (run_update_graph _ _ _ _ Hr3).
    specialize (IH (<[r3 := add_edge u v [("weight", w)] g3]> σ) Hne).
    destruct (for_ ps _ (<[r3 := add_edge u v [("weight", w)] g3]> σ))
      as [[tt'|e] σ'].
    + rewrite length_insert in IH. apply IH.
      * by rewrite list_lookup_insert_ne.
      * exists (add_edge u v [("weight", w)] g3).
        split; [|split].
        -- apply list_lookup_insert_eq. by eapply lookup_lt_Some.
        -- by apply WF_add_edge.
        -- by eapply weighted_subgraph_add_edge.
    + apply IH.
      * by rewrite list_lookup_insert_ne.
      * exists (add_edge u v [("weight", w)] g3).
        split; [|split].
        -- apply list_lookup_insert_eq. by eapply lookup_lt_Some.
        -- by apply WF_add_edge.
        -- by eapply weighted_subgraph_add_edge.
Qed.

Lemma expand_paths_spec (r3 : ref) es : ∀ σ : store,
  r ≠ r3 → σ !! r = Some G →
  (∃ g3, σ !! r3 = Some g3 ∧ WF g3 ∧ weighted_subgraph G weight g3) →
  match for_ es (λ se : node * node,
    shortest_path ← m_astar_path r se.1 se.2 h weight;
    for_ (pairwise shortest_path) (λ e : node * node,
      w ← m_edge_attr r e.1 e.2 weight;
      update_graph r3 (add_edge e.1 e.2 [("weight", w)]))) σ with
  | (Ok _, σ') =>
      length σ' = length σ ∧ σ' !! r = Some G ∧
      ∃ g3, σ' !! r3 = Some g3 ∧ WF g3 ∧ weighted_subgraph G weight g3
  | (Err e, _) =>
      nonneg_weights weight G = true →
      e = NodeNotFound ∨ e = NetworkXNoPath ∨ e = KeyError
  end.
Proof.
  induction es as [|[a b] es IH]; intros σ Hne Hr Hg3; cbn [for_].
  - split; [done|]. split; done.
  - unfold mbind at 1, M_bind.
    unfold mbind at 1, M_bind.
    rewrite (run_astar_path _ _ _ _ _ _ _ Hr). simpl.
    destruct (astar_path G a b h weight) as [p|e] eqn:Hp.
    2:{ intros Hnn.
        destruct (astar_path_errors h weight G Hwf Hnn a b e Hp); auto. }
    pose proof (expand_path_spec r3 (pairwise p) σ Hne Hr Hg3) as Hin.
    destruct (for_ (pairwise p) _ σ) as [[tt'|e] σ1]; [|auto].
    destruct Hin as (Hlen & Hr1 & Hg31).
    specialize (IH σ1 Hne Hr1 Hg31).
    destruct (for_ es _ σ1) as [[tt''|e] σ2]; [|done].
    destruct IH as (Hlen2 & Hr2 & Hg32).
    split; [congruence|]. split; done.
Qed.

(** The run of [kou_et_al]: a returned graph is made of edges of [G]
    with the weights of [G]; with non-negative weights no loop runs out
    of steps, and the exceptions are those of the searches, of the weight
    lookup and of the pruner. *)
Lemma kou_et_al_spec (σ : store) T :
  σ !! r = Some G →
  match kou_et_al r h T weight σ with
  | (Ok r5, σ') =>
      ∃ g5, σ' !! r5 = Some g5 ∧ WF g5 ∧ weighted_subgraph G weight g5
  | (Err e, _) =>
      nonneg_weights weight G = true →
      e = NodeNotFound ∨ e = NetworkXNoPath ∨ e = KeyError
      ∨ e = NetworkXError ∨ e = StopIteration
  end.
Proof.
  intros Hr. unfold kou_et_al.
  pose proof (get_complete_distance_graph_spec σ T Hr) as H1.
  unfold mbind at 1, M_bind.
  destruct (get_complete_distance_graph r T h weight σ) as [[g1|e] σ1].
  2:{ intros Hnn. destruct (H1 Hnn); auto. }
  destruct H1 as (-> & D & ->).
  rewrite (run_bind _ _ _ _ _
             (run_minimum_spanning_tree _ _ _ _ (lookup_snoc_fresh _ _))).
  unfold mbind at 1, M_bind, Graph_new.
  set (g2v := minimum_spanning_tree D weight).
  set (σ2 := (σ ++ [D]) ++ [g2v]).
  assert (Hg2 : (σ2 ++ [empty_graph]) !! length (σ ++ [D]) = Some g2v).
  { rewrite lookup_app_l by (unfold σ2; rewrite !length_app; simpl; lia).
    apply lookup_snoc_fresh. }
  rewrite (run_bind _ _ _ _ _ (run_get_graph _ _ _ Hg2)).
  assert (Hlt : r < length σ) by (by eapply lookup_lt_Some).
  assert (Hne : r ≠ length σ2).
  { unfold σ2. rewrite !length_app. simpl. lia. }
  assert (Hr3 : (σ2 ++ [empty_graph]) !! r = Some G).
  { unfold σ2. rewrite <- !app_assoc. by apply lookup_app_l_Some. }
  pose proof (expand_paths_spec (length σ2) (edges g2v) (σ2 ++ [empty_graph])
                Hne Hr3) as H3.
  unfold mbind at 1, M_bind.
  destruct (for_ (edges g2v) _ (σ2 ++ [empty_graph])) as [[tt'|e] σ3].
  2:{ intros Hnn. destruct H3 as [?|[?|?]]; auto.
      exists empty_graph. split; [apply lookup_snoc_fresh|].
      split; [apply (WF_add_nodes_from_empty [])|]. split; [|done].
      intros n Hn. by apply elem_of_nil in Hn. }
  destruct H3 as (Hlen3 & Hr3' & g3 & Hg3 & Hwf3 & Hsub3).
  { exists empty_graph. split; [apply lookup_snoc_fresh|].
    split; [apply (WF_add_nodes_from_empty [])|]. split; [|done].
    intros n Hn. by apply elem_of_nil in Hn. }
  rewrite (run_bind _ _ _ _ _ (run_minimum_spanning_tree _ _ _ _ Hg3)).
  set (g4v := minimum_spanning_tree g3 weight).
  destruct (minimum_spanning_tree_spec g3 weight Hwf3) as (Hwf4 & Hn4 & He4 & _).
  fold g4v in Hwf4, Hn4, He4.
  pose proof (remove_redundant_nodes_spec (σ3 ++ [g4v]) (length σ3) g4v T
                (lookup_snoc_fresh _ _)) as H5.
  unfold mbind, M_bind.
  destruct (remove_redundant_nodes (length σ3) T (σ3 ++ [g4v]))
    as [[r5|e] σ5]; [|intros _; destruct H5; auto].
  destruct H5 as (g5 & -> & -> & Hwf5 & [Hn5 He5] & _).
  simpl. exists g5. split; [apply lookup_snoc_fresh|]. split; [done|].
  destruct (graph_copy_spec g4v Hwf4) as (_ & Hnc & Hec).
  destruct Hsub3 as [Hn3 He3]. split.
  - intros n Hn. apply Hn3. rewrite <- Hn4, <- Hnc. by apply Hn5.
  - intros x y dd Hd.
    destruct (WF_edge_nodes g5 x y dd Hwf5 Hd) as [Hx Hy].
    rewrite (He5 x y Hx Hy), Hec in Hd.
    destruct (He4 x y) as [Hnone|Heq]; [congruence|].
    rewrite Heq in Hd. by apply He3.
Qed.
End stages.

(** * The claims *)

(** ** Pruning *)

(** C7. The pruner is not idempotent. On the tree [T_branch] with the
    terminals 0 and 1 it removes the leaf 4 and then the branching node 3,
    and returns the isolated node 0 and the edge 5–1, in which the
    non-terminal node 5 is a leaf; applied to that graph it removes 5 and
    returns the two terminals without an edge, a different graph. *)
Theorem remove_redundant_nodes_not_idempotent :
  let T := [0; 1] in
  let g1 := [(0, []); (5, [(1, unit_weight 1)]); (1, [(5, unit_weight 1)])] in
  let g2 := [(0, []); (1, [])] in
  wf_graph T_branch = true ∧
  number_of_edges T_branch = length (nodes T_branch) - 1 ∧
  result_graph (remove_redundant_nodes 0 T [T_branch]) = Ok g1 ∧
  degree 5 g1 = 1 ∧ (5 ∉ T) ∧ no_non_terminal_leaf g1 T = false ∧
  result_graph (remove_redundant_nodes 0 T [g1]) = Ok g2 ∧
  ¬ graph_equal g2 g1.
Proof.
  cbv zeta.
  split; [vm_compute; reflexivity|]. split; [vm_compute; reflexivity|].
  split; [vm_compute; reflexivity|]. split; [vm_compute; reflexivity|].
  split.
  { intros H. repeat (apply elem_of_cons in H as [H|H]; [discriminate H|]).
    by apply elem_of_nil in H. }
  split; [vm_compute; reflexivity|]. split; [vm_compute; reflexivity|].
  intros [Hn _]. specialize (Hn 5). vm_compute in Hn. discriminate Hn.
Qed.

(** C10. [remove_redundant_nodes] works on a copy: whatever the outcome,
    the object it was given holds the same graph afterwards, and a returned
    reference is a new object, distinct from the argument. *)
Theorem remove_redundant_nodes_keeps_input (σ : store) (r : ref) (g : Graph)
    (terminals : list node) :
  σ !! r = Some g →
  (remove_redundant_nodes r terminals σ).2 !! r = Some g ∧
  ∀ r', (remove_redundant_nodes r terminals σ).1 = Ok r' →
        r' ≠ r ∧ length σ ≤ r'.
Proof.
  intros Hr.
  pose proof (preserves_remove_redundant_nodes σ r terminals σ) as H.
  specialize (H ltac:(done)).
  destruct (remove_redundant_nodes r terminals σ) as [[r'|e] σ']; simpl.
  - destruct H as [Hpre Hfresh]. split.
    + by eapply prefix_lookup_Some.
    + intros ? [= <-]. unfold fresh_for in Hfresh.
      apply lookup_lt_Some in Hr. split; lia.
  - split; [by eapply prefix_lookup_Some|]. intros ? [=].
Qed.

Lemma remove_redundant_nodes_keeps_input_witness :
  [T_star] !! 0 = Some T_star ∧
  (remove_redundant_nodes 0 [1; 0; 2] [T_star]).2 !! 0 = Some T_star ∧
  ∀ r', (remove_redundant_nodes 0 [1; 0; 2] [T_star]).1 = Ok r' →
        r' ≠ 0 ∧ length [T_star] ≤ r'.
Proof.
  split; [reflexivity|].
  apply (remove_redundant_nodes_keeps_input [T_star] 0 T_star [1; 0; 2]).
  reflexivity.
Defined.

(** C2. On the tree [T_star] with terminals 0, 1, 2 the pruner's loop
    removes the leaf 4, puts its neighbour 3 on the worklist although 3
    then has degree 3, and removes 3 in the next round while it still has
    three neighbours; the graph returned has lost every edge. *)
Theorem prune_removes_branching_node :
  let T := [1; 0; 2] in
  let g0 := graph_copy T_star in
  let g1 := remove_node 4 g0 in
  let g2 := remove_node 3 g1 in
  filter (λ n, is_leaf_non_terminal g0 T n = true) (nodes g0) = [4] ∧
  prune_node 0 T [4] 4 [g0] = (Ok [3], [g1]) ∧
  degree 3 g1 = 3 ∧ (3 ∉ T) ∧
  prune_node 0 T [3] 3 [g1] = (Ok [5], [g2]) ∧
  has_node 3 g2 = false ∧
  result_graph (remove_redundant_nodes 0 T [T_star])
  = Ok [(1, []); (0, []); (2, [])].
Proof.
  cbv zeta.
  split; [vm_compute; reflexivity|]. split; [vm_compute; reflexivity|].
  split; [vm_compute; reflexivity|]. split.
  { intros H. repeat (apply elem_of_cons in H as [H|H]; [discriminate H|]).
    by apply elem_of_nil in H. }
  split; [vm_compute; reflexivity|]. split; vm_compute; reflexivity.
Qed.

(** ** The whole computation *)

(** C9. [kou_et_al] never mutates the graph it is given: whether the call
    returns or raises, the object [g_original] holds the same graph after
    the call, and so does every other object that existed before it. *)
Theorem kou_et_al_keeps_input (σ : store) (g_original : ref) (G : Graph)
    (h : node → node → Z) (terminals : list node) (weight : string) :
  σ !! g_original = Some G →
  (kou_et_al g_original h terminals weight σ).2 !! g_original = Some G ∧
  σ `prefix_of` (kou_et_al g_original h terminals weight σ).2.
Proof.
  intros Hr.
  pose proof (preserves_kou_et_al σ g_original h terminals weight σ) as H.
  specialize (H ltac:(done)).
  destruct (kou_et_al g_original h terminals weight σ) as [[r'|e] σ']; simpl.
  - destruct H as [Hpre _]. split; [by eapply prefix_lookup_Some|done].
  - split; [by eapply prefix_lookup_Some|done].
Qed.

Lemma kou_et_al_keeps_input_witness :
  [G_split] !! 0 = Some G_split ∧
  (kou_et_al 0 h_zero [0; 2] "weight" [G_split]).2 !! 0 = Some G_split ∧
  [G_split] `prefix_of` (kou_et_al 0 h_zero [0; 2] "weight" [G_split]).2.
Proof.
  split; [reflexivity|].
  apply (kou_et_al_keeps_input [G_split] 0 G_split h_zero [0; 2] "weight").
  reflexivity.
Defined.

(** C1. On [G_cycle] with the terminals 1, 0, 2, which are pairwise
    connected, and the heuristic [h_over], [kou_et_al] returns the three
    terminals without any edge: the result is not connected and its edge
    count is not its node count minus one. *)
Theorem kou_et_al_result_not_a_tree :
  (reachable G_cycle 1 0 ∧ reachable G_cycle 1 2 ∧ reachable G_cycle 0 2) ∧
  ∃ t, result_graph (kou_et_al 0 h_over [1; 0; 2] "weight" [G_cycle]) = Ok t ∧
       nodes t = [1; 0; 2] ∧ number_of_edges t = 0 ∧
       number_of_edges t ≠ length (nodes t) - 1 ∧ ¬ connected t.
Proof.
  split.
  - repeat split.
    + apply (reach_step _ 1 5); [reflexivity..|].
      apply (reach_step _ 5 3); [reflexivity..|].
      apply (reach_step _ 3 0); [reflexivity..|]. by apply reach_refl.
    + apply (reach_step _ 1 5); [reflexivity..|].
      apply (reach_step _ 5 3); [reflexivity..|].
      apply (reach_step _ 3 2); [reflexivity..|]. by apply reach_refl.
    + apply (reach_step _ 0 2); [reflexivity..|]. by apply reach_refl.
  - exists [(1, []); (0, []); (2, [])].
    split; [vm_compute; reflexivity|]. split; [reflexivity|].
    split; [reflexivity|]. split; [vm_compute; discriminate|].
    intros Hc.
    assert (H : reachable [(1, []); (0, []); (2, [])] 1 0).
    { apply Hc; [left|right; left]. }
    inversion H; subst. discriminate.
Qed.

(** C3. With a single terminal [kou_et_al] returns the empty graph: the
    terminal itself is not in the result. *)
Theorem kou_et_al_single_terminal_empty (σ : store) (g_original : ref)
    (h : node → node → Z) (t : node) (weight : string) :
  result_graph (kou_et_al g_original h [t] weight σ) = Ok empty_graph.
Proof. by apply run_kou_et_al_short. Qed.

(** C4 as the code has it. With an empty terminal list [kou_et_al] raises
    nothing: it returns the empty graph. *)
Theorem kou_et_al_no_terminal_empty (σ : store) (g_original : ref)
    (h : node → node → Z) (weight : string) :
  result_graph (kou_et_al g_original h [] weight σ) = Ok empty_graph.
Proof. by apply run_kou_et_al_short. Qed.

(** C4 as stated fails: on [G_path] with no terminal the call does not
    fail. *)
Lemma kou_et_al_no_terminal_not_failure :
  ¬ is_failure (kou_et_al 0 h_zero [] "weight" [G_path]).
Proof. vm_compute. tauto. Qed.

(** C6. On the single edge 0–1 without a weight attribute, with terminals
    0 and 1, the search treats the weight as 1 and the distance graph is
    built, but reading the weight in the path expansion raises [KeyError];
    the same call on the edge with weight 1 returns the edge. *)
Theorem kou_et_al_missing_weight_raises :
  result_graph (get_complete_distance_graph 0 [0; 1] h_zero "weight" [G_bare])
  = Ok [(0, [(1, [("weight", 1%Z)])]); (1, [(0, [("weight", 1%Z)])])] ∧
  result_graph (kou_et_al 0 h_zero [0; 1] "weight" [G_bare]) = Err KeyError ∧
  result_graph (kou_et_al 0 h_zero [0; 1] "weight" [G_unit])
  = Ok [(0, [(1, [("weight", 1%Z)])]); (1, [(0, [("weight", 1%Z)])])].
Proof. split; [|split]; vm_compute; reflexivity. Qed.

(** * Further properties of the module *)

(** ** The distance graph builder *)

(** X1. If two terminals have no path between them in [G] (every terminal
    being a node of [G], no weight negative), then
    [get_complete_distance_graph] raises [NetworkXNoPath] and so does
    [kou_et_al]: neither returns a graph. *)
Theorem unreachable_terminals_raise (σ : store) (g_original : ref) (G : Graph)
    (h : node → node → Z) (T : list node) (weight : string) (u v : node) :
  σ !! g_original = Some G → wf_graph G = true →
  nonneg_weights weight G = true →
  (∀ t, t ∈ T → has_node t G = true) →
  u ∈ T → v ∈ T → ¬ reachable G u v →
  (get_complete_distance_graph g_original T h weight σ).1 = Err NetworkXNoPath ∧
  (kou_et_al g_original h T weight σ).1 = Err NetworkXNoPath.
Proof.
  intros Hr Hwf Hnn HT Hu Hv Hnr.
  destruct (run_get_complete_distance_graph_unreachable h weight G Hwf Hnn
              σ g_original T u v Hr HT Hu Hv Hnr) as [σ' Hrun].
  split; [by rewrite Hrun|].
  unfold kou_et_al. by rewrite (run_bind_err _ _ _ _ _ Hrun).
Qed.

Lemma unreachable_terminals_raise_witness :
  (get_complete_distance_graph 0 [0; 1; 2] h_zero "weight" [G_split]).1
  = Err NetworkXNoPath ∧
  (kou_et_al 0 h_zero [0; 1; 2] "weight" [G_split]).1 = Err NetworkXNoPath.
Proof.
  apply (unreachable_terminals_raise [G_split] 0 G_split h_zero [0; 1; 2]
           "weight" 0 2); try reflexivity.
  - intros t Ht.
    repeat (apply elem_of_cons in Ht as [->|Ht]; [reflexivity|]).
    by apply elem_of_nil in Ht.
  - left.
  - right. right. left.
  - apply (not_reachable_by_search G_split h_zero "weight"); reflexivity.
Defined.

(** X2. For a duplicate-free list [T] of pairwise connected nodes of [G]
    (no weight negative), [get_complete_distance_graph] returns a graph [D]
    whose node list is [T], with [k (k - 1) / 2] edges for [k] terminals,
    and in which every pair of terminals is joined by an edge whose
    attribute ["weight"] is the length the search returned for the pair. *)
Theorem get_complete_distance_graph_complete (σ : store) (g_original : ref)
    (G : Graph) (h : node → node → Z) (T : list node) (weight : string) :
  σ !! g_original = Some G → wf_graph G = true →
  nonneg_weights weight G = true →
  NoDup T → (∀ u v, u ∈ T → v ∈ T → reachable G u v) →
  ∃ D, result_graph (get_complete_distance_graph g_original T h weight σ) = Ok D ∧
    nodes D = T ∧
    number_of_edges D = length T * (length T - 1) / 2 ∧
    (∀ u v, (u, v) ∈ combinations2 T →
       ∃ len, astar_path_length G u v h weight = Ok len ∧
              edge_lookup D u v = Some [("weight", len)] ∧
              edge_lookup D v u = Some [("weight", len)]) ∧
    (∀ u v, u ∈ T → v ∈ T → u ≠ v → is_Some (edge_lookup D u v)) ∧
    (∀ u v, is_Some (edge_lookup D u v) → u ∈ T ∧ v ∈ T ∧ u ≠ v).
Proof.
  intros Hr Hwf Hnn Hnd Hreach.
  destruct (run_get_complete_distance_graph_reachable σ g_original G h T weight
              Hr Hwf Hnn Hnd Hreach)
    as (len & D & Hrun & Hlen & HD & Hnodes & Hsum & Hedges & Honly).
  exists D. split.
  { rewrite Hrun. unfold result_graph. by rewrite lookup_snoc_fresh. }
  split; [done|]. split.
  { unfold number_of_edges. rewrite Hsum.
    rewrite <- combinations2_length.
    rewrite (Nat.mul_comm 2), !Nat.div_mul by done. done. }
  split; [|split].
  - intros u v Hp. exists (len (u, v)).
    split; [apply (Hlen (u, v) Hp)|]. apply (Hedges (u, v) Hp).
  - intros u v Hu Hv Hne.
    destruct (combinations2_cover T u v Hu Hv Hne) as [Hp|Hp].
    + destruct (Hedges _ Hp) as [He _]. simpl in He. by rewrite He.
    + destruct (Hedges _ Hp) as [_ He]. simpl in He. by rewrite He.
  - intros u v [dd Hd]. destruct (Honly _ _ _ Hd) as ([a b] & Hp & _ & Hxy).
    pose proof (combinations2_distinct T a b Hnd Hp) as Hab.
    apply elem_of_combinations2 in Hp as [Ha Hb].
    destruct Hxy as [[= -> ->]|[= -> ->]]; auto.
Qed.

Lemma get_complete_distance_graph_complete_witness :
  ∃ D, result_graph
         (get_complete_distance_graph 0 [0; 1; 2] h_zero "weight" [G_path])
       = Ok D ∧
    nodes D = [0; 1; 2] ∧
    number_of_edges D = length [0; 1; 2] * (length [0; 1; 2] - 1) / 2 ∧
    (∀ u v, (u, v) ∈ combinations2 [0; 1; 2] →
       ∃ len, astar_path_length G_path u v h_zero "weight" = Ok len ∧
              edge_lookup D u v = Some [("weight", len)] ∧
              edge_lookup D v u = Some [("weight", len)]) ∧
    (∀ u v, u ∈ [0; 1; 2] → v ∈ [0; 1; 2] → u ≠ v →
       is_Some (edge_lookup D u v)) ∧
    (∀ u v, is_Some (edge_lookup D u v) →
       u ∈ [0; 1; 2] ∧ v ∈ [0; 1; 2] ∧ u ≠ v).
Proof.
  apply (get_complete_distance_graph_complete [G_path] 0 G_path h_zero
           [0; 1; 2] "weight"); try reflexivity.
  - repeat (apply NoDup_cons; split;
            [intros H; repeat (apply elem_of_cons in H as [H|H];
                                 [discriminate H|]);
             by apply elem_of_nil in H|]).
    apply NoDup_nil_2.
  - intros u v Hu Hv.
    repeat (apply elem_of_cons in Hu as [->|Hu]);
      try (by apply elem_of_nil in Hu);
      repeat (apply elem_of_cons in Hv as [->|Hv]);
      try (by apply elem_of_nil in Hv);
      eapply (reachable_by_search G_path h_zero "weight");
      reflexivity.
Defined.

(** X3. The distances are stored under the literal key ["weight"], not
    under the key the caller passes: every edge of the distance graph has
    that one attribute, so read under any other key it has the default
    weight 1. *)
Theorem distance_graph_literal_weight_key (σ : store) (g_original : ref)
    (G : Graph) (h : node → node → Z) (T : list node) (weight key : string) :
  σ !! g_original = Some G → wf_graph G = true →
  nonneg_weights weight G = true →
  NoDup T → (∀ u v, u ∈ T → v ∈ T → reachable G u v) →
  key ≠ "weight" →
  ∃ D, result_graph (get_complete_distance_graph g_original T h weight σ) = Ok D ∧
    ∀ u v dd, edge_lookup D u v = Some dd →
      dict_keys dd = ["weight"] ∧ weight_of key dd = 1%Z.
Proof.
  intros Hr Hwf Hnn Hnd Hreach Hkey.
  destruct (run_get_complete_distance_graph_reachable σ g_original G h T weight
              Hr Hwf Hnn Hnd Hreach)
    as (len & D & Hrun & _ & _ & _ & _ & _ & Honly).
  exists D. split.
  { rewrite Hrun. unfold result_graph. by rewrite lookup_snoc_fresh. }
  intros u v dd Hd. destruct (Honly _ _ _ Hd) as (p & _ & -> & _).
  split; [done|]. unfold weight_of. simpl. by rewrite decide_False.
Qed.

Lemma distance_graph_literal_weight_key_witness :
  ∃ D, result_graph
         (get_complete_distance_graph 0 [0; 2] h_zero "cost" [G_path]) = Ok D ∧
    ∀ u v dd, edge_lookup D u v = Some dd →
      dict_keys dd = ["weight"] ∧ weight_of "cost" dd = 1%Z.
Proof.
  apply (distance_graph_literal_weight_key [G_path] 0 G_path h_zero [0; 2]
           "cost" "cost"); try reflexivity.
  - repeat (apply NoDup_cons; split;
            [intros H; repeat (apply elem_of_cons in H as [H|H];
                                 [discriminate H|]);
             by apply elem_of_nil in H|]).
    apply NoDup_nil_2.
  - intros u v Hu Hv.
    repeat (apply elem_of_cons in Hu as [->|Hu]);
      try (by apply elem_of_nil in Hu);
      repeat (apply elem_of_cons in Hv as [->|Hv]);
      try (by apply elem_of_nil in Hv);
      eapply (reachable_by_search G_path h_zero "cost");
      reflexivity.
  - discriminate.
Defined.

(** X4. With at least two terminals, a terminal that is not a node of [G]
    makes [get_complete_distance_graph], and so [kou_et_al], raise:
    [NodeNotFound] from the search on the first pair that has a missing
    node, unless an earlier pair already raised [NetworkXNoPath]. *)
Theorem missing_terminal_raises (σ : store) (g_original : ref) (G : Graph)
    (h : node → node → Z) (T : list node) (weight : string) (t : node) :
  σ !! g_original = Some G → wf_graph G = true →
  nonneg_weights weight G = true →
  t ∈ T → has_node t G = false → 2 ≤ length T →
  ∃ e, (get_complete_distance_graph g_original T h weight σ).1 = Err e ∧
       (kou_et_al g_original h T weight σ).1 = Err e ∧
       (e = NodeNotFound ∨ e = NetworkXNoPath).
Proof.
  intros Hr Hwf Hnn Ht Hmiss Hlen.
  destruct (combinations2_involves T t Ht Hlen) as (p & Hp & Hpt).
  destruct (run_distance_loop_missing σ g_original G h weight (combinations2 T)
              (add_nodes_from T empty_graph) Hr Hwf Hnn) as (e & σ' & Hloop & He).
  { exists p. split; [done|]. destruct Hpt as [-> | ->]; auto. }
  assert (Hrun : get_complete_distance_graph g_original T h weight σ
                 = (Err e, σ')).
  { unfold get_complete_distance_graph.
    unfold mbind at 1, M_bind, Graph_new.
    rewrite (run_bind _ _ _ _ _ (run_update_fresh _ _ _)).
    by rewrite (run_bind_err _ _ _ _ _ Hloop). }
  exists e. split; [by rewrite Hrun|]. split; [|done].
  unfold kou_et_al. by rewrite (run_bind_err _ _ _ _ _ Hrun).
Qed.

Lemma missing_terminal_raises_witness :
  ∃ e, (get_complete_distance_graph 0 [0; 7] h_zero "weight" [G_path]).1 = Err e ∧
       (kou_et_al 0 h_zero [0; 7] "weight" [G_path]).1 = Err e ∧
       (e = NodeNotFound ∨ e = NetworkXNoPath).
Proof.
  apply (missing_terminal_raises [G_path] 0 G_path h_zero [0; 7] "weight" 7);
    try reflexivity.
  right. left.
Defined.

(** X5. [get_complete_distance_graph] builds the distance graph in a new
    object: whether it returns or raises, the graph it was given and every
    other object are as before, and a returned reference is none of them. *)
Theorem get_complete_distance_graph_keeps_input (σ : store) (g_original : ref)
    (G : Graph) (h : node → node → Z) (T : list node) (weight : string) :
  σ !! g_original = Some G →
  (get_complete_distance_graph g_original T h weight σ).2 !! g_original = Some G ∧
  σ `prefix_of` (get_complete_distance_graph g_original T h weight σ).2 ∧
  ∀ r', (get_complete_distance_graph g_original T h weight σ).1 = Ok r' →
        r' ≠ g_original ∧ length σ ≤ r'.
Proof.
  intros Hr.
  pose proof (preserves_get_complete_distance_graph σ g_original T h weight σ)
    as H.
  specialize (H ltac:(done)).
  destruct (get_complete_distance_graph g_original T h weight σ)
    as [[r'|e] σ']; simpl.
  - destruct H as [Hpre Hfresh]. split; [by eapply prefix_lookup_Some|].
    split; [done|]. intros ? [= <-]. unfold fresh_for in Hfresh.
    apply lookup_lt_Some in Hr. split; lia.
  - split; [by eapply prefix_lookup_Some|]. split; [done|]. intros ? [=].
Qed.

Lemma get_complete_distance_graph_keeps_input_witness :
  (get_complete_distance_graph 0 [0; 2] h_zero "weight" [G_split]).2 !! 0
  = Some G_split ∧
  [G_split] `prefix_of`
    (get_complete_distance_graph 0 [0; 2] h_zero "weight" [G_split]).2 ∧
  ∀ r', (get_complete_distance_graph 0 [0; 2] h_zero "weight" [G_split]).1
        = Ok r' → r' ≠ 0 ∧ length [G_split] ≤ r'.
Proof.
  apply (get_complete_distance_graph_keeps_input [G_split] 0 G_split h_zero
           [0; 2] "weight").
  reflexivity.
Defined.

(** ** The leaf pruner *)

(** X6. The loop of [remove_redundant_nodes] always ends, and [remove]
    always finds the node on the work list: a call on a graph object
    either returns or raises [NetworkXError] (the node has left the graph
    already) or [StopIteration] (the node has no neighbour left). *)
Theorem remove_redundant_nodes_raises_only (σ : store) (g_original : ref)
    (g : Graph) (T : list node) (e : exn) :
  σ !! g_original = Some g →
  (remove_redundant_nodes g_original T σ).1 = Err e →
  e = NetworkXError ∨ e = StopIteration.
Proof.
  intros Hr He.
  pose proof (remove_redundant_nodes_spec σ g_original g T Hr) as H.
  destruct (remove_redundant_nodes g_original T σ) as [[r'|e'] σ']; simpl in He.
  - done.
  - by injection He as <-.
Qed.

Lemma remove_redundant_nodes_raises_only_witness :
  (remove_redundant_nodes 0 [] [G_unit]).1 = Err StopIteration ∧
  (StopIteration = NetworkXError ∨ StopIteration = StopIteration).
Proof.
  split; [vm_compute; reflexivity|].
  apply (remove_redundant_nodes_raises_only [G_unit] 0 G_unit [] StopIteration).
  - reflexivity.
  - vm_compute. reflexivity.
Defined.

(** X7. [remove_redundant_nodes] never removes a terminal: every terminal
    that is a node of the input is a node of the graph returned. *)
Theorem remove_redundant_nodes_keeps_terminals (σ : store) (g_original : ref)
    (g g' : Graph) (T : list node) (t : node) :
  σ !! g_original = Some g →
  result_graph (remove_redundant_nodes g_original T σ) = Ok g' →
  t ∈ T → t ∈ nodes g → t ∈ nodes g'.
Proof.
  intros Hr Hres Ht Hn.
  pose proof (remove_redundant_nodes_spec σ g_original g T Hr) as H.
  destruct (remove_redundant_nodes g_original T σ) as [[r'|e] σ']; [|done].
  destruct H as (gv' & -> & -> & _ & _ & Hkeep).
  unfold result_graph in Hres. rewrite lookup_snoc_fresh in Hres.
  injection Hres as <-. apply Hkeep; [done|].
  by apply elem_of_nodes_graph_copy.
Qed.

Lemma remove_redundant_nodes_keeps_terminals_witness :
  result_graph (remove_redundant_nodes 0 [1; 0; 2] [T_star])
  = Ok [(1, []); (0, []); (2, [])] ∧
  2 ∈ nodes [(1, []); (0, []); (2, [])].
Proof.
  split; [vm_compute; reflexivity|].
  apply (remove_redundant_nodes_keeps_terminals [T_star] 0 T_star
           [(1, []); (0, []); (2, [])] [1; 0; 2] 2).
  - reflexivity.
  - vm_compute. reflexivity.
  - right. right. left.
  - vm_compute. right. right. right. right. right. left.
Defined.

(** X8. The graph [remove_redundant_nodes] returns for a well-formed
    input is the input restricted to the nodes that are left: it has no new
    node, and between the nodes it has, exactly the edges of the input with
    their attributes. *)
Theorem remove_redundant_nodes_induced_subgraph (σ : store) (g_original : ref)
    (g g' : Graph) (T : list node) :
  σ !! g_original = Some g → wf_graph g = true →
  result_graph (remove_redundant_nodes g_original T σ) = Ok g' →
  induced_subgraph g' g.
Proof.
  intros Hr Hwf Hres. apply wf_graph_WF in Hwf.
  pose proof (remove_redundant_nodes_spec σ g_original g T Hr) as H.
  destruct (remove_redundant_nodes g_original T σ) as [[r'|e] σ']; [|done].
  destruct H as (gv' & -> & -> & _ & [Hn He] & _).
  unfold result_graph in Hres. rewrite lookup_snoc_fresh in Hres.
  injection Hres as <-.
  destruct (graph_copy_spec g Hwf) as (_ & Hnc & Hec). split.
  - intros n Hin. rewrite <- Hnc. by apply Hn.
  - intros x y Hx Hy. rewrite He by done. apply Hec.
Qed.

Lemma remove_redundant_nodes_induced_subgraph_witness :
  induced_subgraph [(0, [])] G_path.
Proof.
  apply (remove_redundant_nodes_induced_subgraph [G_path] 0 G_path [(0, [])] [0]).
  - reflexivity.
  - reflexivity.
  - vm_compute. reflexivity.
Defined.

(** X13. On a graph in which every node of degree 1 is a terminal, the
    leaf pruner [remove_redundant_nodes] raises nothing and returns a graph
    equal to its input (the same nodes and the same adjacency): pruning an
    already pruned graph is a no-op. *)
Theorem remove_redundant_nodes_pruned_noop (σ : store) (r : ref) (g : Graph)
    (terminals : list node) :
  σ !! r = Some g → wf_graph g = true →
  no_non_terminal_leaf g terminals = true →
  ∃ g', result_graph (remove_redundant_nodes r terminals σ) = Ok g'
        ∧ graph_equal g' g.
Proof.
  intros Hr Hwf Hleaf. apply wf_graph_WF in Hwf.
  exists (graph_copy g). split; [|by apply graph_copy_equal].
  rewrite (run_remove_redundant_nodes_no_leaf σ r g terminals Hr)
    by (by apply no_leaf_worklist_empty).
  unfold result_graph. by rewrite lookup_snoc_fresh.
Qed.

Lemma remove_redundant_nodes_pruned_noop_witness :
  [G_path] !! 0 = Some G_path ∧ wf_graph G_path = true ∧
  no_non_terminal_leaf G_path [0; 2] = true ∧
  ∃ g', result_graph (remove_redundant_nodes 0 [0; 2] [G_path]) = Ok g'
        ∧ graph_equal g' G_path.
Proof.
  split; [reflexivity|]. split; [reflexivity|]. split; [reflexivity|].
  apply (remove_redundant_nodes_pruned_noop [G_path] 0 G_path [0; 2]);
    reflexivity.
Defined.

(** ** The whole computation *)

(** X9. On a well-formed graph without negative weights [kou_et_al] always
    ends, whatever the heuristic: each search and the pruning loop finish,
    and the call returns a graph or raises one of [NodeNotFound],
    [NetworkXNoPath] (the searches), [KeyError] (the weight lookup),
    [NetworkXError], [StopIteration] (the pruner). *)
Theorem kou_et_al_raises_only (σ : store) (g_original : ref) (G : Graph)
    (h : node → node → Z) (T : list node) (weight : string) (e : exn) :
  σ !! g_original = Some G → wf_graph G = true →
  nonneg_weights weight G = true →
  (kou_et_al g_original h T weight σ).1 = Err e →
  e = NodeNotFound ∨ e = NetworkXNoPath ∨ e = KeyError
  ∨ e = NetworkXError ∨ e = StopIteration.
Proof.
  intros Hr Hwf Hnn He.
  pose proof (kou_et_al_spec h weight G g_original Hwf σ T Hr) as H.
  destruct (kou_et_al g_original h T weight σ) as [[r'|e'] σ']; simpl in He.
  - done.
  - injection He as <-. by apply H.
Qed.

Lemma kou_et_al_raises_only_witness :
  (kou_et_al 0 h_zero [0; 1] "weight" [G_bare]).1 = Err KeyError ∧
  (KeyError = NodeNotFound ∨ KeyError = NetworkXNoPath ∨ KeyError = KeyError
   ∨ KeyError = NetworkXError ∨ KeyError = StopIteration).
Proof.
  split; [vm_compute; reflexivity|].
  apply (kou_et_al_raises_only [G_bare] 0 G_bare h_zero [0; 1] "weight" KeyError).
  - reflexivity.
  - reflexivity.
  - reflexivity.
  - vm_compute. reflexivity.
Defined.

(** X10. Whatever the heuristic, the graph [kou_et_al] returns is made of
    nodes and edges of the original graph, and each of its edges carries
    the attribute ["weight"] with the value the original edge has under the
    key [weight]. *)
Theorem kou_et_al_result_from_original (σ : store) (g_original : ref)
    (G g5 : Graph) (h : node → node → Z) (T : list node) (weight : string) :
  σ !! g_original = Some G → wf_graph G = true →
  result_graph (kou_et_al g_original h T weight σ) = Ok g5 →
  weighted_subgraph G weight g5.
Proof.
  intros Hr Hwf Hres.
  pose proof (kou_et_al_spec h weight G g_original Hwf σ T Hr) as H.
  destruct (kou_et_al g_original h T weight σ) as [[r'|e] σ']; [|done].
  destruct H as (g & Hg & _ & Hsub).
  unfold result_graph in Hres. rewrite Hg in Hres. by injection Hres as <-.
Qed.

Lemma kou_et_al_result_from_original_witness :
  weighted_subgraph G_path "weight"
    [(0, [(1, [("weight", 1%Z)])]);
     (1, [(0, [("weight", 1%Z)]); (2, [("weight", 1%Z)])]);
     (2, [(1, [("weight", 1%Z)])])].
Proof.
  apply (kou_et_al_result_from_original [G_path] 0 G_path _ h_zero [0; 2]
           "weight").
  - reflexivity.
  - reflexivity.
  - vm_compute. reflexivity.
Defined.



(** ** The heuristic of the test suite *)

(** X12. [__taxicab_distance] is a metric on grid points: it is never
    negative, it is zero exactly between a point and itself, it is
    symmetric, and it satisfies the triangle inequality; so as a heuristic
    it changes by at most the length of a step. *)
Theorem taxicab_distance_metric (p q t : Z * Z) :
  (0 ≤ taxicab_distance p q)%Z ∧
  (taxicab_distance p q = 0%Z ↔ p = q) ∧
  taxicab_distance p q = taxicab_distance q p ∧
  (taxicab_distance p t ≤ taxicab_distance p q + taxicab_distance q t)%Z.
Proof.
  destruct p as [x1 y1], q as [x2 y2], t as [x3 y3]. unfold taxicab_distance.
  split; [lia|]. split; [|split; lia].
  split.
  - intros H. f_equal; lia.
  - intros [= -> ->]. lia.
Qed.
